(** * PigeonMC: wire buffer, connection phases, chunk store and player registry

    A shallow embedding of the parts of the server that its specification
    makes checkable statements about, together with the proofs (or the
    refutations on concrete inputs) of those statements.

    Conventions.
    - A C++ integer of width [w] is a [Z]; every narrowing conversion is
      written out ([Int.to_u8], [Int.to_i32], ...).  The project is built
      as C++20, where shifts and conversions wrap modulo [2^w].
    - A byte is a [Z] in [[0, 256)]; a byte string is a [list Z].
    - [size_t] cursors that index memory are [nat]; comparisons that mix
      them with converted signed values are done in [Z].
    - Exceptions are an explicit outcome; a buffer keeps the mutations
      made before the throw, as the C++ object does.
    - Mutexes, atomics, clocks and logging are not part of the model.
      Code whose outcome depends on them is left out:
      [Chunk::generate_flat_world] takes [sections_mutex_] and, holding
      it, calls [set_block], which takes the same mutex, so the call, and
      with it the job of [ChunkManager::load_chunk], is not embedded.
    - A run that ends in a null pointer dereference has the outcome
      [None]. *)

From Stdlib Require Import ZArith Lia List Bool.
From stdpp Require Import base option list gmap.

Local Open Scope Z_scope.

(** ** Fixed-width integers (core/types.hpp) *)

Module Int.

Definition to_unsigned (w x : Z) : Z := x mod 2 ^ w.

Definition to_signed (w x : Z) : Z :=
  let m := x mod 2 ^ w in
  if m <? 2 ^ (w - 1) then m else m - 2 ^ w.

Definition to_u8 := to_unsigned 8.
Definition to_u16 := to_unsigned 16.
Definition to_u32 := to_unsigned 32.
Definition to_u64 := to_unsigned 64.
Definition to_i16 := to_signed 16.
Definition to_i32 := to_signed 32.
Definition to_i64 := to_signed 64.

Definition is_i32 (x : Z) : Prop := - 2 ^ 31 <= x < 2 ^ 31.
Definition is_u8 (x : Z) : Prop := 0 <= x < 256.

(** [static_cast<size_t>] of a signed value on a 64-bit target. *)
Definition to_size_t := to_unsigned 64.

End Int.

(** ** Outcomes of fallible code *)

Inductive exn : Set :=
| BufferUnderflow      (* std::runtime_error("Buffer underflow") *)
| VarIntTooBig         (* std::runtime_error("VarInt too big") *)
| VarLongTooBig        (* std::runtime_error("VarLong too big") *)
| InvalidStringLength. (* std::runtime_error("Invalid string length") *)

Inductive result (A : Type) : Type :=
| Ok (a : A)
| Throw (e : exn).
Arguments Ok {A} a.
Arguments Throw {A} e.

Definition is_ok {A} (r : result A) : bool :=
  match r with Ok _ => true | Throw _ => false end.

(** A computation that mutates a state of type [S] and returns or throws;
    the state keeps the mutations made before a throw. *)
Definition StateExn (S A : Type) : Type := S -> result A * S.

Definition ret {S A} (a : A) : StateExn S A := fun s => (Ok a, s).
Definition throw {S A} (e : exn) : StateExn S A := fun s => (Throw e, s).
Definition bind {S A B} (m : StateExn S A) (f : A -> StateExn S B) : StateExn S B :=
  fun s => match m s with
           | (Ok a, s') => f a s'
           | (Throw e, s') => (Throw e, s')
           end.

Declare Scope exn_scope.
Delimit Scope exn_scope with exn.
Notation "'do' x <- m ; k" := (bind m (fun x => k))
  (at level 10, x name, m at level 100, k at level 200) : exn_scope.

(** ** The framed byte buffer (core/buffer.hpp) *)

Module Buffer.

(** [data_] is the whole allocation ([capacity_] bytes of it); only the
    first [size_] bytes have been written. *)
Record t : Type := mk {
  data_ : list Z;
  size_ : nat;
  capacity_ : nat;
  read_pos_ : nat;
  write_pos_ : nat
}.

(** A computation on a buffer. *)
Definition M (A : Type) : Type := StateExn t A.

(** [Buffer()] *)
Definition empty : t :=
  {| data_ := []; size_ := 0; capacity_ := 0; read_pos_ := 0; write_pos_ := 0 |}.

(** [Buffer(const byte* data, size_t size)]: a view of [size] bytes of
    memory; [mem] is what that memory holds.  *)
Definition view (mem : list Z) (size : nat) : t :=
  {| data_ := mem; size_ := size; capacity_ := size;
     read_pos_ := 0; write_pos_ := size |}.

Definition data (b : t) : list Z := data_ b.
Definition size (b : t) : nat := size_ b.
Definition readable (b : t) : nat := (size_ b - read_pos_ b)%nat.
Definition writable (b : t) : nat := (capacity_ b - write_pos_ b)%nat.

Definition reset (b : t) : t :=
  {| data_ := data_ b; size_ := 0; capacity_ := capacity_ b;
     read_pos_ := 0; write_pos_ := 0 |}.

(** The bytes written so far. *)
Definition contents (b : t) : list Z := take (size_ b) (data_ b).

Section Pool.

(** [g_buffer_pool.allocate] hands out recycled or [malloc]ed blocks:
    their contents are not specified.  [junk i] is the byte found at
    offset [i] of a block just handed out. *)
Variable junk : nat -> Z.

Definition allocate (n : nat) : list Z :=
  map (fun i => Int.to_u8 (junk i)) (seq 0 n).

(** [explicit Buffer(size_t initial_capacity)] *)
Definition create (initial_capacity : nat) : t :=
  {| data_ := allocate initial_capacity; size_ := 0;
     capacity_ := initial_capacity; read_pos_ := 0; write_pos_ := 0 |}.

Definition ensure_capacity (needed : nat) (b : t) : t :=
  if (needed <=? capacity_ b)%nat then b
  else
    let new_capacity := Nat.max needed (capacity_ b * 2) in
    let new_data := allocate new_capacity in
    {| data_ := take (size_ b) (data_ b) ++ drop (size_ b) new_data;
       size_ := size_ b;
       capacity_ := new_capacity;
       read_pos_ := read_pos_ b;
       write_pos_ := write_pos_ b |}.

(** [write(const void* data, size_t len)]: [memcpy] at [write_pos_]. *)
Definition write (bytes : list Z) (b : t) : t :=
  let len := length bytes in
  let b1 := ensure_capacity (write_pos_ b + len) b in
  let wp := (write_pos_ b1 + len)%nat in
  {| data_ := take (write_pos_ b1) (data_ b1) ++ bytes
              ++ drop (write_pos_ b1 + len) (data_ b1);
     size_ := Nat.max (size_ b1) wp;
     capacity_ := capacity_ b1;
     read_pos_ := read_pos_ b1;
     write_pos_ := wp |}.

Definition write_byte (value : Z) (b : t) : t := write [value] b.

(** The loop of [write_varint] on the unsigned value.  A 32-bit value
    leaves the loop after at most four rounds, so five units of fuel
    never run out ([BufferFacts.write_varint_loop_fuel]). *)
Fixpoint write_varint_loop (fuel : nat) (uvalue : Z) (b : t) : t :=
  match fuel with
  | O => write_byte (Int.to_u8 uvalue) b
  | S fuel' =>
      if 0x80 <=? uvalue
      then write_varint_loop fuel' (Z.shiftr uvalue 7)
             (write_byte (Int.to_u8 (Z.lor uvalue 0x80)) b)
      else write_byte (Int.to_u8 uvalue) b
  end.

Definition write_varint (value : Z) (b : t) : t :=
  write_varint_loop 5 (Int.to_u32 value) b.

(** [write_varlong]: the loop is that of [write_varint], on the [u64]
    value; it ends within ten rounds. *)
Definition write_varlong (value : Z) (b : t) : t :=
  write_varint_loop 10 (Int.to_u64 value) b.

Definition write_string (str : list Z) (b : t) : t :=
  write str (write_varint (Int.to_i32 (Z.of_nat (length str))) b).

(** [write_be<T>] for a [T] of [n] bytes, most significant first. *)
Fixpoint write_be_loop (i : nat) (value : Z) (b : t) : t :=
  match i with
  | O => b
  | S i' => write_be_loop i'  value
              (write_byte (Int.to_u8 (Z.shiftr value (Z.of_nat i' * 8))) b)
  end.

Definition write_be (n : nat) (value : Z) (b : t) : t :=
  match n with
  | 1%nat => write_byte (Int.to_u8 value) b
  | _ => write_be_loop n value b
  end.

End Pool.

(** [read_pos_ += n] *)
Definition advance (n : nat) (b : t) : t :=
  {| data_ := data_ b; size_ := size_ b; capacity_ := capacity_ b;
     read_pos_ := (read_pos_ b + n)%nat; write_pos_ := write_pos_ b |}.

(** [size_t read(void* dest, size_t len)]: copies what is available, at
    most [len] bytes, and returns them (their count is the C++ return
    value). *)
Definition read (len : nat) (b : t) : list Z * t :=
  let available := (size_ b - read_pos_ b)%nat in
  let to_read := Nat.min len available in
  (take to_read (drop (read_pos_ b) (data_ b)), advance to_read b).

(** [data_[i]]; outside the modelled memory the read is undefined in C++
    and yields 0 here. *)
Definition at_ (b : t) (i : nat) : Z := nth i (data_ b) 0.

Definition read_byte : M Z := fun b =>
  if (size_ b <=? read_pos_ b)%nat then (Throw BufferUnderflow, b)
  else (Ok (at_ b (read_pos_ b)), advance 1 b).

Local Open Scope exn_scope.

(** The do-while loop of [read_varint].  [shift] grows by 7 each round
    and the round that starts with [shift >= 32] throws, so the sixth
    round never reads: six units of fuel never run out
    ([BufferFacts.read_varint_loop_fuel]). *)
Fixpoint read_varint_loop (fuel : nat) (result shift : Z) : M Z :=
  match fuel with
  | O => throw VarIntTooBig
  | S fuel' =>
      if 32 <=? shift then throw VarIntTooBig
      else
        do b <- read_byte;
        let result' :=
          Z.lor result (Int.to_i32 (Z.shiftl (Z.land b 0x7F) shift)) in
        let shift' := shift + 7 in
        if negb (Z.land b 0x80 =? 0)
        then read_varint_loop fuel' result' shift'
        else ret result'
  end.

Definition read_varint : M Z := read_varint_loop 6 0 0.

(** The do-while loop of [read_varlong]: the round that starts with
    [shift >= 64] throws, so the eleventh round never reads. *)
Fixpoint read_varlong_loop (fuel : nat) (result shift : Z) : M Z :=
  match fuel with
  | O => throw VarLongTooBig
  | S fuel' =>
      if 64 <=? shift then throw VarLongTooBig
      else
        do b <- read_byte;
        let result' :=
          Z.lor result (Int.to_i64 (Z.shiftl (Z.land b 0x7F) shift)) in
        let shift' := shift + 7 in
        if negb (Z.land b 0x80 =? 0)
        then read_varlong_loop fuel' result' shift'
        else ret result'
  end.

Definition read_varlong : M Z := read_varlong_loop 11 0 0.

(** [read_string]: the count returned by [read] is not looked at; the
    string keeps its initial NUL bytes where nothing was copied. *)
Definition read_string : M (list Z) :=
  do length <- read_varint;
  if (length <? 0) || (32767 <? length) then throw InvalidStringLength
  else fun b =>
    let n := Z.to_nat length in
    let (copied, b') := read n b in
    (Ok (copied ++ repeat 0 (n - List.length copied)), b').

(** [read_be<T>] for a [T] of [n] bytes; [conv] is the conversion to [T]
    of the promoted intermediate value. *)
Fixpoint read_be_loop (conv : Z -> Z) (i : nat) (result : Z) : M Z :=
  match i with
  | O => ret result
  | S i' =>
      do b <- read_byte;
      read_be_loop conv i' (conv (Z.lor (Z.shiftl result 8) b))
  end.

Definition read_be (conv : Z -> Z) (n : nat) : M Z :=
  match n with
  | 1%nat => (do b <- read_byte; ret (conv b))
  | _ => read_be_loop conv n 0
  end.

(** The written bytes the read cursor has not passed yet. *)
Definition remaining (b : t) : list Z := drop (read_pos_ b) (contents b).

(** The bytes [write_varint_loop] appends, as a list
    ([write_varint_loop_contents] below). *)
Fixpoint varint_bytes (fuel : nat) (uvalue : Z) : list Z :=
  match fuel with
  | O => [Int.to_u8 uvalue]
  | S fuel' =>
      if 0x80 <=? uvalue
      then Int.to_u8 (Z.lor uvalue 0x80) :: varint_bytes fuel' (Z.shiftr uvalue 7)
      else [Int.to_u8 uvalue]
  end.

(** The bytes [write_be] appends ([BufferFacts.write_be_appends]). *)
Fixpoint be_bytes_loop (i : nat) (value : Z) : list Z :=
  match i with
  | O => []
  | S i' => Int.to_u8 (Z.shiftr value (Z.of_nat i' * 8)) :: be_bytes_loop i' value
  end.

Definition be_bytes (n : nat) (value : Z) : list Z :=
  match n with
  | 1%nat => [Int.to_u8 value]
  | _ => be_bytes_loop n value
  end.

(** The representation invariant every constructor establishes and every
    operation keeps. *)
Record wf (b : t) : Prop := {
  wf_capacity : length (data_ b) = capacity_ b;
  wf_size : (size_ b <= capacity_ b)%nat;
  wf_write : write_pos_ b = size_ b;
  wf_read : (read_pos_ b <= size_ b)%nat
}.

(** [f] appends [bytes] to a buffer and leaves its read cursor. *)
Definition appends (f : t -> t) (bytes : list Z) : Prop :=
  forall b, wf b ->
    wf (f b) /\ contents (f b) = contents b ++ bytes
    /\ size_ (f b) = (size_ b + length bytes)%nat
    /\ read_pos_ (f b) = read_pos_ b.

(** [r] decodes [bytes], found at the read cursor, into [v] and moves the
    cursor past them. *)
Definition reads {A} (r : M A) (bytes : list Z) (v : A) : Prop :=
  forall b rest, wf b -> remaining b = bytes ++ rest ->
    r b = (Ok v, advance (length bytes) b).

End Buffer.

(** ** Packets and the packet registry (network/packet_types.hpp) *)

Module ConnectionState.
(** [enum class ConnectionState : i32]; a value of the type is any [i32]. *)
Definition HANDSHAKING : Z := 0.
Definition STATUS : Z := 1.
Definition LOGIN : Z := 2.
Definition PLAY : Z := 3.
End ConnectionState.

Inductive PacketDirection : Set := CLIENTBOUND | SERVERBOUND.

(** The packet classes [PacketManager::PacketManager] registers. *)
Inductive PacketKind : Set :=
| KHandshake | KStatusRequest | KStatusResponse | KPingRequest | KPingResponse
| KLoginStart | KLoginSuccess
| KKeepAlive | KJoinGame | KPlayerPosition | KChunkData | KUnloadChunk
| KUpdateViewPosition | KPlayerPositionAndLook | KBlockChange | KMultiBlockChange.

Module PacketKindOf.

(** [get_state()] of a default-constructed packet. *)
Definition get_state (k : PacketKind) : Z :=
  match k with
  | KHandshake => ConnectionState.HANDSHAKING
  | KStatusRequest | KStatusResponse | KPingRequest | KPingResponse =>
      ConnectionState.STATUS
  | KLoginStart | KLoginSuccess => ConnectionState.LOGIN
  | _ => ConnectionState.PLAY
  end.

(** [get_direction()] of a default-constructed packet; a default
    [KeepAlivePacket] is clientbound. *)
Definition get_direction (k : PacketKind) : PacketDirection :=
  match k with
  | KHandshake | KStatusRequest | KPingRequest | KLoginStart | KPlayerPosition =>
      SERVERBOUND
  | _ => CLIENTBOUND
  end.

(** [get_id()] of a default-constructed packet. *)
Definition get_id (k : PacketKind) : Z :=
  match k with
  | KHandshake => 0x00
  | KStatusRequest => 0x00
  | KStatusResponse => 0x00
  | KPingRequest => 0x01
  | KPingResponse => 0x01
  | KLoginStart => 0x00
  | KLoginSuccess => 0x02
  | KKeepAlive => 0x21
  | KJoinGame => 0x26
  | KPlayerPosition => 0x14
  | KChunkData => 0x24
  | KUnloadChunk => 0x1D
  | KUpdateViewPosition => 0x4E
  | KPlayerPositionAndLook => 0x3C
  | KBlockChange => 0x0C
  | KMultiBlockChange => 0x10
  end.

End PacketKindOf.

Definition direction_eqb (a b : PacketDirection) : bool :=
  match a, b with
  | CLIENTBOUND, CLIENTBOUND | SERVERBOUND, SERVERBOUND => true
  | _, _ => false
  end.

Module PacketManager.

(** [registries_], as the list of its entries, latest first. *)
Definition t : Type := list (Z * PacketDirection * Z * PacketKind).

(** [registries_[state][direction][id] = factory]: a later registration
    under the same key replaces the earlier one. *)
Definition register_packet (k : PacketKind) (m : t) : t :=
  (PacketKindOf.get_state k, PacketKindOf.get_direction k, PacketKindOf.get_id k, k) :: m.

(** [PacketManager::PacketManager()] *)
Definition create : t :=
  fold_left (fun m k => register_packet k m)
    [KHandshake; KStatusRequest; KStatusResponse; KPingRequest; KPingResponse;
     KLoginStart; KLoginSuccess;
     KKeepAlive; KJoinGame; KPlayerPosition; KChunkData; KUnloadChunk;
     KUpdateViewPosition; KPlayerPositionAndLook; KBlockChange; KMultiBlockChange]
    [].

Fixpoint create_packet (m : t) (state : Z) (direction : PacketDirection)
    (packet_id : Z) : option PacketKind :=
  match m with
  | [] => None
  | (s, d, i, k) :: m' =>
      if (s =? state) && direction_eqb d direction && (i =? packet_id)
      then Some k
      else create_packet m' state direction packet_id
  end.

End PacketManager.

(** [g_packet_manager] *)
Definition g_packet_manager : PacketManager.t := PacketManager.create.

(** A decoded packet.  Only the kinds a serverbound lookup can create are
    given a body; [f64] fields are kept as their 64-bit patterns. *)
Inductive Packet : Type :=
| HandshakePacket (protocol_version : Z) (server_address : list Z)
    (server_port : Z) (next_state : Z)
| StatusRequestPacket
| PingRequestPacket (payload : Z)
| LoginStartPacket (username : list Z) (player_uuid : list Z)
| PlayerPositionPacket (x y z : Z) (on_ground : bool).

Module PacketRead.

(** [buffer.read(player_uuid.data(), 16)]: the bytes not delivered keep
    what the array of the new packet held, which C++ leaves unspecified
    and which is zero here. *)
Definition read_uuid : Buffer.M (list Z) := fun b =>
  let (copied, b') := Buffer.read 16 b in
  (Ok (copied ++ repeat 0 (16 - length copied)), b').

(** [Packet::read] of each serverbound kind. *)
Definition read (k : PacketKind) : option (Buffer.M Packet) :=
  match k with
  | KHandshake => Some
      (do protocol_version <- Buffer.read_varint;
       do server_address <- Buffer.read_string;
       do server_port <- Buffer.read_be Int.to_u16 2;
       do next_state <- Buffer.read_varint;
       ret (HandshakePacket protocol_version server_address server_port next_state))%exn
  | KStatusRequest => Some (ret StatusRequestPacket)
  | KPingRequest => Some
      (do payload <- Buffer.read_be Int.to_i64 8; ret (PingRequestPacket payload))%exn
  | KLoginStart => Some
      (do username <- Buffer.read_string;
       do player_uuid <- read_uuid;
       ret (LoginStartPacket username player_uuid))%exn
  | KPlayerPosition => Some
      (do x <- Buffer.read_be Int.to_u64 8;
       do y <- Buffer.read_be Int.to_u64 8;
       do z <- Buffer.read_be Int.to_u64 8;
       do g <- Buffer.read_byte;
       ret (PlayerPositionPacket x y z (negb (g =? 0))))%exn
  | _ => None
  end.

End PacketRead.

(** ** Connections (network/connection.hpp, fixes_and_integration.hpp) *)

Definition MINECRAFT_PROTOCOL_VERSION : Z := 763.

(** What a connection asks of the rest of the server. *)
Record ServerEnv : Type := mkServerEnv {
  online_mode : bool;               (* g_config.is_online_mode() *)
  string_hash : list Z -> Z;        (* std::hash<std::string>, 64 bits *)
  player_online : list Z -> bool    (* g_player_manager.get_player(uuid) != nullptr *)
}.

Module utils.

(** [std::isalnum] in the "C" locale. *)
Definition isalnum (c : Z) : bool :=
  ((48 <=? c) && (c <=? 57)) || ((65 <=? c) && (c <=? 90))
  || ((97 <=? c) && (c <=? 122)).

Definition is_valid_username (username : list Z) : bool :=
  if (length username <? 3)%nat || (16 <? length username)%nat then false
  else forallb (fun c => isalnum c || (c =? 95)) username.

Definition generate_offline_uuid (hasher : list Z -> Z) (username : list Z) : list Z :=
  let offline_string :=
    [79; 102; 102; 108; 105; 110; 101; 80; 108; 97; 121; 101; 114; 58] ++ username in
  let hash := Int.to_u64 (hasher offline_string) in
  let half := map (fun i => Int.to_u8 (Z.shiftr hash (Z.of_nat i * 8))) (seq 0 8) in
  let uuid := half ++ half in
  let uuid := <[6%nat := Z.lor (Z.land (nth 6 uuid 0) 0x0F) 0x30]> uuid in
  <[8%nat := Z.lor (Z.land (nth 8 uuid 0) 0x3F) 0x80]> uuid.

End utils.

(** Packets a connection queues for its client; the JSON text of the
    status response is not modelled. *)
Inductive Outbound : Type :=
| StatusResponsePacket
| PingResponsePacket (payload : Z)
| LoginSuccessPacket (uuid : list Z) (username : list Z).

Module Connection.

Record t : Type := mk {
  state_ : Z;
  read_buffer_ : Buffer.t;
  closed_ : bool;
  profile_username_ : list Z;
  profile_uuid_ : list Z;
  location_ : Z * Z * Z;
  write_queue_ : list Outbound;       (* oldest first *)
  play_init_submitted_ : bool         (* initialize_play_state handed to the pool *)
}.

Definition set_state (s : Z) (c : t) : t :=
  mk s (read_buffer_ c) (closed_ c) (profile_username_ c) (profile_uuid_ c)
     (location_ c) (write_queue_ c) (play_init_submitted_ c).

Definition set_read_buffer (b : Buffer.t) (c : t) : t :=
  mk (state_ c) b (closed_ c) (profile_username_ c) (profile_uuid_ c)
     (location_ c) (write_queue_ c) (play_init_submitted_ c).

Definition set_profile (name uuid : list Z) (c : t) : t :=
  mk (state_ c) (read_buffer_ c) (closed_ c) name uuid
     (location_ c) (write_queue_ c) (play_init_submitted_ c).

Definition set_location (l : Z * Z * Z) (c : t) : t :=
  mk (state_ c) (read_buffer_ c) (closed_ c) (profile_username_ c) (profile_uuid_ c)
     l (write_queue_ c) (play_init_submitted_ c).

Definition submit_play_init (c : t) : t :=
  mk (state_ c) (read_buffer_ c) (closed_ c) (profile_username_ c) (profile_uuid_ c)
     (location_ c) (write_queue_ c) true.

(** [close()]: the flag only ever goes up. *)
Definition close (c : t) : t :=
  mk (state_ c) (read_buffer_ c) true (profile_username_ c) (profile_uuid_ c)
     (location_ c) (write_queue_ c) (play_init_submitted_ c).

Definition send_packet (p : Outbound) (c : t) : t :=
  if closed_ c then c
  else mk (state_ c) (read_buffer_ c) (closed_ c) (profile_username_ c)
          (profile_uuid_ c) (location_ c) (write_queue_ c ++ [p])
          (play_init_submitted_ c).

(** [explicit Connection(tcp::socket&&)]; [junk] is what the block of the
    read buffer holds.  The profile is empty until login (its UUID bytes,
    unspecified in C++, are zero here). *)
Definition create (junk : nat -> Z) : t :=
  {| state_ := ConnectionState.HANDSHAKING;
     read_buffer_ := Buffer.create junk (Z.to_nat 8192);
     closed_ := false;
     profile_username_ := []; profile_uuid_ := repeat 0 16;
     location_ := (0, 0, 0);
     write_queue_ := []; play_init_submitted_ := false |}.

Definition handle_handshake_packet (p : Packet) (c : t) : t :=
  match p with
  | HandshakePacket protocol_version _ _ next_state =>
      if negb (protocol_version =? MINECRAFT_PROTOCOL_VERSION) then close c
      else set_state next_state c
  | _ => c
  end.

Definition handle_status_packet (p : Packet) (c : t) : t :=
  match p with
  | StatusRequestPacket => send_packet StatusResponsePacket c
  | PingRequestPacket payload => close (send_packet (PingResponsePacket payload) c)
  | _ => c
  end.

(** The definition in fixes_and_integration.hpp; the one inside the class
    (connection.hpp) goes to PLAY without the two checks. *)
Definition handle_login_packet (env : ServerEnv) (p : Packet) (c : t) : t :=
  match p with
  | LoginStartPacket username player_uuid =>
      if negb (utils.is_valid_username username) then close c
      else
        let uuid := if online_mode env then player_uuid
                    else utils.generate_offline_uuid (string_hash env) username in
        let c := set_profile username uuid c in
        if player_online env uuid then close c
        else
          let c := send_packet (LoginSuccessPacket uuid username) c in
          submit_play_init (set_state ConnectionState.PLAY c)
  | _ => c
  end.

Definition handle_play_packet (p : Packet) (c : t) : t :=
  match p with
  | PlayerPositionPacket x y z _ => set_location (x, y, z) c
  | _ => c
  end.

(** The [switch] on [state_]: a value that is none of the four
    enumerators runs no handler. *)
Definition handle_packet (env : ServerEnv) (p : Packet) (c : t) : t :=
  if state_ c =? ConnectionState.HANDSHAKING then handle_handshake_packet p c
  else if state_ c =? ConnectionState.STATUS then handle_status_packet p c
  else if state_ c =? ConnectionState.LOGIN then handle_login_packet env p c
  else if state_ c =? ConnectionState.PLAY then handle_play_packet p c
  else c.

(** [process_packet]: the outcome is [Throw] when a read of the frame
    throws. *)
Definition process_packet (env : ServerEnv) (packet_buffer : Buffer.t) (c : t)
    : result unit * t :=
  match Buffer.read_varint packet_buffer with
  | (Throw e, _) => (Throw e, c)
  | (Ok packet_id, packet_buffer) =>
      match PacketManager.create_packet g_packet_manager (state_ c) SERVERBOUND packet_id with
      | None => (Ok tt, c)
      | Some k =>
          match PacketRead.read k with
          | None => (Ok tt, c)
          | Some rd =>
              match rd packet_buffer with
              | (Throw e, _) => (Throw e, c)
              | (Ok packet, _) => (Ok tt, handle_packet env packet c)
              end
          end
      end
  end.

(** One round of the [while] loop of [handle_read]. *)
Inductive round : Type :=
| Await (c : t)                              (* [break]: the frame is not complete *)
| Failed (c : t)                             (* [catch]: [close(); return;] *)
| Consumed (packet_data : Buffer.t) (c : t). (* [process_packet(packet_data)] returned *)

Definition frame_round (env : ServerEnv) (c : t) : round :=
  let initial_pos := Buffer.size (read_buffer_ c) in
  match Buffer.read_varint (read_buffer_ c) with
  | (Throw _, rb) => Failed (close (set_read_buffer rb c))
  | (Ok packet_length, rb) =>
      let c := set_read_buffer rb c in
      if Z.of_nat (Buffer.readable rb) <? Int.to_size_t packet_length then Await c
      else
        let packet_data :=
          Buffer.view (drop initial_pos (Buffer.data rb)) (Z.to_nat packet_length) in
        match process_packet env packet_data c with
        | (Throw _, c) => Failed (close c)
        | (Ok _, c) => Consumed packet_data c
        end
  end.

(** The [while (read_buffer_.readable() > 0)] loop.  Every round that
    goes on has read at least the one byte of a length prefix, so
    [readable + 1] rounds of fuel never run out. *)
Fixpoint frame_loop (fuel : nat) (env : ServerEnv) (c : t) : t :=
  match fuel with
  | O => c
  | S fuel' =>
      if (0 <? Buffer.readable (read_buffer_ c))%nat then
        match frame_round env c with
        | Await c => c
        | Failed c => c
        | Consumed _ c => frame_loop fuel' env c
        end
      else c
  end.

(** [handle_read]: [bytes] is what the socket delivered. *)
Definition handle_read (junk : nat -> Z) (env : ServerEnv) (bytes : list Z) (c : t) : t :=
  let c := set_read_buffer (Buffer.write junk bytes (read_buffer_ c)) c in
  frame_loop (S (Buffer.readable (read_buffer_ c))) env c.

End Connection.

(** ** Blocks, sections and chunks (world/block.hpp, world/chunk.hpp) *)

Record ChunkPos : Type := mkChunkPos { chunk_x : Z; chunk_z : Z }.

#[global] Instance ChunkPos_eq_dec : EqDecision ChunkPos.
Proof. solve_decision. Defined.

#[global] Program Instance ChunkPos_countable : Countable ChunkPos :=
  inj_countable' (fun p => (chunk_x p, chunk_z p))
                 (fun xz => mkChunkPos (fst xz) (snd xz)) _.
Next Obligation. intros [x z]. reflexivity. Qed.

Module world.

Definition AIR : Z := 0.
Definition STONE : Z := 1.
Definition GRASS_BLOCK : Z := 2.
Definition DIRT : Z := 3.
Definition BEDROCK : Z := 7.

Definition CHUNK_SIZE : Z := 16.
Definition WORLD_MIN_Y : Z := -64.
Definition WORLD_MAX_Y : Z := 320.
Definition SECTIONS_PER_CHUNK : Z := Z.quot (WORLD_MAX_Y - WORLD_MIN_Y) 16.

(** [struct Block]: its [id]; [Block()] is [AIR]. *)
Definition Block : Type := Z.
Definition is_air (b : Block) : bool := b =? AIR.

End world.

Module ChunkSection.
Import world.

Definition SECTION_SIZE : Z := 16.
Definition BLOCKS_PER_SECTION : Z := SECTION_SIZE * SECTION_SIZE * SECTION_SIZE.

Record t : Type := mk {
  blocks : list Block;        (* BLOCKS_PER_SECTION of them *)
  block_light : list Z;       (* BLOCKS_PER_SECTION / 2 bytes *)
  sky_light : list Z;         (* BLOCKS_PER_SECTION / 2 bytes *)
  block_count : Z             (* i16 *)
}.

(** [ChunkSection()] *)
Definition create : t :=
  {| blocks := repeat AIR (Z.to_nat BLOCKS_PER_SECTION);
     block_light := repeat 0 (Z.to_nat (BLOCKS_PER_SECTION / 2));
     sky_light := repeat 0xFF (Z.to_nat (BLOCKS_PER_SECTION / 2));
     block_count := 0 |}.

Definition index_of (x y z : Z) : Z :=
  Int.to_i32 ((y * SECTION_SIZE + z) * SECTION_SIZE + x).

Definition in_range (index : Z) : bool :=
  (0 <=? index) && (index <? BLOCKS_PER_SECTION).

Definition get_block (s : t) (x y z : Z) : Block :=
  let index := index_of x y z in
  if in_range index then nth (Z.to_nat index) (blocks s) AIR else AIR.

Definition set_block (x y z : Z) (block : Block) (s : t) : t :=
  let index := index_of x y z in
  if in_range index then
    let old_block := nth (Z.to_nat index) (blocks s) AIR in
    let count :=
      if is_air old_block && negb (is_air block)
      then Int.to_i16 (block_count s + 1)
      else if negb (is_air old_block) && is_air block
           then Int.to_i16 (block_count s - 1)
           else block_count s in
    {| blocks := <[Z.to_nat index := block]> (blocks s);
       block_light := block_light s; sky_light := sky_light s;
       block_count := count |}
  else s.

(** The nibble of sample [index] in a packed light array. *)
Definition get_nibble (arr : list Z) (index : Z) : Z :=
  let byte_idx := Z.quot index 2 in
  let upper := Z.rem index 2 =? 1 in
  let byte := nth (Z.to_nat byte_idx) arr 0 in
  if upper then Z.shiftr byte 4 else Z.land byte 0xF.

Definition set_nibble (arr : list Z) (index : Z) (light : Z) : list Z :=
  let byte_idx := Z.quot index 2 in
  let upper := Z.rem index 2 =? 1 in
  let light := Z.land light 0xF in
  let byte := nth (Z.to_nat byte_idx) arr 0 in
  if upper
  then <[Z.to_nat byte_idx := Int.to_u8 (Z.lor (Z.land byte 0x0F) (Z.shiftl light 4))]> arr
  else <[Z.to_nat byte_idx := Int.to_u8 (Z.lor (Z.land byte 0xF0) light)]> arr.

Definition get_block_light (s : t) (x y z : Z) : Z :=
  let index := index_of x y z in
  if negb (in_range index) then 0 else get_nibble (block_light s) index.

Definition set_block_light (x y z : Z) (light : Z) (s : t) : t :=
  let index := index_of x y z in
  if negb (in_range index) then s
  else {| blocks := blocks s;
          block_light := set_nibble (block_light s) index light;
          sky_light := sky_light s; block_count := block_count s |}.

Definition get_sky_light (s : t) (x y z : Z) : Z :=
  let index := index_of x y z in
  if negb (in_range index) then 0 else get_nibble (sky_light s) index.

Definition set_sky_light (x y z : Z) (light : Z) (s : t) : t :=
  let index := index_of x y z in
  if negb (in_range index) then s
  else {| blocks := blocks s; block_light := block_light s;
          sky_light := set_nibble (sky_light s) index light;
          block_count := block_count s |}.

Definition is_empty (s : t) : bool := block_count s =? 0.

End ChunkSection.

Module Chunk.
Import world.

Record t : Type := mk {
  position_ : ChunkPos;
  sections_ : list (option ChunkSection.t);   (* SECTIONS_PER_CHUNK entries *)
  loaded_ : bool;
  dirty_ : bool;
  last_access_ : Z
}.

(** [explicit Chunk(const ChunkPos&)], at time [now]. *)
Definition create (now : Z) (pos : ChunkPos) : t :=
  {| position_ := pos;
     sections_ := repeat None (Z.to_nat SECTIONS_PER_CHUNK);
     loaded_ := false; dirty_ := false; last_access_ := now |}.

Definition get_position (c : t) : ChunkPos := position_ c.
Definition is_loaded (c : t) : bool := loaded_ c.
Definition is_dirty (c : t) : bool := dirty_ c.
Definition get_last_access (c : t) : Z := last_access_ c.

Definition set_loaded (v : bool) (c : t) : t :=
  mk (position_ c) (sections_ c) v (dirty_ c) (last_access_ c).
Definition set_dirty (v : bool) (c : t) : t :=
  mk (position_ c) (sections_ c) (loaded_ c) v (last_access_ c).
Definition touch (now : Z) (c : t) : t :=
  mk (position_ c) (sections_ c) (loaded_ c) (dirty_ c) now.
Definition set_sections (l : list (option ChunkSection.t)) (c : t) : t :=
  mk (position_ c) l (loaded_ c) (dirty_ c) (last_access_ c).

(** [(y - WORLD_MIN_Y) / 16]: the division of C++ rounds towards zero. *)
Definition get_section_index (y : Z) : Z :=
  Z.quot (Int.to_i32 (y - WORLD_MIN_Y)) 16.

Definition valid_index (section_idx : Z) : bool :=
  negb ((section_idx <? 0) || (SECTIONS_PER_CHUNK <=? section_idx)).

Definition section_at (c : t) (section_idx : Z) : option ChunkSection.t :=
  nth (Z.to_nat section_idx) (sections_ c) None.

Definition local_y (y section_idx : Z) : Z :=
  Int.to_i32 (y - (section_idx * 16 + WORLD_MIN_Y)).

(** [get_or_create_section]: the section, allocated on first use, and the
    chunk that now holds it; nothing outside the 24 sections. *)
Definition get_or_create_section (section_idx : Z) (c : t)
    : option (ChunkSection.t * t) :=
  if negb (valid_index section_idx) then None
  else match section_at c section_idx with
       | Some s => Some (s, c)
       | None =>
           Some (ChunkSection.create,
                 set_sections (<[Z.to_nat section_idx := Some ChunkSection.create]>
                                 (sections_ c)) c)
       end.

Definition store_section (section_idx : Z) (s : ChunkSection.t) (c : t) : t :=
  set_sections (<[Z.to_nat section_idx := Some s]> (sections_ c)) c.

Definition get_block (c : t) (x y z : Z) : Block :=
  let section_idx := get_section_index y in
  if negb (valid_index section_idx) then AIR
  else match section_at c section_idx with
       | None => AIR
       | Some s => ChunkSection.get_block s x (local_y y section_idx) z
       end.

Definition set_block (now : Z) (x y z : Z) (block : Block) (c : t) : t :=
  let section_idx := get_section_index y in
  match get_or_create_section section_idx c with
  | None => c
  | Some (s, c) =>
      let s := ChunkSection.set_block x (local_y y section_idx) z block s in
      touch now (set_dirty true (store_section section_idx s c))
  end.

Definition get_block_light (c : t) (x y z : Z) : Z :=
  let section_idx := get_section_index y in
  if negb (valid_index section_idx) then 0
  else match section_at c section_idx with
       | None => 0
       | Some s => ChunkSection.get_block_light s x (local_y y section_idx) z
       end.

Definition set_block_light (x y z : Z) (light : Z) (c : t) : t :=
  let section_idx := get_section_index y in
  match get_or_create_section section_idx c with
  | None => c
  | Some (s, c) =>
      let s := ChunkSection.set_block_light x (local_y y section_idx) z light s in
      set_dirty true (store_section section_idx s c)
  end.

Definition get_sky_light (c : t) (x y z : Z) : Z :=
  let section_idx := get_section_index y in
  if negb (valid_index section_idx) then 0
  else match section_at c section_idx with
       | None => 15
       | Some s => ChunkSection.get_sky_light s x (local_y y section_idx) z
       end.

Definition set_sky_light (x y z : Z) (light : Z) (c : t) : t :=
  let section_idx := get_section_index y in
  match get_or_create_section section_idx c with
  | None => c
  | Some (s, c) =>
      let s := ChunkSection.set_sky_light x (local_y y section_idx) z light s in
      set_dirty true (store_section section_idx s c)
  end.

Definition get_sections (c : t) : list (option ChunkSection.t) := sections_ c.

End Chunk.

(** The shape every chunk the program builds has, and the positions
    inside a chunk. *)
Module ChunkShape.
Import world.

Definition wf_section (s : ChunkSection.t) : Prop :=
  length (ChunkSection.blocks s) = Z.to_nat ChunkSection.BLOCKS_PER_SECTION.

Definition wf_chunk (c : Chunk.t) : Prop :=
  length (Chunk.sections_ c) = Z.to_nat SECTIONS_PER_CHUNK
  /\ forall i s, Chunk.sections_ c !! i = Some (Some s) -> wf_section s.

Definition valid_xz (v : Z) : Prop := 0 <= v < 16.
Definition valid_y (y : Z) : Prop := WORLD_MIN_Y <= y < WORLD_MAX_Y.

(** The light arrays of every section have their 2048 bytes. *)
Definition full_light (c : Chunk.t) : Prop :=
  forall s, Some s ∈ Chunk.sections_ c ->
    length (ChunkSection.block_light s) = Z.to_nat 2048
    /\ length (ChunkSection.sky_light s) = Z.to_nat 2048.

End ChunkShape.

(** ** Region-file persistence (world/world_persistence.hpp) *)

Module WorldPersistence.
Import world.

(** [struct RegionFile], with the bytes of the open stream.  A region
    file is taken as already opened by [get_region_file], with its stream
    in the good state; the lookup of the file by name is not part of the
    model.  The stream is good when the file had its 8192 bytes of header
    as [get_region_file] read them, and no read has run past its end
    since: on a shorter file the first [load_region_header] leaves the
    stream failed, and every later [seekp], [write] and [read] does
    nothing. *)
Record RegionFile : Type := mkRegionFile {
  file : list Z;
  is_open : bool;
  locations : list Z;       (* 1024 u32 *)
  timestamps : list Z;      (* 1024 u32 *)
  dirty : bool
}.

Definition get_region_coords (chunk_pos : ChunkPos) : Z * Z :=
  (Z.shiftr (chunk_x chunk_pos) 5, Z.shiftr (chunk_z chunk_pos) 5).

Definition get_local_chunk_coords (chunk_pos : ChunkPos) : Z * Z :=
  (Z.land (chunk_x chunk_pos) 31, Z.land (chunk_z chunk_pos) 31).

(** Stream semantics: a write at [pos] overwrites and extends; a read of
    [n] bytes at [pos] into a zeroed vector delivers what the file has. *)
Definition file_write_at (pos : nat) (bytes : list Z) (f : list Z) : list Z :=
  take pos f ++ bytes ++ drop (pos + length bytes) f.

Definition file_read_at (pos n : nat) (f : list Z) : list Z :=
  let got := take n (drop pos f) in
  got ++ repeat 0 (n - length got).

(** The four bytes of a [u32], most significant first. *)
Definition be32 (v : Z) : list Z :=
  [Int.to_u8 (Z.shiftr v 24); Int.to_u8 (Z.shiftr v 16);
   Int.to_u8 (Z.shiftr v 8); Int.to_u8 v].

(** [save_region_header]: both tables, big-endian, at offset 0. *)
Definition save_region_header (r : RegionFile) : RegionFile :=
  let header := flat_map be32 (locations r) ++ flat_map be32 (timestamps r) in
  mkRegionFile (file_write_at 0 header (file r)) (is_open r)
    (locations r) (timestamps r) (dirty r).

(** [be32toh]: the four bytes of a [u32] in reverse order. *)
Definition be32toh (value : Z) : Z :=
  Z.lor (Z.lor (Z.lor (Z.shiftr (Z.land value 0xFF000000) 24)
                      (Z.shiftr (Z.land value 0x00FF0000) 8))
               (Int.to_u32 (Z.shiftl (Z.land value 0x0000FF00) 8)))
        (Int.to_u32 (Z.shiftl (Z.land value 0x000000FF) 24)).

Definition htobe32 (value : Z) : Z := be32toh value.

(** The bytes a [u32] occupies in memory, and the [u32] that four bytes of
    memory hold, on a little-endian host. *)
Definition u32_bytes (v : Z) : list Z :=
  [Int.to_u8 v; Int.to_u8 (Z.shiftr v 8); Int.to_u8 (Z.shiftr v 16);
   Int.to_u8 (Z.shiftr v 24)].




(** The coordinates [(x, y, z)] of the [i]-th block of a section. *)
Definition block_coords (i : Z) : Z * Z * Z :=
  (i mod 16, (i / 256) mod 16, (i / 16) mod 16).

Definition serialize_section (junk : nat -> Z) (section : option ChunkSection.t)
    (buffer : Buffer.t) : Buffer.t :=
  match section with
  | None => Buffer.write_byte junk 0 buffer
  | Some s =>
      let buffer := Buffer.write_byte junk 1 buffer in
      let buffer := Buffer.write_be junk 2 (ChunkSection.block_count s) buffer in
      let buffer :=
        fold_left
          (fun buffer i =>
             let '(x, y, z) := block_coords i in
             Buffer.write_be junk 2 (ChunkSection.get_block s x y z) buffer)
          (seqZ 0 ChunkSection.BLOCKS_PER_SECTION) buffer in
      let buffer := Buffer.write junk (ChunkSection.block_light s) buffer in
      Buffer.write junk (ChunkSection.sky_light s) buffer
  end.

Definition serialize_chunk (junk : nat -> Z) (chunk : Chunk.t) (buffer : Buffer.t)
    : Buffer.t :=
  let sections := Chunk.get_sections chunk in
  let buffer := Buffer.write_be junk 4 (Int.to_i32 (Z.of_nat (length sections))) buffer in
  fold_left (fun buffer section => serialize_section junk section buffer)
    sections buffer.

(** [buffer.read(dest, len)] into an array that held [old]. *)
Definition read_into (old : list Z) : Buffer.M (list Z) := fun b =>
  let (copied, b') := Buffer.read (length old) b in
  (Ok (copied ++ drop (length copied) old), b').

(** The 4096 [read_be<u16>] / [set_block] pairs of one section. *)
Fixpoint read_blocks (indices : list Z) (section : ChunkSection.t)
    : Buffer.M ChunkSection.t :=
  match indices with
  | [] => ret section
  | i :: indices' =>
      (do block_id <- Buffer.read_be Int.to_u16 2;
       let '(x, y, z) := block_coords i in
       read_blocks indices' (ChunkSection.set_block x y z block_id section))%exn
  end.

(** The section one round of the loop of [deserialize_chunk] builds. *)
Definition read_section : Buffer.M ChunkSection.t :=
  (do block_count <- Buffer.read_be Int.to_i16 2;
   let section := ChunkSection.create in
   let section := ChunkSection.mk (ChunkSection.blocks section)
                    (ChunkSection.block_light section)
                    (ChunkSection.sky_light section) block_count in
   do section <- read_blocks (seqZ 0 ChunkSection.BLOCKS_PER_SECTION) section;
   do block_light <- read_into (ChunkSection.block_light section);
   do sky_light <- read_into (ChunkSection.sky_light section);
   ret (ChunkSection.mk (ChunkSection.blocks section) block_light sky_light
          (ChunkSection.block_count section)))%exn.

(** The [for (s < section_count)] loop of [deserialize_chunk].  The
    section each round builds is local to the round: nothing stores it in
    [chunk].  Every round reads a byte first, so [readable + 1] rounds of
    fuel never run out before the buffer does. *)
Fixpoint deserialize_sections (fuel : nat) (s section_count : Z) (chunk : Chunk.t)
    : Buffer.M Chunk.t :=
  match fuel with
  | O => throw BufferUnderflow
  | S fuel' =>
      if s <? section_count then
        (do has_section <- Buffer.read_byte;
         if has_section =? 0 then deserialize_sections fuel' (s + 1) section_count chunk
         else
           do _section <- read_section;
           deserialize_sections fuel' (s + 1) section_count chunk)%exn
      else ret chunk
  end.

Definition deserialize_chunk (now : Z) (chunk_pos : ChunkPos) : Buffer.M Chunk.t :=
  (let chunk := Chunk.create now chunk_pos in
   do section_count <- Buffer.read_be Int.to_i32 4;
   fun buffer =>
     (do chunk <- deserialize_sections (S (Buffer.readable buffer)) 0 section_count chunk;
      ret (Chunk.set_dirty false (Chunk.set_loaded true chunk))) buffer)%exn.

(** [save_chunk] on the region file of the chunk; [clock] is the second
    count written to the timestamp table. *)
Definition save_chunk (junk : nat -> Z) (clock : Z) (r : RegionFile)
    (chunk : option Chunk.t) : bool * RegionFile * option Chunk.t :=
  match chunk with
  | None => (true, r, chunk)
  | Some c =>
      if negb (Chunk.is_dirty c) then (true, r, chunk)
      else if negb (is_open r) then (false, r, chunk)
      else
        let '(local_x, local_z) := get_local_chunk_coords (Chunk.get_position c) in
        let chunk_data := serialize_chunk junk c (Buffer.create junk (Z.to_nat 65536)) in
        let chunk_index := Z.to_nat (local_z * 32 + local_x) in
        let size := Z.of_nat (Buffer.size chunk_data) in
        let end_pos := length (file r) in
        let sector_offset := Int.to_u32 (Z.of_nat end_pos) / 4096 in
        let sector_count := Int.to_u32 ((size + 4095) / 4096) in
        let padding := ((4096 - size mod 4096) mod 4096) in
        let f := file r ++ Buffer.contents chunk_data ++ repeat 0 (Z.to_nat padding) in
        let location :=
          Int.to_u32 (Z.lor (Z.shiftl sector_offset 8) (Z.land sector_count 0xFF)) in
        let r := mkRegionFile f (is_open r)
                   (<[chunk_index := location]> (locations r))
                   (<[chunk_index := Int.to_u32 clock]> (timestamps r))
                   true in
        (true, save_region_header r, Some (Chunk.set_dirty false c))
  end.

(** [load_chunk] on the region file of the coordinate; an exception of
    the decoder is caught and gives [nullptr]. *)
Definition load_chunk (now : Z) (r : RegionFile) (chunk_pos : ChunkPos)
    : option Chunk.t :=
  if negb (is_open r) then None
  else
    let '(local_x, local_z) := get_local_chunk_coords chunk_pos in
    let chunk_index := Z.to_nat (local_z * 32 + local_x) in
    let location := nth chunk_index (locations r) 0 in
    if location =? 0 then None
    else
      let sector_offset := Z.land (Z.shiftr location 8) 0xFFFFFF in
      let sector_count := Z.land location 0xFF in
      if (sector_offset =? 0) || (sector_count =? 0) then None
      else
        let n := Z.to_nat (Int.to_u32 (sector_count * 4096)) in
        let chunk_data :=
          file_read_at (Z.to_nat (Int.to_u32 (sector_offset * 4096))) n (file r) in
        match deserialize_chunk now chunk_pos (Buffer.view chunk_data n) with
        | (Ok chunk, _) => Some chunk
        | (Throw _, _) => None
        end.

(** The bytes [serialize_section] and [serialize_chunk] append
    ([CodecFacts.serialize_chunk_appends]). *)
Definition section_bytes (section : option ChunkSection.t) : list Z :=
  match section with
  | None => [0]
  | Some s =>
      [1] ++ Buffer.be_bytes 2 (ChunkSection.block_count s)
      ++ flat_map (fun i => let '(x, y, z) := block_coords i in
                            Buffer.be_bytes 2 (ChunkSection.get_block s x y z))
           (seqZ 0 ChunkSection.BLOCKS_PER_SECTION)
      ++ ChunkSection.block_light s ++ ChunkSection.sky_light s
  end.

Definition chunk_bytes (chunk : Chunk.t) : list Z :=
  Buffer.be_bytes 4 (Int.to_i32 (Z.of_nat (length (Chunk.get_sections chunk))))
  ++ flat_map section_bytes (Chunk.get_sections chunk).

(** "A location of zero means not stored." *)
Definition stored_on_disk (r : RegionFile) (chunk_pos : ChunkPos) : bool :=
  let '(local_x, local_z) := get_local_chunk_coords chunk_pos in
  negb (nth (Z.to_nat (local_z * 32 + local_x)) (locations r) 0 =? 0).

End WorldPersistence.

(** A region file as a save expects it: open, made of whole sectors of
    which the two of the header are there, both tables complete. *)
Definition sound_region (r : WorldPersistence.RegionFile) : Prop :=
  WorldPersistence.is_open r = true
  /\ (exists sectors, 2 <= sectors < 2 ^ 20
       /\ Z.of_nat (length (WorldPersistence.file r)) = sectors * 4096)
  /\ length (WorldPersistence.locations r) = Z.to_nat 1024
  /\ length (WorldPersistence.timestamps r) = Z.to_nat 1024.

(** ** The chunk store (world/chunk.hpp) *)

(** A task handed to [g_thread_pool]: the lambda of
    [ChunkManager::load_chunk], which captures the coordinate and nothing
    of the persistence layer.  What a worker does with it is not
    embedded (its first call, [generate_flat_world], locks a mutex
    twice). *)
Inductive Job : Type :=
| GenerateChunk (pos : ChunkPos).

Module ChunkManager.

Record t : Type := mk {
  loaded_chunks_ : gmap ChunkPos Chunk.t;
  pending_chunks_ : gset ChunkPos;
  max_loaded_chunks_ : nat;
  auto_unload_enabled_ : bool;
  chunk_timeout_ms_ : Z
}.

(** [ChunkManager() = default] *)
Definition create : t :=
  {| loaded_chunks_ := ∅; pending_chunks_ := ∅; max_loaded_chunks_ := 256;
     auto_unload_enabled_ := true; chunk_timeout_ms_ := 300000 |}.

Definition set_loaded_chunks (l : gmap ChunkPos Chunk.t) (m : t) : t :=
  mk l (pending_chunks_ m) (max_loaded_chunks_ m) (auto_unload_enabled_ m)
     (chunk_timeout_ms_ m).

Definition set_pending_chunks (p : gset ChunkPos) (m : t) : t :=
  mk (loaded_chunks_ m) p (max_loaded_chunks_ m) (auto_unload_enabled_ m)
     (chunk_timeout_ms_ m).

Definition get_chunk (now : Z) (pos : ChunkPos) (m : t) : option Chunk.t * t :=
  match loaded_chunks_ m !! pos with
  | Some c =>
      let c := Chunk.touch now c in
      (Some c, set_loaded_chunks (<[pos := c]> (loaded_chunks_ m)) m)
  | None => (None, m)
  end.

(** [load_chunk]: the chunk if it is loaded; otherwise nothing, and, unless
    the coordinate is pending already, a job for the pool. *)
Definition load_chunk (now : Z) (pos : ChunkPos) (m : t)
    : option Chunk.t * t * option Job :=
  match loaded_chunks_ m !! pos with
  | Some c =>
      let c := Chunk.touch now c in
      (Some c, set_loaded_chunks (<[pos := c]> (loaded_chunks_ m)) m, None)
  | None =>
      if decide (pos ∈ pending_chunks_ m) then (None, m, None)
      else (None, set_pending_chunks ({[pos]} ∪ pending_chunks_ m) m,
            Some (GenerateChunk pos))
  end.

(** The persist task [unload_chunk] submits for a dirty chunk has an empty
    body, so only the removal is left. *)
Definition unload_chunk (pos : ChunkPos) (m : t) : t :=
  set_loaded_chunks (delete pos (loaded_chunks_ m)) m.

Definition cleanup_old_chunks (now : Z) (m : t) : t :=
  if negb (auto_unload_enabled_ m) then m
  else if (size (loaded_chunks_ m) <=? max_loaded_chunks_ m)%nat then m
  else
    let to_unload :=
      map fst (List.filter (fun pc => chunk_timeout_ms_ m <? now - Chunk.get_last_access (snd pc))
                 (map_to_list (loaded_chunks_ m))) in
    fold_left (fun m pos => unload_chunk pos m) to_unload m.

(** The definition of [ChunkManager::load_chunk] in
    minecraft_server_complete.cpp, the one that asks the persistence
    layer first. *)
Definition load_chunk_integration (now : Z) (disk : WorldPersistence.RegionFile)
    (pos : ChunkPos) (m : t) : option Chunk.t * t * option Job :=
  match loaded_chunks_ m !! pos with
  | Some c =>
      let c := Chunk.touch now c in
      (Some c, set_loaded_chunks (<[pos := c]> (loaded_chunks_ m)) m, None)
  | None =>
      if decide (pos ∈ pending_chunks_ m) then (None, m, None)
      else
        let m := set_pending_chunks ({[pos]} ∪ pending_chunks_ m) m in
        match WorldPersistence.load_chunk now disk pos with
        | Some saved_chunk =>
            let m := set_loaded_chunks (<[pos := saved_chunk]> (loaded_chunks_ m)) m in
            (Some saved_chunk, set_pending_chunks (pending_chunks_ m ∖ {[pos]}) m, None)
        | None => (None, m, Some (GenerateChunk pos))
        end
  end.

End ChunkManager.

(** ** Player sessions and the player registry (entity/entity.hpp) *)

(** Packets of the chunk view that a session queues and lives on. *)
Inductive ChunkViewPacket : Type :=
| UnloadChunkPacket (pos : ChunkPos).

Module Player.

(** A session.  The [f64] location is kept as the [i32] block coordinates
    its conversion gives, which is all the chunk view reads of it; the
    connection is a handle. *)
Record t : Type := mk {
  connection_ : option nat;
  profile_uuid_ : list Z;
  profile_username_ : list Z;
  entity_id_ : Z;
  block_x_ : Z;
  block_z_ : Z;
  view_distance_ : Z;
  loaded_chunks_ : gset ChunkPos;
  online_ : bool
}.

(** [Player(connection, profile, entity_id)] *)
Definition create (connection : option nat) (uuid username : list Z) (entity_id : Z) : t :=
  {| connection_ := connection; profile_uuid_ := uuid; profile_username_ := username;
     entity_id_ := entity_id; block_x_ := 0; block_z_ := 0;
     view_distance_ := 10; loaded_chunks_ := ∅; online_ := true |}.

Definition set_loaded_chunks (l : gset ChunkPos) (p : t) : t :=
  mk (connection_ p) (profile_uuid_ p) (profile_username_ p) (entity_id_ p)
     (block_x_ p) (block_z_ p) (view_distance_ p) l (online_ p).

Definition set_location (bx bz : Z) (p : t) : t :=
  mk (connection_ p) (profile_uuid_ p) (profile_username_ p) (entity_id_ p)
     bx bz (view_distance_ p) (loaded_chunks_ p) (online_ p).

(** [std::clamp(distance, 2, 32)] *)
Definition set_view_distance (distance : Z) (p : t) : t :=
  mk (connection_ p) (profile_uuid_ p) (profile_username_ p) (entity_id_ p)
     (block_x_ p) (block_z_ p) (Z.max 2 (Z.min distance 32)) (loaded_chunks_ p)
     (online_ p).

(** [get_location().toChunkPos()] *)
Definition get_chunk_pos (p : t) : ChunkPos :=
  mkChunkPos (Z.shiftr (block_x_ p) 4) (Z.shiftr (block_z_ p) 4).

Definition is_online (is_closed : nat -> bool) (p : t) : bool :=
  online_ p && match connection_ p with
               | Some c => negb (is_closed c)
               | None => false
               end.

(** The values [d] of [for (i32 d = -r; d <= r; ++d)]. *)
Definition offsets (r : Z) : list Z :=
  let first := Int.to_i32 (- r) in seqZ first (r - first + 1).

(** The two nested loops that fill [needed_chunks]. *)
Definition needed_chunks (player_chunk : ChunkPos) (view_distance : Z) : gset ChunkPos :=
  fold_left
    (fun needed dx =>
       fold_left
         (fun needed dz =>
            if Int.to_i32 (Int.to_i32 (dx * dx) + Int.to_i32 (dz * dz))
               <=? Int.to_i32 (view_distance * view_distance)
            then {[mkChunkPos (Int.to_i32 (chunk_x player_chunk + dx))
                              (Int.to_i32 (chunk_z player_chunk + dz))]} ∪ needed
            else needed)
         (offsets view_distance) needed)
    (offsets view_distance) ∅.

(** [update_loaded_chunks] as defined in the class: the erase loop, then
    the insert loop, which asks the chunk store for each new coordinate.
    The sets are walked in the order [elements] gives. *)
Definition update_loaded_chunks (now : Z) (p : t) (m : ChunkManager.t)
    : t * ChunkManager.t * list Job :=
  let needed := needed_chunks (get_chunk_pos p) (view_distance_ p) in
  let loaded :=
    fold_left (fun loaded pos => if decide (pos ∈ needed) then loaded
                                 else loaded ∖ {[pos]})
      (elements (loaded_chunks_ p)) (loaded_chunks_ p) in
  let '(loaded, m, jobs) :=
    fold_left
      (fun '(loaded, m, jobs) pos =>
         if decide (pos ∈ loaded) then (loaded, m, jobs)
         else
           let '(_, m, job) := ChunkManager.load_chunk now pos m in
           ({[pos]} ∪ loaded, m, jobs ++ option_list job))
      (elements needed) (loaded, m, []) in
  (set_loaded_chunks loaded p, m, jobs).

(** One round of the load loop of [update_loaded_chunks] as defined in
    fixes_and_integration.hpp.  When the store has the chunk, marked
    loaded, and the connection is open, the round calls
    [Connection::send_chunk_data], which moves its packet into
    [send_packet] and then reads [chunk_packet->chunk_data] through the
    pointer it has moved from: the process dies there, [None]. *)
Definition load_round (now : Z) (open : bool)
    (st : option (gset ChunkPos * ChunkManager.t * list Job)) (pos : ChunkPos)
    : option (gset ChunkPos * ChunkManager.t * list Job) :=
  match st with
  | None => None
  | Some (loaded, m, jobs) =>
      let loaded := {[pos]} ∪ loaded in
      let '(chunk, m) := ChunkManager.get_chunk now pos m in
      let '(chunk, m, job) :=
        match chunk with
        | Some c => (Some c, m, None)
        | None => ChunkManager.load_chunk now pos m
        end in
      let sends :=
        match chunk with
        | Some c => Chunk.is_loaded c && open
        | None => false
        end in
      if sends then None else Some (loaded, m, jobs ++ option_list job)
  end.

(** [update_loaded_chunks] as defined in fixes_and_integration.hpp, which
    also tells the client; [open] says that the session has a connection
    and that it is not closed.  [None]: the process died in the load
    loop. *)
Definition update_loaded_chunks_integration (now : Z) (open : bool) (p : t)
    (m : ChunkManager.t)
    : option (t * ChunkManager.t * list Job * list ChunkViewPacket) :=
  let needed := needed_chunks (get_chunk_pos p) (view_distance_ p) in
  let to_unload :=
    List.filter (fun pos => bool_decide (pos ∉ needed)) (elements (loaded_chunks_ p)) in
  let '(loaded, packets) :=
    fold_left
      (fun '(loaded, packets) pos =>
         (loaded ∖ {[pos]},
          if open then packets ++ [UnloadChunkPacket pos] else packets))
      to_unload (loaded_chunks_ p, []) in
  let to_load :=
    List.filter (fun pos => bool_decide (pos ∉ loaded)) (elements needed) in
  match fold_left (load_round now open) to_load (Some (loaded, m, [])) with
  | None => None
  | Some (loaded, m, jobs) => Some (set_loaded_chunks loaded p, m, jobs, packets)
  end.

End Player.

Module PlayerManager.

(** The registry.  A [PlayerPtr] is an address in [heap_]; the three maps
    hold addresses, so they share the sessions. *)
Record t : Type := mk {
  heap_ : gmap nat Player.t;
  players_by_uuid_ : gmap (list Z) nat;
  players_by_name_ : gmap (list Z) nat;
  players_by_entity_id_ : gmap Z nat;
  next_entity_id_ : Z
}.

(** [PlayerManager]: [next_entity_id_{1}] *)
Definition create : t :=
  {| heap_ := ∅; players_by_uuid_ := ∅; players_by_name_ := ∅;
     players_by_entity_id_ := ∅; next_entity_id_ := 1 |}.

(** [std::make_shared<Player>(...)]: a fresh address. *)
Definition make_shared (p : Player.t) (m : t) : nat * t :=
  let addr := fresh (dom (heap_ m)) in
  (addr, mk (<[addr := p]> (heap_ m)) (players_by_uuid_ m) (players_by_name_ m)
            (players_by_entity_id_ m) (next_entity_id_ m)).

(** [next_entity_id_.fetch_add(1)] *)
Definition get_next_entity_id (m : t) : Z * t :=
  (next_entity_id_ m,
   mk (heap_ m) (players_by_uuid_ m) (players_by_name_ m) (players_by_entity_id_ m)
      (Int.to_u32 (next_entity_id_ m + 1))).

Definition register (uuid username : list Z) (entity_id : Z) (player : nat) (m : t) : t :=
  mk (heap_ m) (<[uuid := player]> (players_by_uuid_ m))
     (<[username := player]> (players_by_name_ m))
     (<[entity_id := player]> (players_by_entity_id_ m)) (next_entity_id_ m).

(** [create_player] as defined in the class (entity/entity.hpp). *)
Definition create_player (connection : option nat) (uuid username : list Z) (m : t)
    : nat * t :=
  let '(entity_id, m) := get_next_entity_id m in
  let '(player, m) := make_shared (Player.create connection uuid username entity_id) m in
  (player, register uuid username entity_id player m).

Definition get_player (uuid : list Z) (m : t) : option nat :=
  players_by_uuid_ m !! uuid.

(** [get_player(const std::string&)] and [get_player(u32)] *)
Definition get_player_by_name (username : list Z) (m : t) : option nat :=
  players_by_name_ m !! username.

Definition get_player_by_entity_id (entity_id : Z) (m : t) : option nat :=
  players_by_entity_id_ m !! entity_id.

(** [remove_player]: the name and the entity id erased are those of the
    session found under [uuid].  A [PlayerPtr] keeps its session alive, so
    the address is always in [heap_]. *)
Definition remove_player (uuid : list Z) (m : t) : t :=
  match players_by_uuid_ m !! uuid with
  | None => m
  | Some player =>
      match heap_ m !! player with
      | None => m
      | Some p =>
          mk (heap_ m) (delete uuid (players_by_uuid_ m))
             (delete (Player.profile_username_ p) (players_by_name_ m))
             (delete (Player.entity_id_ p) (players_by_entity_id_ m))
             (next_entity_id_ m)
      end
  end.

Definition get_online_count (is_closed : nat -> bool) (m : t) : nat :=
  length (List.filter (fun up =>
                    match heap_ m !! snd up with
                    | Some p => Player.is_online is_closed p
                    | None => false
                    end)
            (map_to_list (players_by_uuid_ m))).

(** [create_player] as defined in minecraft_server_complete.cpp and
    complete_integration.cpp; [nullptr] is [None].  [spawn] is the block
    position of the configured spawn point. *)
Definition create_player_integration (max_players : Z) (spawn : Z * Z)
    (is_closed : nat -> bool) (connection : option nat) (uuid username : list Z)
    (m : t) : option nat * t :=
  if max_players <=? Z.of_nat (get_online_count is_closed m) then (None, m)
  else match get_player uuid m with
       | Some _ => (None, m)
       | None =>
           let '(entity_id, m) := get_next_entity_id m in
           let p := Player.create connection uuid username entity_id in
           let p := Player.set_location (fst spawn) (snd spawn) p in
           let '(player, m) := make_shared p m in
           (Some player, register uuid username entity_id player m)
       end.

End PlayerManager.

(** ** The length formula of the specification *)

(** Modelled from the spec: [clz], the number of leading zero bits of a
    32-bit word; the source has no such function.  [clz_from n x] counts
    the zero bits below bit [n] down to the first set bit. *)
Fixpoint clz_from (n : nat) (x : Z) : Z :=
  match n with
  | O => 0
  | S k => if Z.testbit x (Z.of_nat k) then 0 else 1 + clz_from k x
  end.

Definition clz32 (x : Z) : Z := clz_from 32 (Int.to_u32 x).

(** Modelled from the spec: the encoded length [ceil((32 - clz(v | 1)) / 7)]. *)
Definition varint_length_spec (v : Z) : Z :=
  (32 - clz32 (Z.lor v 1) + 6) / 7.

(** ** Block positions on the wire (network/chunk_packets.hpp) *)

Record Position : Type := mkPosition { pos_x : Z; pos_y : Z; pos_z : Z }.

Module BlockChangePacket.

Record t : Type := mk { position : Position; block_state : Z }.

(** The [u64] that [write] computes from [position]. *)
Definition encode_pos (p : Position) : Z :=
  Z.lor
    (Z.lor (Int.to_u64 (Z.shiftl (Int.to_u64 (Z.land (pos_x p) 0x3FFFFFF)) 38))
           (Int.to_u64 (Z.shiftl (Int.to_u64 (Z.land (pos_z p) 0x3FFFFFF)) 12)))
    (Int.to_u64 (Z.land (pos_y p) 0xFFF)).

(** The position [read] computes from the [u64], sign extension
    included. *)
Definition decode_pos (encoded_pos : Z) : Position :=
  let x := Int.to_i32 (Z.shiftr encoded_pos 38) in
  let z := Int.to_i32 (Z.land (Z.shiftr encoded_pos 12) 0x3FFFFFF) in
  let y := Int.to_i32 (Z.land encoded_pos 0xFFF) in
  let x := if 0x2000000 <=? x then Int.to_i32 (x - 0x4000000) else x in
  let z := if 0x2000000 <=? z then Int.to_i32 (z - 0x4000000) else z in
  let y := if 0x800 <=? y then Int.to_i32 (y - 0x1000) else y in
  {| pos_x := x; pos_y := y; pos_z := z |}.

Definition write (junk : nat -> Z) (p : t) (buffer : Buffer.t) : Buffer.t :=
  let encoded_pos := encode_pos (position p) in
  Buffer.write_varint junk (Int.to_i32 (block_state p))
    (Buffer.write_be junk 8 encoded_pos buffer).

Definition read : Buffer.M t :=
  (do encoded_pos <- Buffer.read_be Int.to_u64 8;
   do state <- Buffer.read_varint;
   ret {| position := decode_pos encoded_pos;
                 block_state := Int.to_u32 state |})%exn.

End BlockChangePacket.

(** ** Blocks by world position (world/chunk.hpp) *)

Module WorldBlocks.

(** [ChunkManager::get_block(const Position&)] *)
Definition get_block (now : Z) (pos : Position) (m : ChunkManager.t)
    : world.Block * ChunkManager.t :=
  let chunk_pos := mkChunkPos (Z.shiftr (pos_x pos) 4) (Z.shiftr (pos_z pos) 4) in
  match ChunkManager.get_chunk now chunk_pos m with
  | (None, m) => (world.AIR, m)
  | (Some chunk, m) =>
      let local_x := Z.land (pos_x pos) 15 in
      let local_z := Z.land (pos_z pos) 15 in
      (Chunk.get_block chunk local_x (pos_y pos) local_z, m)
  end.

(** [ChunkManager::set_block(const Position&, const Block&)]: the chunk
    written to is the one the store holds, so the store sees the write. *)
Definition set_block (now : Z) (pos : Position) (block : world.Block)
    (m : ChunkManager.t) : ChunkManager.t * option Job :=
  let chunk_pos := mkChunkPos (Z.shiftr (pos_x pos) 4) (Z.shiftr (pos_z pos) 4) in
  let '(chunk, m) := ChunkManager.get_chunk now chunk_pos m in
  let '(chunk, m, job) :=
    match chunk with
    | Some c => (Some c, m, None)
    | None => ChunkManager.load_chunk now chunk_pos m
    end in
  match chunk with
  | None => (m, job)
  | Some c =>
      let local_x := Z.land (pos_x pos) 15 in
      let local_z := Z.land (pos_z pos) 15 in
      let c := Chunk.set_block now local_x (pos_y pos) local_z block c in
      (ChunkManager.set_loaded_chunks
         (<[chunk_pos := c]> (ChunkManager.loaded_chunks_ m)) m, job)
  end.

End WorldBlocks.

(** ** Measures of a section *)

Module SectionShape.

(** The number of blocks of a section that are not air. *)
Definition solid_blocks (s : ChunkSection.t) : Z :=
  Z.of_nat (length (List.filter (fun b => negb (world.is_air b))
                      (ChunkSection.blocks s))).

(** A run of [set_block] calls on a section. *)
Definition set_blocks (writes : list (Z * Z * Z * world.Block)) (s : ChunkSection.t)
    : ChunkSection.t :=
  fold_left (fun s '(x, y, z, block) => ChunkSection.set_block x y z block s)
    writes s.

(** A light array has its 2048 bytes. *)
Definition wf_light (arr : list Z) : Prop :=
  length arr = Z.to_nat 2048 /\ Forall (fun byte => 0 <= byte < 256) arr.

End SectionShape.

(** ** Writing packets (network/packet_types.hpp, network/connection.hpp) *)

Module PacketWrite.

(** The class of a decoded packet. *)
Definition kind_of (p : Packet) : PacketKind :=
  match p with
  | HandshakePacket _ _ _ _ => KHandshake
  | StatusRequestPacket => KStatusRequest
  | PingRequestPacket _ => KPingRequest
  | LoginStartPacket _ _ => KLoginStart
  | PlayerPositionPacket _ _ _ _ => KPlayerPosition
  end.

(** [Packet::write] of each serverbound kind.  A [UUID] is an array of 16
    bytes, of which [write(player_uuid.data(), 16)] copies all. *)
Definition write (junk : nat -> Z) (p : Packet) (buffer : Buffer.t) : Buffer.t :=
  match p with
  | HandshakePacket protocol_version server_address server_port next_state =>
      let buffer := Buffer.write_varint junk protocol_version buffer in
      let buffer := Buffer.write_string junk server_address buffer in
      let buffer := Buffer.write_be junk 2 server_port buffer in
      Buffer.write_varint junk next_state buffer
  | StatusRequestPacket => buffer
  | PingRequestPacket payload => Buffer.write_be junk 8 payload buffer
  | LoginStartPacket username player_uuid =>
      let buffer := Buffer.write_string junk username buffer in
      Buffer.write junk (take 16 player_uuid) buffer
  | PlayerPositionPacket x y z on_ground =>
      let buffer := Buffer.write_be junk 8 x buffer in
      let buffer := Buffer.write_be junk 8 y buffer in
      let buffer := Buffer.write_be junk 8 z buffer in
      Buffer.write_byte junk (if on_ground then 1 else 0) buffer
  end.

(** The fields of a packet hold values of their C++ types, and its
    strings are short enough for [read_string]. *)
Definition in_range (p : Packet) : Prop :=
  match p with
  | HandshakePacket protocol_version server_address server_port next_state =>
      Int.is_i32 protocol_version
      /\ Z.of_nat (length server_address) <= 32767
      /\ 0 <= server_port < 2 ^ 16
      /\ Int.is_i32 next_state
  | StatusRequestPacket => True
  | PingRequestPacket payload => - 2 ^ 63 <= payload < 2 ^ 63
  | LoginStartPacket username player_uuid =>
      Z.of_nat (length username) <= 32767 /\ length player_uuid = 16%nat
  | PlayerPositionPacket x y z _ =>
      0 <= x < 2 ^ 64 /\ 0 <= y < 2 ^ 64 /\ 0 <= z < 2 ^ 64
  end.

(** [Connection::get_varint_size]: its do-while loop ends within five
    rounds on a 32-bit value. *)
Fixpoint get_varint_size_loop (fuel : nat) (uvalue : Z) (size : nat) : nat :=
  match fuel with
  | O => size
  | S fuel' =>
      let uvalue := Z.shiftr uvalue 7 in
      let size := S size in
      if negb (uvalue =? 0) then get_varint_size_loop fuel' uvalue size else size
  end.

Definition get_varint_size (value : Z) : nat :=
  get_varint_size_loop 5 (Int.to_u32 value) 0.

(** The buffer [Connection::send_packet] puts on the write queue for a
    packet of id [packet_id] whose [write] filled [temp_buffer]. *)
Definition final_buffer (junk : nat -> Z) (packet_id : Z) (temp_buffer : Buffer.t)
    : Buffer.t :=
  let final_buffer := Buffer.create junk (Buffer.size temp_buffer + 16) in
  let final_buffer :=
    Buffer.write_varint junk
      (Int.to_i32 (Int.to_i32 (Z.of_nat (Buffer.size temp_buffer))
                   + Int.to_i32 (Z.of_nat (get_varint_size packet_id))))
      final_buffer in
  let final_buffer := Buffer.write_varint junk packet_id final_buffer in
  Buffer.write junk (Buffer.contents temp_buffer) final_buffer.

End PacketWrite.

(** ** Item stacks and inventories (entity/entity.hpp) *)

Module ItemStack.

Record t : Type := mk {
  item_id : Z;       (* u16 *)
  count : Z;         (* u8 *)
  damage : Z         (* i16 *)
}.

(** [ItemStack()] *)
Definition empty : t := {| item_id := 0; count := 0; damage := 0 |}.

Definition is_empty (s : t) : bool := (item_id s =? 0) || (count s =? 0).

Definition is_stackable_with (s other : t) : bool :=
  (item_id s =? item_id other) && (damage s =? damage other).

Definition max_stack_size (s : t) : Z :=
  if item_id s =? 0 then 0 else if item_id s <? 256 then 64 else 1.

(** [count + other.count] is computed in [int]. *)
Definition can_merge_with (s other : t) : bool :=
  is_stackable_with s other && (count s + count other <=? max_stack_size s).

End ItemStack.

Module Inventory.

(** [slots_]; its length is [size_]. *)
Definition t : Type := list ItemStack.t.

(** [explicit Inventory(size_t size)] *)
Definition create (size : nat) : t := repeat ItemStack.empty size.

Definition get_item (slot : nat) (inv : t) : ItemStack.t :=
  if (slot <? length inv)%nat then nth slot inv ItemStack.empty else ItemStack.empty.

Definition set_item (slot : nat) (item : ItemStack.t) (inv : t) : t :=
  if (slot <? length inv)%nat then <[slot := item]> inv else inv.

(** The [for] loop of [add_item] over the slots not yet visited: the
    slots as it leaves them and what remains of the stack. *)
Fixpoint add_item_loop (slots : list ItemStack.t) (remaining : ItemStack.t)
    : list ItemStack.t * ItemStack.t :=
  match slots with
  | [] => ([], remaining)
  | slot :: rest =>
      if ItemStack.is_empty remaining then (slots, remaining)
      else if ItemStack.is_empty slot then
        let '(rest, unplaced) := add_item_loop rest ItemStack.empty in
        (remaining :: rest, unplaced)
      else if ItemStack.can_merge_with slot remaining then
        let can_add := Int.to_u8 (ItemStack.max_stack_size slot - ItemStack.count slot) in
        let to_add := Z.min can_add (ItemStack.count remaining) in
        let slot := ItemStack.mk (ItemStack.item_id slot)
                      (Int.to_u8 (ItemStack.count slot + to_add))
                      (ItemStack.damage slot) in
        let remaining := ItemStack.mk (ItemStack.item_id remaining)
                           (Int.to_u8 (ItemStack.count remaining - to_add))
                           (ItemStack.damage remaining) in
        let remaining := if ItemStack.count remaining =? 0 then ItemStack.empty
                         else remaining in
        let '(rest, unplaced) := add_item_loop rest remaining in
        (slot :: rest, unplaced)
      else
        let '(rest, unplaced) := add_item_loop rest remaining in
        (slot :: rest, unplaced)
  end.

Definition add_item (item : ItemStack.t) (inv : t) : bool * t :=
  if ItemStack.is_empty item then (true, inv)
  else
    let '(slots, remaining) := add_item_loop inv item in
    (ItemStack.is_empty remaining, slots).

Definition remove_item (slot : nat) (amount : Z) (inv : t) : ItemStack.t * t :=
  if (length inv <=? slot)%nat || ItemStack.is_empty (nth slot inv ItemStack.empty)
  then (ItemStack.empty, inv)
  else
    let s := nth slot inv ItemStack.empty in
    let to_remove := Z.min amount (ItemStack.count s) in
    let result := ItemStack.mk (ItemStack.item_id s) to_remove (ItemStack.damage s) in
    let s := ItemStack.mk (ItemStack.item_id s)
               (Int.to_u8 (ItemStack.count s - to_remove)) (ItemStack.damage s) in
    let s := if ItemStack.count s =? 0 then ItemStack.empty else s in
    (result, <[slot := s]> inv).

(** The loop of [has_item]; [found_count] is a [u8]. *)
Fixpoint has_item_loop (slots : list ItemStack.t) (item_id count found_count : Z)
    : bool :=
  match slots with
  | [] => false
  | slot :: rest =>
      if ItemStack.item_id slot =? item_id then
        let found_count := Int.to_u8 (found_count + ItemStack.count slot) in
        if count <=? found_count then true
        else has_item_loop rest item_id count found_count
      else has_item_loop rest item_id count found_count
  end.

Definition has_item (item_id count : Z) (inv : t) : bool :=
  has_item_loop inv item_id count 0.

Definition clear (inv : t) : t := repeat ItemStack.empty (length inv).

End Inventory.

(** Measures of an inventory. *)
Module InventoryShape.

(** Every count is a [u8]. *)
Definition typed (inv : Inventory.t) : Prop :=
  Forall (fun s => 0 <= ItemStack.count s < 256) inv.

(** The items of id [item_id] over all slots. *)
Definition total (item_id : Z) (inv : Inventory.t) : Z :=
  fold_right (fun s acc => if ItemStack.item_id s =? item_id
                           then ItemStack.count s + acc else acc) 0 inv.

(** A slot that takes the stack [item]: an empty one, or one the whole
    stack merges into. *)
Definition accepts (item s : ItemStack.t) : bool :=
  ItemStack.is_empty s || ItemStack.can_merge_with s item.

(** The slot [s] after it took [item]. *)
Definition filled (item s : ItemStack.t) : ItemStack.t :=
  if ItemStack.is_empty s then item
  else ItemStack.mk (ItemStack.item_id s) (ItemStack.count s + ItemStack.count item)
         (ItemStack.damage s).

End InventoryShape.

(** ** Inputs of the worked examples *)

Module Examples.

(** Memory that holds zeros wherever the program has not written. *)
Definition zeros : nat -> Z := fun _ => 0.

(** The server environment: online mode, nobody logged in. *)
Definition env : ServerEnv :=
  {| online_mode := true; string_hash := fun _ => 0; player_online := fun _ => false |}.

(** A Handshake frame: length 16, id 0, protocol 763, "localhost", port
    25565, then [next_state]. *)
Definition handshake_frame (next_state : Z) : list Z :=
  [0x10; 0x00; 0xFB; 0x05; 0x09; 0x6C; 0x6F; 0x63; 0x61; 0x6C; 0x68; 0x6F;
   0x73; 0x74; 0x63; 0xDD; next_state].

Definition origin : ChunkPos := mkChunkPos 0 0.

(** A chunk whose only block is one STONE at [(0, -64, 0)]. *)
Definition stone_chunk : Chunk.t :=
  Chunk.set_block 0 0 (-64) 0 world.STONE (Chunk.create 0 origin).

(** A region file that holds its 8 KiB header and no chunk. *)
Definition empty_region : WorldPersistence.RegionFile :=
  {| WorldPersistence.file := repeat 0 (Z.to_nat 8192);
     WorldPersistence.is_open := true;
     WorldPersistence.locations := repeat 0 (Z.to_nat 1024);
     WorldPersistence.timestamps := repeat 0 (Z.to_nat 1024);
     WorldPersistence.dirty := false |}.

(** A region file that stores one chunk, at [(0, 0)]: entry 0 of the
    location table says sector 2, one sector; the payload is a chunk of
    24 absent sections, that is of AIR only. *)
Definition stored_region : WorldPersistence.RegionFile :=
  {| WorldPersistence.file :=
       WorldPersistence.be32 513 ++ repeat 0 (Z.to_nat 8188)
       ++ [0; 0; 0; 24] ++ repeat 0 (Z.to_nat 4092);
     WorldPersistence.is_open := true;
     WorldPersistence.locations := 513 :: repeat 0 (Z.to_nat 1023);
     WorldPersistence.timestamps := repeat 0 (Z.to_nat 1024);
     WorldPersistence.dirty := false |}.

Definition alex : list Z := [65; 108; 101; 120].
Definition bob : list Z := [66; 111; 98].
Definition alex_uuid : list Z := repeat 0xA1 16.
Definition bob_uuid : list Z := repeat 0xB0 16.

(** No connection is closed. *)
Definition all_open : nat -> bool := fun _ => false.

(** The registry after Alex joined through connection 0. *)
Definition alex_online : PlayerManager.t :=
  snd (PlayerManager.create_player (Some 0%nat) alex_uuid alex PlayerManager.create).

End Examples.

(* ================================================================== *)
(** * Properties *)
(* ================================================================== *)

(** ** Fixed-width integers *)

Module IntFacts.

Lemma to_u8_small x : 0 <= x < 256 -> Int.to_u8 x = x.
Proof. intros H. unfold Int.to_u8, Int.to_unsigned. apply Z.mod_small. lia. Qed.

Lemma to_u8_range x : 0 <= Int.to_u8 x < 256.
Proof. unfold Int.to_u8, Int.to_unsigned. apply Z.mod_pos_bound. lia. Qed.

Lemma to_u32_range x : 0 <= Int.to_u32 x < 2 ^ 32.
Proof. unfold Int.to_u32, Int.to_unsigned. apply Z.mod_pos_bound. lia. Qed.

Lemma to_i32_to_u32 v : Int.is_i32 v -> Int.to_i32 (Int.to_u32 v) = v.
Proof.
  unfold Int.is_i32, Int.to_i32, Int.to_u32, Int.to_signed, Int.to_unsigned.
  intros H. rewrite Z.mod_mod by lia.
  change (2 ^ (32 - 1)) with 2147483648 in *.
  change (2 ^ 32) with 4294967296 in *. change (2 ^ 31) with 2147483648 in *.
  destruct (Z.ltb_spec (v mod 4294967296) 2147483648);
    Z.div_mod_to_equations; lia.
Qed.

(** Bits of a value below [2^n] and bits of a multiple of [2^n] do not
    meet, so [lor] adds them. *)
Lemma lor_disjoint_add n r y :
  0 <= n -> 0 <= r < 2 ^ n -> Z.lor r (y * 2 ^ n) = r + y * 2 ^ n.
Proof.
  intros Hn Hr.
  assert (Hland : Z.land r (y * 2 ^ n) = 0).
  { apply Z.bits_inj'. intros i Hi. rewrite Z.land_spec, Z.bits_0.
    destruct (Z.lt_ge_cases i n) as [Hlt | Hge].
    - rewrite Z.mul_pow2_bits_low by lia. apply andb_false_r.
    - rewrite <- (Z.mod_small r (2 ^ n)) by lia.
      rewrite Z.mod_pow2_bits_high by lia. reflexivity. }
  rewrite <- Z.lxor_lor by exact Hland.
  symmetry. apply Z.add_nocarry_lxor. exact Hland.
Qed.

Lemma land_0x7F x : Z.land x 0x7F = x mod 128.
Proof. change 0x7F with (Z.ones 7). rewrite Z.land_ones by lia. reflexivity. Qed.

Lemma continuation_low u :
  Z.land (Int.to_u8 (Z.lor u 0x80)) 0x7F = u mod 128.
Proof.
  unfold Int.to_u8, Int.to_unsigned.
  rewrite <- (Z.land_ones _ 8) by lia.
  rewrite <- Z.land_assoc. change (Z.land (Z.ones 8) 0x7F) with 0x7F.
  rewrite Z.land_lor_distr_l. change (Z.land 0x80 0x7F) with 0.
  rewrite Z.lor_0_r. apply land_0x7F.
Qed.

Lemma continuation_flag u :
  Z.land (Int.to_u8 (Z.lor u 0x80)) 0x80 <> 0.
Proof.
  unfold Int.to_u8, Int.to_unsigned.
  rewrite <- (Z.land_ones _ 8) by lia.
  rewrite <- Z.land_assoc. change (Z.land (Z.ones 8) 0x80) with 0x80.
  intros H. apply (f_equal (fun t => Z.testbit t 7)) in H.
  rewrite Z.land_spec, Z.lor_spec in H.
  change (Z.testbit 0x80 7) with true in H. rewrite orb_true_r in H.
  discriminate H.
Qed.

Lemma final_flag u : 0 <= u < 128 -> Z.land u 0x80 = 0.
Proof.
  intros H. apply Z.bits_inj'. intros i Hi.
  rewrite Z.land_spec, Z.bits_0.
  destruct (Z.eq_dec i 7) as [-> | Hne].
  - rewrite <- (Z.mod_small u (2 ^ 7)) by (change (2 ^ 7) with 128; lia).
    rewrite Z.mod_pow2_bits_high by lia. reflexivity.
  - replace (Z.testbit 0x80 i) with false; [apply andb_false_r |].
    symmetry. change 0x80 with (2 ^ 7). apply Z.pow2_bits_false. lia.
Qed.

Lemma to_i32_small x : - 2 ^ 31 <= x < 2 ^ 31 -> Int.to_i32 x = x.
Proof.
  unfold Int.to_i32, Int.to_signed. intros H.
  change (2 ^ (32 - 1)) with 2147483648 in *.
  change (2 ^ 32) with 4294967296 in *. change (2 ^ 31) with 2147483648 in *.
  destruct (Z.ltb_spec (x mod 4294967296) 2147483648);
    Z.div_mod_to_equations; lia.
Qed.

Lemma to_i32_high x : 2 ^ 31 <= x < 2 ^ 32 -> Int.to_i32 x = x - 2 ^ 32.
Proof.
  unfold Int.to_i32, Int.to_signed. intros H.
  change (2 ^ (32 - 1)) with 2147483648 in *.
  change (2 ^ 32) with 4294967296 in *. change (2 ^ 31) with 2147483648 in *.
  destruct (Z.ltb_spec (x mod 4294967296) 2147483648);
    Z.div_mod_to_equations; lia.
Qed.

(** The last round of [read_varint]: the group shifted into place may
    reach the sign bit, and the accumulated value is the wrapped sum. *)
Lemma varint_last_group r u s :
  0 <= s < 32 -> 0 <= r < 2 ^ s -> 0 <= u < 2 ^ (32 - s) ->
  Z.lor r (Int.to_i32 (u * 2 ^ s)) = Int.to_i32 (r + u * 2 ^ s).
Proof.
  intros Hs Hr Hu.
  assert (Hsplit : 2 ^ 31 = 2 ^ s * 2 ^ (31 - s))
    by (rewrite <- Z.pow_add_r by lia; f_equal; lia).
  assert (Hq : 2 ^ (32 - s) = 2 * 2 ^ (31 - s))
    by (replace (32 - s) with (Z.succ (31 - s)) by lia;
        rewrite Z.pow_succ_r by lia; reflexivity).
  assert (H32 : 2 ^ 32 = 2 * 2 ^ 31) by reflexivity.
  assert (HP : 0 < 2 ^ s) by (apply Z.pow_pos_nonneg; lia).
  assert (HH : 0 < 2 ^ (31 - s)) by (apply Z.pow_pos_nonneg; lia).
  set (P := 2 ^ s) in *. set (H := 2 ^ (31 - s)) in *.
  rewrite Hq in Hu.
  destruct (Z.lt_ge_cases (u * P) (2 ^ 31)) as [Hlo | Hhi].
  - rewrite (to_i32_small (u * P)) by nia.
    rewrite (to_i32_small (r + u * P)) by nia.
    unfold P. apply lor_disjoint_add; lia.
  - rewrite (to_i32_high (u * P)) by nia.
    rewrite (to_i32_high (r + u * P)) by nia.
    replace (u * P - 2 ^ 32) with ((u - 2 * H) * P) by nia.
    unfold P. rewrite lor_disjoint_add by lia. fold P. nia.
Qed.

End IntFacts.

(** ** The byte buffer *)

Module BufferFacts.
Import Buffer.

Ltac split4 := split; [| split; [| split]].

Section Pool.
Variable junk : nat -> Z.

Lemma length_allocate n : length (allocate junk n) = n.
Proof. unfold allocate. rewrite length_map, length_seq. reflexivity. Qed.

Lemma wf_empty : wf empty.
Proof. split; simpl; lia. Qed.

Lemma wf_create n : wf (create junk n).
Proof. split; simpl; try lia. apply length_allocate. Qed.

Lemma ensure_capacity_wf needed b : wf b -> wf (ensure_capacity junk needed b).
Proof.
  intros [Hc Hs Hw Hr]. unfold ensure_capacity.
  destruct (Nat.leb_spec needed (capacity_ b)); [by split |].
  split; simpl; try lia.
  rewrite length_app, length_take, length_drop, length_allocate. lia.
Qed.

Lemma ensure_capacity_contents needed b :
  wf b -> contents (ensure_capacity junk needed b) = contents b.
Proof.
  intros [Hc Hs Hw Hr]. unfold ensure_capacity, contents.
  destruct (Nat.leb_spec needed (capacity_ b)); [reflexivity |]. simpl.
  rewrite take_app_le by (rewrite length_take; lia).
  rewrite take_take. f_equal. lia.
Qed.

Lemma ensure_capacity_enough needed b :
  (needed <= capacity_ (ensure_capacity junk needed b))%nat.
Proof.
  unfold ensure_capacity.
  destruct (Nat.leb_spec needed (capacity_ b)); simpl; lia.
Qed.

Lemma ensure_capacity_cursors needed b :
  size_ (ensure_capacity junk needed b) = size_ b
  /\ read_pos_ (ensure_capacity junk needed b) = read_pos_ b
  /\ write_pos_ (ensure_capacity junk needed b) = write_pos_ b.
Proof.
  unfold ensure_capacity.
  destruct (Nat.leb_spec needed (capacity_ b)); simpl; auto.
Qed.

(** Writing appends to the written bytes and leaves the read cursor. *)
Lemma write_spec bytes b :
  wf b ->
  wf (write junk bytes b)
  /\ contents (write junk bytes b) = contents b ++ bytes
  /\ size_ (write junk bytes b) = (size_ b + length bytes)%nat
  /\ read_pos_ (write junk bytes b) = read_pos_ b.
Proof.
  intros Hwf.
  pose proof (ensure_capacity_wf (write_pos_ b + length bytes) b Hwf) as [Hc Hs Hw Hr].
  pose proof (ensure_capacity_contents (write_pos_ b + length bytes) b Hwf) as Hcont.
  pose proof (ensure_capacity_enough (write_pos_ b + length bytes) b) as Hcap.
  destruct (ensure_capacity_cursors (write_pos_ b + length bytes) b) as (Hsz & Hrp & Hwp).
  destruct Hwf as [Hc0 Hs0 Hw0 Hr0].
  unfold write. set (b1 := ensure_capacity junk _ b) in *.
  unfold contents in *. simpl.
  split4; simpl.
  - split; simpl; try lia.
    rewrite !length_app, length_take, length_drop. lia.
  - rewrite Hw. rewrite Nat.max_r by lia.
    rewrite app_assoc. rewrite take_app_length'.
    + rewrite Hcont. reflexivity.
    + rewrite length_app, length_take. lia.
  - lia.
  - exact Hrp.
Qed.

Lemma write_byte_spec x b :
  wf b ->
  wf (write_byte junk x b)
  /\ contents (write_byte junk x b) = contents b ++ [x]
  /\ size_ (write_byte junk x b) = S (size_ b)
  /\ read_pos_ (write_byte junk x b) = read_pos_ b.
Proof.
  intros Hwf. destruct (write_spec [x] b Hwf) as (H1 & H2 & H3 & H4).
  unfold write_byte. split4; auto. rewrite H3. simpl. lia.
Qed.

(** More fuel than the value needs changes nothing: for a 32-bit value
    the loop of [write_varint] has ended before five rounds. *)
Lemma write_varint_loop_fuel fuel : forall u k b,
  0 <= u < 2 ^ (7 * Z.of_nat fuel + 7) ->
  write_varint_loop junk (fuel + k) u b = write_varint_loop junk fuel u b.
Proof.
  induction fuel as [| fuel IH]; intros u k b Hu.
  - change (2 ^ (7 * Z.of_nat 0 + 7)) with 128 in Hu.
    destruct k; [reflexivity |]. cbn [Nat.add write_varint_loop].
    destruct (Z.leb_spec 0x80 u); [lia | reflexivity].
  - cbn [Nat.add write_varint_loop]. destruct (Z.leb_spec 0x80 u); [| reflexivity].
    apply IH.
    rewrite Z.shiftr_div_pow2 by lia. split; [apply Z.div_pos; lia |].
    apply Z.div_lt_upper_bound; [lia |].
    rewrite <- Z.pow_add_r by lia.
    replace (7 + (7 * Z.of_nat fuel + 7)) with (7 * Z.of_nat (S fuel) + 7) by lia.
    lia.
Qed.

Lemma write_varint_fuel value k b :
  write_varint_loop junk (5 + k) (Int.to_u32 value) b = write_varint junk value b.
Proof.
  apply write_varint_loop_fuel.
  pose proof (IntFacts.to_u32_range value).
  change (2 ^ (7 * Z.of_nat 5 + 7)) with (2 ^ 42).
  assert (2 ^ 32 < 2 ^ 42) by reflexivity. lia.
Qed.

(** [write_varint_loop] appends exactly [varint_bytes]. *)
Lemma write_varint_loop_contents fuel : forall u b,
  wf b ->
  wf (write_varint_loop junk fuel u b)
  /\ contents (write_varint_loop junk fuel u b) = contents b ++ varint_bytes fuel u
  /\ size_ (write_varint_loop junk fuel u b)
     = (size_ b + length (varint_bytes fuel u))%nat
  /\ read_pos_ (write_varint_loop junk fuel u b) = read_pos_ b.
Proof.
  induction fuel as [| fuel IH]; intros u b Hwf;
    cbn [write_varint_loop varint_bytes].
  - destruct (write_byte_spec (Int.to_u8 u) b Hwf) as (H1 & H2 & H3 & H4).
    split4; auto. rewrite H3. simpl. lia.
  - destruct (0x80 <=? u).
    + destruct (write_byte_spec (Int.to_u8 (Z.lor u 0x80)) b Hwf) as (H1 & H2 & H3 & H4).
      destruct (IH (Z.shiftr u 7) _ H1) as (G1 & G2 & G3 & G4).
      split4; auto.
      * rewrite G2, H2, <- app_assoc. reflexivity.
      * rewrite G3, H3. cbn [length]. lia.
      * congruence.
    + destruct (write_byte_spec (Int.to_u8 u) b Hwf) as (H1 & H2 & H3 & H4).
      split4; auto. rewrite H3. simpl. lia.
Qed.

End Pool.

Lemma advance_wf n b : wf b -> (n <= readable b)%nat -> wf (advance n b).
Proof. unfold readable. intros [Hc Hs Hw Hr] Hn. split; simpl; lia. Qed.

Lemma remaining_advance n b : remaining (advance n b) = drop n (remaining b).
Proof. unfold remaining, contents. simpl. rewrite drop_drop. reflexivity. Qed.

Lemma length_remaining b : wf b -> length (remaining b) = readable b.
Proof.
  intros [Hc Hs Hw Hr]. unfold remaining, contents, readable.
  rewrite length_drop, length_take. lia.
Qed.

Lemma read_byte_cons b x r :
  wf b -> remaining b = x :: r ->
  read_byte b = (Ok x, advance 1 b)
  /\ remaining (advance 1 b) = r /\ wf (advance 1 b).
Proof.
  intros Hwf Hrem.
  pose proof (length_remaining b Hwf) as Hlen. rewrite Hrem in Hlen.
  simpl in Hlen. unfold readable in Hlen.
  split; [| split].
  - unfold read_byte. destruct (Nat.leb_spec (size_ b) (read_pos_ b)); [lia |].
    f_equal. f_equal. unfold at_.
    apply nth_lookup_Some with (d := 0).
    assert (Hl : remaining b !! 0%nat = Some x) by (rewrite Hrem; reflexivity).
    unfold remaining, contents in Hl. rewrite lookup_drop in Hl.
    apply lookup_take_Some in Hl. destruct Hl as [Hl _].
    rewrite Nat.add_0_r in Hl. exact Hl.
  - rewrite remaining_advance, Hrem. reflexivity.
  - apply advance_wf; [exact Hwf | unfold readable; lia].
Qed.

Lemma read_byte_nil b :
  wf b -> remaining b = [] -> read_byte b = (Throw BufferUnderflow, b).
Proof.
  intros Hwf Hrem.
  pose proof (length_remaining b Hwf) as Hlen. rewrite Hrem in Hlen.
  simpl in Hlen. unfold readable in Hlen. destruct Hwf as [Hc Hs Hw Hr].
  unfold read_byte. destruct (Nat.leb_spec (size_ b) (read_pos_ b)); [reflexivity | lia].
Qed.

(** More fuel changes nothing once the rounds left reach [shift >= 32]:
    the loop of [read_varint] throws there whatever the buffer holds. *)
Lemma read_varint_loop_fuel fuel : forall k r s b,
  32 <= s + 7 * Z.of_nat fuel ->
  read_varint_loop (fuel + k) r s b = read_varint_loop fuel r s b.
Proof.
  induction fuel as [| fuel IH]; intros k r s b Hs.
  - destruct k; [reflexivity |]. cbn [Nat.add read_varint_loop].
    destruct (Z.leb_spec 32 s); [reflexivity | lia].
  - cbn [Nat.add read_varint_loop]. destruct (32 <=? s); [reflexivity |].
    unfold bind. destruct (read_byte b) as [[x | e] b1]; [| reflexivity].
    destruct (negb _); [| reflexivity]. apply IH. lia.
Qed.

Lemma read_varint_fuel k b : read_varint_loop (6 + k) 0 0 b = read_varint b.
Proof. apply read_varint_loop_fuel. lia. Qed.

Lemma advance_advance n m b : advance m (advance n b) = advance (n + m) b.
Proof. unfold advance. simpl. f_equal. lia. Qed.

(** Reading back what [write_varint_loop] wrote: [r] holds the [s] bits
    already decoded, [u] is what the writer still had to emit. *)
Lemma read_varint_loop_spec fw : forall fr u r s b tail,
  wf b -> remaining b = varint_bytes fw u ++ tail ->
  0 <= s < 32 -> 0 <= r < 2 ^ s -> 0 <= u < 2 ^ (32 - s) ->
  u < 2 ^ (7 * Z.of_nat fw + 7) ->
  (1 <= fr)%nat -> u < 2 ^ (7 * Z.of_nat fr) ->
  let b' := advance (length (varint_bytes fw u)) b in
  read_varint_loop fr r s b = (Ok (Int.to_i32 (r + u * 2 ^ s)), b')
  /\ remaining b' = tail /\ wf b'.
Proof.
  assert (Hlast : forall fr u r s b tail,
    wf b -> remaining b = Int.to_u8 u :: tail ->
    0 <= s < 32 -> 0 <= r < 2 ^ s -> 0 <= u < 2 ^ (32 - s) ->
    u < 128 -> (1 <= fr)%nat ->
    read_varint_loop fr r s b = (Ok (Int.to_i32 (r + u * 2 ^ s)), advance 1 b)
    /\ remaining (advance 1 b) = tail /\ wf (advance 1 b)).
  { intros fr u r s b tail Hwf Hrem Hs Hr Hu Hsmall Hfr.
    rewrite IntFacts.to_u8_small in Hrem by lia.
    destruct (read_byte_cons b u tail Hwf Hrem) as (Hrd & Hrem' & Hwf').
    split; [| split]; auto.
    destruct fr as [| fr]; [lia |].
    cbn [read_varint_loop]. destruct (Z.leb_spec 32 s); [lia |].
    unfold bind. rewrite Hrd.
    rewrite IntFacts.final_flag by lia. simpl negb. cbv iota. unfold ret.
    rewrite IntFacts.land_0x7F, Z.mod_small by lia.
    rewrite Z.shiftl_mul_pow2 by lia.
    rewrite IntFacts.varint_last_group by lia. reflexivity. }
  induction fw as [| fw IH]; intros fr u r s b tail Hwf Hrem Hs Hr Hu Hfw Hfr Hufr;
    cbn [varint_bytes] in *.
  - apply Hlast; auto.
  - destruct (Z.leb_spec 0x80 u) as [Hbig | Hsmall]; [| apply Hlast; auto].
    cbn [length]. rewrite <- app_comm_cons in Hrem.
    destruct (read_byte_cons b _ _ Hwf Hrem) as (Hrd & Hrem' & Hwf').
    destruct fr as [| fr]; [lia |].
    assert (Hs24 : s <= 24).
    { destruct (Z.le_gt_cases s 24) as [|Hgt]; [assumption | exfalso].
      assert (2 ^ (32 - s) <= 2 ^ 7) by (apply Z.pow_le_mono_r; lia).
      change (2 ^ 7) with 128 in *. lia. }
    assert (Hfr1 : (1 <= fr)%nat).
    { destruct fr; [| lia]. change (2 ^ (7 * Z.of_nat 1)) with 128 in Hufr. lia. }
    assert (HP : 0 < 2 ^ s) by (apply Z.pow_pos_nonneg; lia).
    assert (Hpow7 : forall k, 0 <= k -> 2 ^ (k + 7) = 128 * 2 ^ k).
    { intros k Hk. rewrite Z.pow_add_r by lia. change (2 ^ 7) with 128. lia. }
    assert (Hdiv : forall k, 0 <= k -> u < 2 ^ (k + 7) -> u / 128 < 2 ^ k).
    { intros k Hk Hlt. rewrite Hpow7 in Hlt by lia.
      apply Z.div_lt_upper_bound; lia. }
    assert (Hgroup : 0 <= u mod 128 < 128) by (apply Z.mod_pos_bound; lia).
    assert (Hx31 : (u mod 128) * 2 ^ s < 2 ^ 31).
    { assert (2 ^ (s + 7) <= 2 ^ 31) by (apply Z.pow_le_mono_r; lia).
      rewrite Hpow7 in * by lia. nia. }
    specialize (IH fr (u / 128) (r + (u mod 128) * 2 ^ s) (s + 7)
                  (advance 1 b) tail Hwf').
    rewrite Z.shiftr_div_pow2 in * by lia. change (2 ^ 7) with 128 in *.
    destruct IH as (Hrd2 & Hrem2 & Hwf2); auto; try lia.
    + rewrite Hpow7 by lia. nia.
    + split; [apply Z.div_pos; lia |].
      apply Hdiv; [lia |]. replace (32 - (s + 7) + 7) with (32 - s) by lia. lia.
    + apply Hdiv; [lia |].
      replace (7 * Z.of_nat fw + 7 + 7) with (7 * Z.of_nat (S fw) + 7) by lia. lia.
    + apply Hdiv; [lia |].
      replace (7 * Z.of_nat fr + 7) with (7 * Z.of_nat (S fr)) by lia. lia.
    + rewrite advance_advance in *.
      change (S (length ?l)) with (1 + length l)%nat.
      split; [| split]; auto.
      cbn [read_varint_loop]. destruct (Z.leb_spec 32 s); [lia |].
      unfold bind at 1. rewrite Hrd.
      destruct (Z.eqb_spec (Z.land (Int.to_u8 (Z.lor u 0x80)) 0x80) 0) as [He | _];
        [exfalso; exact (IntFacts.continuation_flag u He) |].
      simpl negb. cbv iota.
      rewrite IntFacts.continuation_low, Z.shiftl_mul_pow2 by lia.
      rewrite IntFacts.to_i32_small by nia.
      rewrite IntFacts.lor_disjoint_add by lia.
      cbn [negb]. rewrite Hrd2. f_equal. f_equal. f_equal.
      rewrite Hpow7 by lia.
      pose proof (Z.div_mod u 128 ltac:(lia)). nia.
Qed.

(** Once the length prefix is within [[0, 32767]], [read_string] returns,
    however few bytes are left, and the string has the decoded length. *)
Lemma read_string_returns b len b1 :
  read_varint b = (Ok len, b1) -> 0 <= len <= 32767 ->
  exists str,
    read_string b = (Ok str, advance (Nat.min (Z.to_nat len) (readable b1)) b1)
    /\ length str = Z.to_nat len.
Proof.
  intros Hlen Hrange. unfold read_string, bind. rewrite Hlen.
  destruct (Z.ltb_spec len 0); [lia |].
  destruct (Z.ltb_spec 32767 len); [lia |].
  cbn [orb]. unfold read. fold (readable b1).
  eexists. split; [reflexivity |].
  rewrite length_app, repeat_length, length_take. lia.
Qed.

(** Outside that range it throws, whatever follows the prefix. *)
Lemma read_string_bad_length b len b1 :
  read_varint b = (Ok len, b1) -> len < 0 \/ 32767 < len ->
  read_string b = (Throw InvalidStringLength, b1).
Proof.
  intros Hlen Hrange. unfold read_string, bind. rewrite Hlen.
  destruct (Z.ltb_spec len 0); [reflexivity |].
  destruct (Z.ltb_spec 32767 len); [reflexivity | lia].
Qed.

End BufferFacts.

(** ** VarInt: round trip and encoded length *)

Module VarIntFacts.
Import Buffer BufferFacts.

Lemma varint_bytes_length fuel : forall u,
  0 <= u < 2 ^ (7 * Z.of_nat fuel + 7) ->
  Z.of_nat (length (varint_bytes fuel u)) = Z.log2 u / 7 + 1.
Proof.
  assert (Hsmall : forall u, 0 <= u < 128 -> Z.log2 u / 7 + 1 = 1).
  { intros u Hu. destruct (Z.eq_dec u 0) as [-> | Hne]; [reflexivity |].
    assert (Z.log2 u < 7) by (apply Z.log2_lt_pow2; [lia | exact (proj2 Hu)]).
    pose proof (Z.log2_nonneg u). rewrite Z.div_small by lia. reflexivity. }
  induction fuel as [| fuel IH]; intros u Hu; cbn [varint_bytes].
  - cbn [length]. rewrite Hsmall; [reflexivity |].
    change (2 ^ (7 * Z.of_nat 0 + 7)) with 128 in Hu. lia.
  - destruct (Z.leb_spec 0x80 u) as [Hbig | Hlt].
    + cbn [length]. rewrite Nat2Z.inj_succ, IH.
      * rewrite Z.log2_shiftr by lia.
        assert (7 <= Z.log2 u) by (apply Z.log2_le_pow2; [lia | exact Hbig]).
        rewrite Z.max_r by lia.
        replace (Z.log2 u) with ((Z.log2 u - 7) + 1 * 7) at 2 by lia.
        rewrite Z.div_add by lia. lia.
      * rewrite Z.shiftr_div_pow2 by lia. split; [apply Z.div_pos; lia |].
        apply Z.div_lt_upper_bound; [lia |].
        rewrite <- Z.pow_add_r by lia.
        replace (7 + (7 * Z.of_nat fuel + 7)) with (7 * Z.of_nat (S fuel) + 7) by lia.
        lia.
    + cbn [length]. rewrite Hsmall; [reflexivity | lia].
Qed.

(** Fuel beyond what the value needs changes nothing: the loop of
    [write_varint] has ended by then. *)
Lemma varint_bytes_fuel fuel : forall u k,
  0 <= u < 2 ^ (7 * Z.of_nat fuel + 7) ->
  varint_bytes (fuel + k) u = varint_bytes fuel u.
Proof.
  induction fuel as [| fuel IH]; intros u k Hu.
  - change (2 ^ (7 * Z.of_nat 0 + 7)) with 128 in Hu.
    destruct k; [reflexivity |]. cbn [Nat.add varint_bytes].
    destruct (Z.leb_spec 0x80 u); [lia | reflexivity].
  - cbn [Nat.add varint_bytes]. destruct (Z.leb_spec 0x80 u); [| reflexivity].
    f_equal. apply IH.
    rewrite Z.shiftr_div_pow2 by lia. split; [apply Z.div_pos; lia |].
    apply Z.div_lt_upper_bound; [lia |].
    rewrite <- Z.pow_add_r by lia.
    replace (7 + (7 * Z.of_nat fuel + 7)) with (7 * Z.of_nat (S fuel) + 7) by lia.
    lia.
Qed.

Lemma testbit_top k x :
  0 <= x < 2 ^ (Z.of_nat k + 1) ->
  Z.testbit x (Z.of_nat k) = true <-> 2 ^ Z.of_nat k <= x.
Proof.
  intros Hx. rewrite Z.testbit_true by lia.
  assert (HP : 0 < 2 ^ Z.of_nat k) by (apply Z.pow_pos_nonneg; lia).
  rewrite Z.pow_add_r in Hx by lia. change (2 ^ 1) with 2 in Hx.
  assert (Hq : 0 <= x / 2 ^ Z.of_nat k < 2).
  { split; [apply Z.div_pos; lia | apply Z.div_lt_upper_bound; lia]. }
  split; intros H.
  - assert (x / 2 ^ Z.of_nat k = 1) by (Z.div_mod_to_equations; lia).
    Z.div_mod_to_equations; nia.
  - assert (1 <= x / 2 ^ Z.of_nat k) by (apply Z.div_le_lower_bound; lia).
    replace (x / 2 ^ Z.of_nat k) with 1 by lia. reflexivity.
Qed.

Lemma clz_from_spec n : forall x,
  0 < x < 2 ^ Z.of_nat n -> clz_from n x = Z.of_nat n - 1 - Z.log2 x.
Proof.
  induction n as [| k IH]; intros x Hx.
  - change (2 ^ Z.of_nat 0) with 1 in Hx. lia.
  - cbn [clz_from]. rewrite Nat2Z.inj_succ, <- Z.add_1_r in *.
    destruct (Z.testbit x (Z.of_nat k)) eqn:Hbit.
    + apply testbit_top in Hbit; [| lia].
      rewrite (Z.log2_unique x (Z.of_nat k)); [lia | lia |].
      rewrite <- Z.add_1_r. lia.
    + assert (Hlt : x < 2 ^ Z.of_nat k).
      { destruct (Z.lt_ge_cases x (2 ^ Z.of_nat k)) as [| Hge]; [assumption |].
        apply testbit_top in Hge; [congruence | lia]. }
      rewrite IH by lia. lia.
Qed.

Lemma to_u32_lor_1 v : Int.to_u32 (Z.lor v 1) = Z.lor (Int.to_u32 v) 1.
Proof.
  unfold Int.to_u32, Int.to_unsigned.
  rewrite <- !(Z.land_ones _ 32) by lia.
  rewrite Z.land_lor_distr_l. reflexivity.
Qed.

(** The formula of the specification counts the 7-bit groups of the
    unsigned value. *)
Lemma varint_length_spec_log2 v :
  varint_length_spec v = Z.log2 (Int.to_u32 v) / 7 + 1.
Proof.
  unfold varint_length_spec, clz32. rewrite to_u32_lor_1.
  pose proof (IntFacts.to_u32_range v) as Hu. set (u := Int.to_u32 v) in *.
  assert (Hlog : Z.log2 (Z.lor u 1) = Z.log2 u).
  { rewrite Z.log2_lor by lia. change (Z.log2 1) with 0.
    pose proof (Z.log2_nonneg u). lia. }
  assert (Hpos : 0 < Z.lor u 1).
  { assert (0 <= Z.lor u 1) by (apply Z.lor_nonneg; lia).
    assert (Z.lor u 1 <> 0) by (rewrite Z.lor_eq_0_iff; lia). lia. }
  assert (Hlt : Z.log2 u < 32).
  { destruct (Z.eq_dec u 0) as [-> | Hne]; [reflexivity |].
    apply Z.log2_lt_pow2; lia. }
  rewrite (clz_from_spec 32).
  - rewrite Hlog. change (Z.of_nat 32) with 32.
    replace (32 - (32 - 1 - Z.log2 u) + 6) with (Z.log2 u + 1 * 7) by lia.
    rewrite Z.div_add by lia. reflexivity.
  - split; [exact Hpos |]. change (Z.of_nat 32) with 32.
    apply Z.log2_lt_pow2; [exact Hpos | lia].
Qed.

Section Pool.
Variable junk : nat -> Z.

(** What [write_varint] does to a buffer whose bytes have all been read:
    it appends [varint_bytes], which [read_varint] then decodes. *)
Lemma write_then_read v b :
  Int.is_i32 v -> wf b -> read_pos_ b = size_ b ->
  let b1 := write_varint junk v b in
  let bytes := varint_bytes 5 (Int.to_u32 v) in
  contents b1 = contents b ++ bytes
  /\ size_ b1 = (size_ b + length bytes)%nat
  /\ read_varint b1 = (Ok v, advance (length bytes) b1).
Proof.
  intros Hv Hwf Hrp. cbv zeta. unfold write_varint.
  pose proof (IntFacts.to_u32_range v) as Hu.
  destruct (write_varint_loop_contents junk 5 (Int.to_u32 v) b Hwf)
    as (Hwf1 & Hcont & Hsize & Hread).
  split; [exact Hcont | split; [exact Hsize |]].
  assert (Hrem : remaining (write_varint_loop junk 5 (Int.to_u32 v) b)
                 = varint_bytes 5 (Int.to_u32 v) ++ []).
  { unfold remaining. rewrite Hcont, Hread, Hrp, app_nil_r.
    apply drop_app_length'. unfold contents. rewrite length_take.
    destruct Hwf. lia. }
  destruct (read_varint_loop_spec 5 6 (Int.to_u32 v) 0 0 _ [] Hwf1 Hrem)
    as (Hrd & _ & _); try lia.
  unfold read_varint. rewrite Hrd. f_equal. f_equal.
  change (2 ^ 0) with 1. rewrite Z.add_0_l, Z.mul_1_r.
  apply IntFacts.to_i32_to_u32. exact Hv.
Qed.

End Pool.

(** [write_varint(300)] writes [AC 02], which reads back as 300
    (boundary scenario 1 of the specification). *)
Example varint_300 :
  let b := write_varint (fun _ => 0) 300 empty in
  contents b = [0xAC; 0x02] /\ fst (read_varint b) = Ok 300.
Proof. vm_compute. split; reflexivity. Qed.

End VarIntFacts.

(** C3. For every signed 32-bit [v], [read_varint] applied to the bytes
    that [write_varint v] wrote returns [v] and stops right after them;
    the number of bytes written is [ceil((32 - clz(v | 1)) / 7)], which
    is at most 5. *)
Theorem varint_roundtrip (junk : nat -> Z) (v : Z) (b : Buffer.t) :
  Int.is_i32 v -> Buffer.wf b -> Buffer.read_pos_ b = Buffer.size_ b ->
  let b1 := Buffer.write_varint junk v b in
  let n := (Buffer.size_ b1 - Buffer.size_ b)%nat in
  fst (Buffer.read_varint b1) = Ok v
  /\ Buffer.read_pos_ (snd (Buffer.read_varint b1)) = Buffer.size_ b1
  /\ Z.of_nat n = varint_length_spec v
  /\ (n <= 5)%nat.
Proof.
  intros Hv Hwf Hrp. cbv zeta.
  destruct (VarIntFacts.write_then_read junk v b Hv Hwf Hrp) as (Hcont & Hsize & Hrd).
  pose proof (IntFacts.to_u32_range v) as Hu.
  assert (Hlen : Z.of_nat (length (Buffer.varint_bytes 5 (Int.to_u32 v)))
                 = Z.log2 (Int.to_u32 v) / 7 + 1).
  { apply VarIntFacts.varint_bytes_length.
    change (2 ^ (7 * Z.of_nat 5 + 7)) with (2 ^ 42).
    assert (2 ^ 32 < 2 ^ 42) by reflexivity. lia. }
  assert (Hlog : 0 <= Z.log2 (Int.to_u32 v) < 32).
  { split; [apply Z.log2_nonneg |].
    destruct (Z.eq_dec (Int.to_u32 v) 0) as [-> | Hne]; [reflexivity |].
    apply Z.log2_lt_pow2; lia. }
  rewrite Hrd, Hsize. cbn [fst snd Buffer.advance Buffer.read_pos_ Buffer.size_].
  replace (Buffer.size_ b + length (Buffer.varint_bytes 5 (Int.to_u32 v))
           - Buffer.size_ b)%nat
    with (length (Buffer.varint_bytes 5 (Int.to_u32 v))) by lia.
  rewrite VarIntFacts.varint_length_spec_log2.
  assert (Z.log2 (Int.to_u32 v) / 7 < 5)
    by (apply Z.div_lt_upper_bound; lia).
  split; [reflexivity | split; [| split; [exact Hlen | lia]]].
  destruct (BufferFacts.write_varint_loop_contents junk 5 (Int.to_u32 v) b Hwf)
    as (_ & _ & _ & Hread).
  unfold Buffer.write_varint in *. rewrite Hread. lia.
Qed.

Lemma varint_roundtrip_witness :
  Int.is_i32 300 /\ Buffer.wf Buffer.empty
  /\ Buffer.read_pos_ Buffer.empty = Buffer.size_ Buffer.empty
  /\ (let b1 := Buffer.write_varint (fun _ => 0) 300 Buffer.empty in
      let n := (Buffer.size_ b1 - Buffer.size_ Buffer.empty)%nat in
      fst (Buffer.read_varint b1) = Ok 300
      /\ Buffer.read_pos_ (snd (Buffer.read_varint b1)) = Buffer.size_ b1
      /\ Z.of_nat n = varint_length_spec 300
      /\ (n <= 5)%nat).
Proof.
  assert (H1 : Int.is_i32 300) by (unfold Int.is_i32; lia).
  assert (H2 : Buffer.wf Buffer.empty) by (split; simpl; lia).
  assert (H3 : Buffer.read_pos_ Buffer.empty = Buffer.size_ Buffer.empty)
    by reflexivity.
  split; [exact H1 | split; [exact H2 | split; [exact H3 |]]].
  exact (varint_roundtrip (fun _ => 0) 300 Buffer.empty H1 H2 H3).
Defined.

(** ** Packed block positions *)

Module BlockChangeFacts.
Import BlockChangePacket.

Lemma to_u64_small x : 0 <= x < 2 ^ 64 -> Int.to_u64 x = x.
Proof. intros H. unfold Int.to_u64, Int.to_unsigned. apply Z.mod_small. lia. Qed.

Lemma land_26 x : Z.land x 0x3FFFFFF = x mod 2 ^ 26.
Proof. change 0x3FFFFFF with (Z.ones 26). apply Z.land_ones. lia. Qed.

Lemma land_12 x : Z.land x 0xFFF = x mod 2 ^ 12.
Proof. change 0xFFF with (Z.ones 12). apply Z.land_ones. lia. Qed.

(** The three fields do not overlap, so the packed word is their sum. *)
Lemma encode_pos_sum p :
  encode_pos p
  = (pos_x p mod 2 ^ 26) * 2 ^ 38 + (pos_z p mod 2 ^ 26) * 2 ^ 12
    + pos_y p mod 2 ^ 12.
Proof.
  unfold encode_pos. rewrite !land_26, land_12.
  pose proof (Z.mod_pos_bound (pos_x p) (2 ^ 26) ltac:(lia)) as Hx.
  pose proof (Z.mod_pos_bound (pos_z p) (2 ^ 26) ltac:(lia)) as Hz.
  pose proof (Z.mod_pos_bound (pos_y p) (2 ^ 12) ltac:(lia)) as Hy.
  set (X := pos_x p mod 2 ^ 26) in *. set (Zc := pos_z p mod 2 ^ 26) in *.
  set (Y := pos_y p mod 2 ^ 12) in *.
  rewrite (to_u64_small X), (to_u64_small Zc), (to_u64_small Y) by lia.
  rewrite !Z.shiftl_mul_pow2 by lia.
  rewrite (to_u64_small (X * 2 ^ 38)), (to_u64_small (Zc * 2 ^ 12)) by lia.
  rewrite (Z.lor_comm (X * 2 ^ 38)).
  rewrite (IntFacts.lor_disjoint_add 38) by lia.
  replace (Zc * 2 ^ 12 + X * 2 ^ 38) with ((Zc + X * 2 ^ 26) * 2 ^ 12) by lia.
  rewrite Z.lor_comm. rewrite (IntFacts.lor_disjoint_add 12) by lia. lia.
Qed.

Lemma sign_extend w x :
  0 < w < 31 -> - 2 ^ (w - 1) < x < 2 ^ (w - 1) ->
  (let f := Int.to_i32 (x mod 2 ^ w) in
   if 2 ^ (w - 1) <=? f then Int.to_i32 (f - 2 ^ w) else f) = x.
Proof.
  intros Hw Hx. cbv zeta.
  assert (Hpow : 2 ^ w = 2 * 2 ^ (w - 1)).
  { replace w with (Z.succ (w - 1)) at 1 by lia. apply Z.pow_succ_r. lia. }
  assert (Hle : 2 ^ w <= 2 ^ 30) by (apply Z.pow_le_mono_r; lia).
  assert (Hm : 0 <= x mod 2 ^ w < 2 ^ w) by (apply Z.mod_pos_bound; lia).
  rewrite (IntFacts.to_i32_small (x mod 2 ^ w)) by lia.
  destruct (Z.leb_spec (2 ^ (w - 1)) (x mod 2 ^ w)) as [Hhi | Hlo].
  - rewrite IntFacts.to_i32_small by lia.
    destruct (Z.lt_ge_cases x 0) as [Hneg | Hpos].
    + rewrite <- (Z.mod_add x 1 (2 ^ w)) by lia.
      rewrite Z.mod_small by lia. lia.
    + rewrite Z.mod_small in Hhi by lia. lia.
  - destruct (Z.lt_ge_cases x 0) as [Hneg | Hpos].
    + rewrite <- (Z.mod_add x 1 (2 ^ w)) in Hlo by lia.
      rewrite Z.mod_small in Hlo by lia. lia.
    + apply Z.mod_small. lia.
Qed.

End BlockChangeFacts.

(** C9. For every block position with [|x| < 2^25], [|z| < 2^25] and
    [|y| < 2^11], decoding the 64-bit word that [BlockChangePacket::write]
    packs returns the position, negative coordinates included. *)
Theorem block_position_roundtrip (p : Position) :
  - 2 ^ 25 < pos_x p < 2 ^ 25 ->
  - 2 ^ 25 < pos_z p < 2 ^ 25 ->
  - 2 ^ 11 < pos_y p < 2 ^ 11 ->
  BlockChangePacket.decode_pos (BlockChangePacket.encode_pos p) = p.
Proof.
  intros Hx Hz Hy. destruct p as [x y z]. cbn [pos_x pos_y pos_z] in *.
  rewrite BlockChangeFacts.encode_pos_sum. cbn [pos_x pos_y pos_z].
  pose proof (Z.mod_pos_bound x (2 ^ 26) ltac:(lia)) as HX.
  pose proof (Z.mod_pos_bound z (2 ^ 26) ltac:(lia)) as HZ.
  pose proof (Z.mod_pos_bound y (2 ^ 12) ltac:(lia)) as HY.
  unfold BlockChangePacket.decode_pos.
  rewrite BlockChangeFacts.land_26, BlockChangeFacts.land_12.
  rewrite !Z.shiftr_div_pow2 by lia.
  set (E := x mod 2 ^ 26 * 2 ^ 38 + z mod 2 ^ 26 * 2 ^ 12 + y mod 2 ^ 12).
  assert (HEx : E / 2 ^ 38 = x mod 2 ^ 26)
    by (unfold E; Z.div_mod_to_equations; lia).
  assert (HEz : (E / 2 ^ 12) mod 2 ^ 26 = z mod 2 ^ 26)
    by (unfold E; Z.div_mod_to_equations; lia).
  assert (HEy : E mod 2 ^ 12 = y mod 2 ^ 12)
    by (unfold E; Z.div_mod_to_equations; lia).
  rewrite HEx, HEz, HEy.
  pose proof (BlockChangeFacts.sign_extend 26 x ltac:(lia) ltac:(lia)) as Sx.
  pose proof (BlockChangeFacts.sign_extend 26 z ltac:(lia) ltac:(lia)) as Sz.
  pose proof (BlockChangeFacts.sign_extend 12 y ltac:(lia) ltac:(lia)) as Sy.
  cbv zeta in Sx, Sz, Sy.
  change (2 ^ (26 - 1)) with 0x2000000 in *. change (2 ^ (12 - 1)) with 0x800 in *.
  change (2 ^ 26) with 0x4000000 in *. change (2 ^ 12) with 0x1000 in *.
  rewrite Sx, Sz, Sy. reflexivity.
Qed.

Lemma block_position_roundtrip_witness :
  let p := {| pos_x := -1000; pos_y := -64; pos_z := 33554431 |} in
  - 2 ^ 25 < pos_x p < 2 ^ 25
  /\ - 2 ^ 25 < pos_z p < 2 ^ 25
  /\ - 2 ^ 11 < pos_y p < 2 ^ 11
  /\ BlockChangePacket.decode_pos (BlockChangePacket.encode_pos p) = p.
Proof.
  cbv zeta.
  assert (Hx : - 2 ^ 25 < -1000 < 2 ^ 25) by lia.
  assert (Hz : - 2 ^ 25 < 33554431 < 2 ^ 25) by lia.
  assert (Hy : - 2 ^ 11 < -64 < 2 ^ 11) by lia.
  split; [exact Hx | split; [exact Hz | split; [exact Hy |]]].
  exact (block_position_roundtrip
           {| pos_x := -1000; pos_y := -64; pos_z := 33554431 |} Hx Hz Hy).
Defined.

(** C8 (the code falls short of it).  A string whose length prefix says 5
    while only 2 bytes follow: [read_varint] decodes 5, two bytes remain,
    and [read_string] returns normally, with the two bytes and three NULs
    instead of an underflow error. *)
Theorem read_string_short_body :
  let b := Buffer.view [0x05; 0x61; 0x62] 3 in
  let after_length := snd (Buffer.read_varint b) in
  fst (Buffer.read_varint b) = Ok 5
  /\ Buffer.readable after_length = 2%nat
  /\ fst (Buffer.read_string b) = Ok [0x61; 0x62; 0; 0; 0]
  /\ Buffer.readable (snd (Buffer.read_string b)) = 0%nat.
Proof. vm_compute. repeat split. Qed.

(** ** Connections: the frame loop and the phase machine *)

Module ConnectionFacts.
Import Connection.

Lemma send_packet_read_buffer p c : read_buffer_ (send_packet p c) = read_buffer_ c.
Proof. unfold send_packet. destruct (closed_ c); reflexivity. Qed.

Lemma send_packet_state p c : state_ (send_packet p c) = state_ c.
Proof. unfold send_packet. destruct (closed_ c); reflexivity. Qed.

(** No packet handler touches the accumulation buffer. *)
Lemma handle_packet_read_buffer env p c :
  read_buffer_ (handle_packet env p c) = read_buffer_ c.
Proof.
  unfold handle_packet, handle_handshake_packet, handle_status_packet,
    handle_login_packet, handle_play_packet.
  repeat match goal with
         | |- context [if ?b then _ else _] => destruct b
         | |- context [match ?p with HandshakePacket _ _ _ _ => _ | _ => _ end] =>
             destruct p
         end;
    cbn [read_buffer_ close set_state set_profile set_location submit_play_init];
    rewrite ?send_packet_read_buffer; reflexivity.
Qed.

Lemma process_packet_read_buffer env pb c :
  read_buffer_ (snd (process_packet env pb c)) = read_buffer_ c.
Proof.
  unfold process_packet.
  destruct (Buffer.read_varint pb) as [[id | e] pb']; [| reflexivity].
  destruct (PacketManager.create_packet _ _ _ _) as [k |]; [| reflexivity].
  destruct (PacketRead.read k) as [rd |]; [| reflexivity].
  destruct (rd pb') as [[p | e] pb'']; [| reflexivity].
  apply handle_packet_read_buffer.
Qed.

(** What a round that ran [process_packet] leaves behind: the cursor of
    the accumulation buffer is where [read_varint] left it, just after the
    length prefix, and the buffer handed to the decoder views the memory
    at offset [size()], past the received bytes. *)
Lemma frame_round_consumed env c packet_data c' :
  frame_round env c = Consumed packet_data c' ->
  exists packet_length rb,
    Buffer.read_varint (read_buffer_ c) = (Ok packet_length, rb)
    /\ Int.to_size_t packet_length <= Z.of_nat (Buffer.readable rb)
    /\ read_buffer_ c' = rb
    /\ packet_data
       = Buffer.view (drop (Buffer.size_ (read_buffer_ c)) (Buffer.data_ rb))
           (Z.to_nat packet_length).
Proof.
  unfold frame_round.
  destruct (Buffer.read_varint (read_buffer_ c)) as [[len | e] rb]; [| discriminate].
  destruct (Z.ltb_spec (Z.of_nat (Buffer.readable rb)) (Int.to_size_t len));
    [discriminate |].
  destruct (process_packet env _ (set_read_buffer rb c)) as [[u | e] c2] eqn:Hpp;
    [| discriminate].
  intros Heq. inversion Heq; subst. exists len, rb.
  split; [reflexivity | split; [lia | split; [| reflexivity]]].
  change c' with (snd (Ok u, c')). rewrite <- Hpp.
  rewrite process_packet_read_buffer. reflexivity.
Qed.

(** A well-formed handshake sets the phase to whatever [next_state] says. *)
Lemma handshake_sets_next_state addr port next c :
  state_ (handle_handshake_packet
            (HandshakePacket MINECRAFT_PROTOCOL_VERSION addr port next) c) = next.
Proof. reflexivity. Qed.

(** Past the handshake the phase only ever goes from LOGIN to PLAY. *)
Lemma phase_after_handshake env p c :
  state_ c <> ConnectionState.HANDSHAKING ->
  state_ (handle_packet env p c) = state_ c
  \/ (state_ c = ConnectionState.LOGIN
      /\ state_ (handle_packet env p c) = ConnectionState.PLAY).
Proof.
  intros Hne. unfold handle_packet.
  destruct (Z.eqb_spec (state_ c) ConnectionState.HANDSHAKING); [contradiction |].
  destruct (Z.eqb_spec (state_ c) ConnectionState.STATUS).
  { left. destruct p; cbn [handle_status_packet close state_];
      rewrite ?send_packet_state; reflexivity. }
  destruct (Z.eqb_spec (state_ c) ConnectionState.LOGIN) as [Hlogin |].
  { destruct p; try (left; reflexivity). cbn [handle_login_packet].
    destruct (negb _); [left; reflexivity |].
    destruct (player_online env _); [left; reflexivity |].
    right. split; [exact Hlogin | reflexivity]. }
  destruct (Z.eqb_spec (state_ c) ConnectionState.PLAY); [| left; reflexivity].
  left. destruct p; reflexivity.
Qed.

End ConnectionFacts.

(** C2 (the code falls short of it).  A fresh connection whose block of
    memory holds zeros receives one complete Handshake frame of 17 bytes.
    The round of the frame loop that consumes it leaves the read cursor at
    1, just after the length prefix, not at the frame's end 17; the
    decoder is handed the 16 bytes of memory that follow the received
    data, not the 16 bytes of the frame, and so closes the connection. *)
Theorem frame_round_misses_the_frame :
  let junk := fun _ : nat => 0 in
  let frame := Examples.handshake_frame 1 in
  let c0 := Connection.create junk in
  let c1 := Connection.set_read_buffer
              (Buffer.write junk frame (Connection.read_buffer_ c0)) c0 in
  match Connection.frame_round Examples.env c1 with
  | Connection.Consumed packet_data c2 =>
      Buffer.size_ (Connection.read_buffer_ c2) = 17%nat
      /\ Buffer.read_pos_ (Connection.read_buffer_ c2) = 1%nat
      /\ Buffer.contents packet_data = repeat 0 16
      /\ Buffer.contents packet_data <> tail frame
      /\ Connection.state_ c2 = ConnectionState.HANDSHAKING
      /\ Connection.closed_ c2 = true
  | _ => False
  end.
Proof. vm_compute. repeat split; discriminate. Qed.

(** C4 (the code falls short of it).  A Handshake with protocol 763 and
    [next_state = 3] takes a fresh connection from HANDSHAKING straight to
    PLAY, and one with [next_state = 7] to a value that is none of the
    four phases; neither closes the connection. *)
Theorem handshake_next_state_unchecked :
  let c0 := Connection.create (fun _ => 0) in
  let after next :=
    snd (Connection.process_packet Examples.env
           (Buffer.view (tail (Examples.handshake_frame next)) 16) c0) in
  Connection.state_ c0 = ConnectionState.HANDSHAKING
  /\ Connection.state_ (after 3) = ConnectionState.PLAY
  /\ Connection.closed_ (after 3) = false
  /\ Connection.state_ (after 7) = 7
  /\ Connection.closed_ (after 7) = false.
Proof. vm_compute. repeat split. Qed.

(** ** Big-endian integers and the chunk codec *)

Module CodecFacts.
Import Buffer BufferFacts.

Section Pool.
Variable junk : nat -> Z.

Lemma appends_id : appends (fun b => b) [].
Proof.
  intros b Hwf.
  split; [exact Hwf | split; [symmetry; apply app_nil_r | split; [simpl; lia |]]].
  reflexivity.
Qed.

Lemma appends_comp f g x y :
  appends f x -> appends g y -> appends (fun b => g (f b)) (x ++ y).
Proof.
  intros Hf Hg b Hwf.
  destruct (Hf b Hwf) as (F1 & F2 & F3 & F4).
  destruct (Hg (f b) F1) as (G1 & G2 & G3 & G4).
  split4; [exact G1 | | | congruence].
  - rewrite G2, F2, app_assoc. reflexivity.
  - rewrite G3, F3, length_app. lia.
Qed.

Lemma appends_write bytes : appends (write junk bytes) bytes.
Proof. intros b Hwf. apply write_spec. exact Hwf. Qed.

Lemma appends_write_byte x : appends (write_byte junk x) [x].
Proof. apply appends_write. Qed.

Lemma write_be_loop_appends i value :
  appends (write_be_loop junk i value) (be_bytes_loop i value).
Proof.
  induction i as [| i IH]; cbn [write_be_loop be_bytes_loop].
  - apply appends_id.
  - apply (appends_comp (write_byte junk _) (write_be_loop junk i value) [_]).
    + apply appends_write_byte.
    + exact IH.
Qed.

Lemma write_be_appends n value : appends (write_be junk n value) (be_bytes n value).
Proof.
  destruct n as [| [| n]].
  - apply appends_id.
  - apply appends_write_byte.
  - apply write_be_loop_appends.
Qed.

(** A loop whose rounds append appends the concatenation. *)
Lemma fold_left_appends {A} (f : t -> A -> t) (g : A -> list Z) (l : list A) :
  (forall a, appends (fun b => f b a) (g a)) ->
  appends (fun b => fold_left f l b) (flat_map g l).
Proof.
  intros Hf. induction l as [| a l IH]; cbn [fold_left flat_map].
  - apply appends_id.
  - apply (appends_comp (fun b => f b a) (fun b => fold_left f l b)).
    + apply Hf.
    + exact IH.
Qed.

Lemma serialize_section_appends section :
  appends (WorldPersistence.serialize_section junk section)
          (WorldPersistence.section_bytes section).
Proof.
  intros b Hwf. destruct section as [s |];
    cbn [WorldPersistence.serialize_section WorldPersistence.section_bytes].
  2: { apply appends_write_byte. exact Hwf. }
  pose proof (appends_write_byte 1 b Hwf) as (W1 & C1 & S1 & R1).
  pose proof (write_be_appends 2 (ChunkSection.block_count s) _ W1)
    as (W2 & C2 & S2 & R2).
  pose proof (fold_left_appends
                (fun buffer i =>
                   let '(x, y, z) := WorldPersistence.block_coords i in
                   Buffer.write_be junk 2 (ChunkSection.get_block s x y z) buffer)
                (fun i => let '(x, y, z) := WorldPersistence.block_coords i in
                          Buffer.be_bytes 2 (ChunkSection.get_block s x y z))
                (seqZ 0 ChunkSection.BLOCKS_PER_SECTION)) as Hfold.
  destruct (Hfold (fun i => write_be_appends 2 _) _ W2) as (W3 & C3 & S3 & R3).
  pose proof (appends_write (ChunkSection.block_light s) _ W3) as (W4 & C4 & S4 & R4).
  pose proof (appends_write (ChunkSection.sky_light s) _ W4) as (W5 & C5 & S5 & R5).
  split4; [exact W5 | | | congruence].
  - rewrite C5, C4, C3, C2, C1, <- !app_assoc. reflexivity.
  - rewrite S5, S4, S3, S2, S1, !length_app. cbn [length]. lia.
Qed.

Lemma serialize_chunk_appends chunk :
  appends (WorldPersistence.serialize_chunk junk chunk)
          (WorldPersistence.chunk_bytes chunk).
Proof.
  unfold WorldPersistence.serialize_chunk, WorldPersistence.chunk_bytes.
  apply (appends_comp
           (Buffer.write_be junk 4
              (Int.to_i32 (Z.of_nat (length (Chunk.get_sections chunk)))))
           (fun b => fold_left
                       (fun buffer section =>
                          WorldPersistence.serialize_section junk section buffer)
                       (Chunk.get_sections chunk) b)).
  - apply write_be_appends.
  - apply (fold_left_appends
             (fun buffer section => WorldPersistence.serialize_section junk section buffer)
             WorldPersistence.section_bytes).
    intros section. apply serialize_section_appends.
Qed.

End Pool.

(** *** Reading: what is there to read is read *)

Lemma advance_0 b : advance 0 b = b.
Proof. destruct b. unfold advance. simpl. f_equal. lia. Qed.

Lemma advance_eq n m b : n = m -> advance n b = advance m b.
Proof. intros ->. reflexivity. Qed.

Lemma readable_advance n b : readable (advance n b) = (readable b - n)%nat.
Proof. unfold readable. simpl. lia. Qed.

Lemma read_byte_ok b :
  (1 <= readable b)%nat -> exists x, read_byte b = (Ok x, advance 1 b).
Proof.
  unfold readable, read_byte. intros H.
  destruct (Nat.leb_spec (size_ b) (read_pos_ b)); [lia |]. eauto.
Qed.

Lemma read_be_loop_ok conv i : forall acc b,
  (i <= readable b)%nat ->
  exists v, read_be_loop conv i acc b = (Ok v, advance i b).
Proof.
  induction i as [| i IH]; intros acc b Hi; cbn [read_be_loop].
  - exists acc. unfold ret. rewrite advance_0. reflexivity.
  - destruct (read_byte_ok b ltac:(lia)) as [x Hx].
    unfold bind. rewrite Hx.
    destruct (IH (conv (Z.lor (Z.shiftl acc 8) x)) (advance 1 b)) as [v Hv].
    + rewrite readable_advance. lia.
    + exists v. rewrite Hv, advance_advance. reflexivity.
Qed.

Lemma read_be_ok conv n b :
  (n <= readable b)%nat ->
  exists v, read_be conv n b = (Ok v, advance n b).
Proof.
  intros Hn. destruct n as [| [| n]].
  - apply read_be_loop_ok. exact Hn.
  - cbn [read_be]. destruct (read_byte_ok b Hn) as [x Hx].
    unfold bind, ret. rewrite Hx. eauto.
  - apply read_be_loop_ok. exact Hn.
Qed.

Lemma set_block_lights x y z block s :
  ChunkSection.block_light (ChunkSection.set_block x y z block s)
  = ChunkSection.block_light s
  /\ ChunkSection.sky_light (ChunkSection.set_block x y z block s)
     = ChunkSection.sky_light s.
Proof.
  unfold ChunkSection.set_block. cbv zeta.
  destruct (ChunkSection.in_range _); split; reflexivity.
Qed.

Lemma read_blocks_ok indices : forall section b,
  (2 * length indices <= readable b)%nat ->
  exists section',
    WorldPersistence.read_blocks indices section b
    = (Ok section', advance (2 * length indices) b)
    /\ ChunkSection.block_light section' = ChunkSection.block_light section
    /\ ChunkSection.sky_light section' = ChunkSection.sky_light section.
Proof.
  induction indices as [| i indices IH]; intros section b Hlen;
    cbn [WorldPersistence.read_blocks length] in *.
  - exists section. unfold ret. rewrite advance_0. auto.
  - destruct (read_be_ok Int.to_u16 2 b ltac:(lia)) as [v Hv].
    unfold bind. rewrite Hv.
    destruct (WorldPersistence.block_coords i) as [[x y] z].
    destruct (IH (ChunkSection.set_block x y z v section) (advance 2 b))
      as (section' & Hrd & Hbl & Hsl).
    + rewrite readable_advance. lia.
    + destruct (set_block_lights x y z v section) as [Gbl Gsl].
      exists section'. rewrite Hrd, advance_advance.
      split; [| split; congruence].
      f_equal. apply advance_eq. lia.
Qed.

Lemma read_into_ok old b :
  (length old <= readable b)%nat ->
  exists l, WorldPersistence.read_into old b = (Ok l, advance (length old) b).
Proof.
  intros Hlen. unfold WorldPersistence.read_into, read.
  fold (readable b). rewrite Nat.min_l by exact Hlen. eauto.
Qed.

(** A section record takes 12290 bytes after its presence byte; with
    that many to read, [read_section] reads them all and returns. *)
Lemma read_section_ok b :
  (Z.to_nat 12290 <= readable b)%nat ->
  exists section,
    WorldPersistence.read_section b = (Ok section, advance (Z.to_nat 12290) b).
Proof.
  intros Hlen. unfold WorldPersistence.read_section. cbv zeta.
  destruct (read_be_ok Int.to_i16 2 b ltac:(lia)) as [count Hcount].
  unfold bind at 1. rewrite Hcount.
  set (fresh := ChunkSection.mk _ _ _ count).
  assert (Hbl : length (ChunkSection.block_light fresh) = Z.to_nat 2048).
  { unfold fresh. cbn [ChunkSection.block_light ChunkSection.create].
    apply repeat_length. }
  assert (Hsl : length (ChunkSection.sky_light fresh) = Z.to_nat 2048).
  { unfold fresh. cbn [ChunkSection.sky_light ChunkSection.create].
    apply repeat_length. }
  assert (Hidx : length (seqZ 0 ChunkSection.BLOCKS_PER_SECTION) = Z.to_nat 4096)
    by apply length_seqZ.
  destruct (read_blocks_ok (seqZ 0 ChunkSection.BLOCKS_PER_SECTION) fresh (advance 2 b))
    as (section & Hrd & Gbl & Gsl).
  { rewrite readable_advance, Hidx. lia. }
  unfold bind at 1. rewrite Hrd.
  destruct (read_into_ok (ChunkSection.block_light section)
              (advance (2 * length (seqZ 0 ChunkSection.BLOCKS_PER_SECTION))
                 (advance 2 b))) as [bl Hrbl].
  { rewrite !readable_advance, Gbl, Hbl, Hidx. lia. }
  unfold bind at 1. rewrite Hrbl.
  destruct (read_into_ok (ChunkSection.sky_light section)
              (advance (length (ChunkSection.block_light section))
                 (advance (2 * length (seqZ 0 ChunkSection.BLOCKS_PER_SECTION))
                    (advance 2 b)))) as [sl Hrsl].
  { rewrite !readable_advance, Gbl, Gsl, Hbl, Hsl, Hidx. lia. }
  unfold bind at 1. rewrite Hrsl. unfold ret.
  eexists. f_equal. rewrite !advance_advance. apply advance_eq.
  rewrite Gbl, Gsl, Hbl, Hsl, Hidx. lia.
Qed.

(** *** The size of what is written *)

Lemma length_be_bytes_loop i v : length (be_bytes_loop i v) = i.
Proof. induction i as [| i IH]; cbn [be_bytes_loop length]; congruence. Qed.

Lemma length_be_bytes n v : length (be_bytes n v) = n.
Proof. destruct n as [| [| n]]; [reflexivity .. | apply length_be_bytes_loop]. Qed.

Lemma length_flat_map_const {A} (g : A -> list Z) (k : nat) (l : list A) :
  (forall a, length (g a) = k) -> length (flat_map g l) = (k * length l)%nat.
Proof.
  intros Hg. induction l as [| a l IH]; cbn [flat_map length]; [lia |].
  rewrite length_app, Hg, IH. lia.
Qed.

(** A section that is there takes its presence byte 1 and 12290 more. *)
Lemma section_bytes_Some s :
  exists body,
    WorldPersistence.section_bytes (Some s) = 1 :: body
    /\ (length (ChunkSection.block_light s) = Z.to_nat 2048 ->
        length (ChunkSection.sky_light s) = Z.to_nat 2048 ->
        length body = Z.to_nat 12290).
Proof.
  eexists. split; [reflexivity |]. intros Hbl Hsl.
  rewrite !length_app, length_be_bytes, Hbl, Hsl.
  rewrite (length_flat_map_const _ 2).
  - rewrite length_seqZ. change ChunkSection.BLOCKS_PER_SECTION with 4096. lia.
  - intros i. destruct (WorldPersistence.block_coords i) as [[x y] z].
    apply length_be_bytes.
Qed.

Lemma length_sections_bytes secs :
  (length secs <= length (flat_map WorldPersistence.section_bytes secs))%nat.
Proof.
  induction secs as [| [s |] secs IH]; cbn [flat_map length]; [lia | |].
  - destruct (section_bytes_Some s) as (body & -> & _).
    rewrite length_app. cbn [length]. lia.
  - cbn [WorldPersistence.section_bytes app length]. lia.
Qed.

(** *** Reading back what was written *)

Lemma read_be_loop_cons conv i acc b x r :
  wf b -> remaining b = x :: r ->
  read_be_loop conv (S i) acc b
  = read_be_loop conv i (conv (Z.lor (Z.shiftl acc 8) x)) (advance 1 b)
  /\ remaining (advance 1 b) = r /\ wf (advance 1 b).
Proof.
  intros Hwf Hrem. destruct (read_byte_cons b x r Hwf Hrem) as (Hrd & Hrem' & Hwf').
  split; [| split]; auto.
  cbn [read_be_loop]. unfold bind. rewrite Hrd. reflexivity.
Qed.

(** The loop of [deserialize_chunk] runs through the records of all the
    sections [serialize_chunk] wrote, and returns the chunk it was given. *)
Lemma deserialize_sections_ok secs : forall fuel s n chunk b rest,
  wf b ->
  remaining b = flat_map WorldPersistence.section_bytes secs ++ rest ->
  (forall x, Some x ∈ secs ->
     length (ChunkSection.block_light x) = Z.to_nat 2048
     /\ length (ChunkSection.sky_light x) = Z.to_nat 2048) ->
  (length secs < fuel)%nat ->
  n = s + Z.of_nat (length secs) ->
  exists b', WorldPersistence.deserialize_sections fuel s n chunk b = (Ok chunk, b').
Proof.
  induction secs as [| sec secs IH]; intros fuel s n chunk b rest Hwf Hrem Hl Hfuel Hn;
    (destruct fuel as [| fuel]; [simpl in Hfuel; lia |]);
    cbn [WorldPersistence.deserialize_sections length] in *.
  - destruct (Z.ltb_spec s n); [lia |]. eexists. reflexivity.
  - destruct (Z.ltb_spec s n); [| lia].
    cbn [flat_map] in Hrem. rewrite <- app_assoc in Hrem.
    assert (Hl' : forall x, Some x ∈ secs ->
              length (ChunkSection.block_light x) = Z.to_nat 2048
              /\ length (ChunkSection.sky_light x) = Z.to_nat 2048).
    { intros x Hx. apply Hl. apply elem_of_cons. right. exact Hx. }
    destruct sec as [x |].
    + destruct (section_bytes_Some x) as (body & Hsb & Hbody).
      rewrite Hsb in Hrem.
      destruct (Hl x) as [Hbl Hsl]; [apply elem_of_cons; left; reflexivity |].
      specialize (Hbody Hbl Hsl).
      destruct (read_byte_cons b 1 _ Hwf Hrem) as (Hrd & Hrem1 & Hwf1).
      unfold bind at 1. rewrite Hrd. change (1 =? 0) with false. cbv iota.
      assert (Hroom : (Z.to_nat 12290 <= readable (advance 1 b))%nat).
      { rewrite <- length_remaining by exact Hwf1.
        rewrite Hrem1, length_app, Hbody. lia. }
      destruct (read_section_ok (advance 1 b) Hroom) as [section Hsec].
      unfold bind at 1. rewrite Hsec.
      apply (IH fuel (s + 1) n chunk _ rest); [| | exact Hl' | lia | lia].
      * apply advance_wf; assumption.
      * rewrite remaining_advance, Hrem1.
        apply drop_app_length'. symmetry. exact Hbody.
    + destruct (read_byte_cons b 0 _ Hwf Hrem) as (Hrd & Hrem1 & Hwf1).
      unfold bind at 1. rewrite Hrd. change (0 =? 0) with true. cbv iota.
      apply (IH fuel (s + 1) n chunk _ rest); [assumption .. | lia | lia].
Qed.

(** [deserialize_chunk] on the bytes of a whole chunk returns, and what
    it returns is the chunk it created at the start, marked loaded. *)
Lemma deserialize_chunk_ok now pos chunk b rest :
  wf b ->
  remaining b = WorldPersistence.chunk_bytes chunk ++ rest ->
  ChunkShape.wf_chunk chunk -> ChunkShape.full_light chunk ->
  exists b',
    WorldPersistence.deserialize_chunk now pos b
    = (Ok (Chunk.set_dirty false (Chunk.set_loaded true (Chunk.create now pos))), b').
Proof.
  intros Hwf Hrem [Hlen _] Hlight.
  unfold WorldPersistence.chunk_bytes, Chunk.get_sections in Hrem.
  rewrite Hlen in Hrem.
  change (be_bytes 4 (Int.to_i32 (Z.of_nat (Z.to_nat world.SECTIONS_PER_CHUNK))))
    with [0; 0; 0; 24] in Hrem.
  destruct (read_be_loop_cons Int.to_i32 3 0 b _ _ Hwf Hrem) as (E1 & Hrem1 & Hwf1).
  destruct (read_be_loop_cons Int.to_i32 2 0 _ _ _ Hwf1 Hrem1) as (E2 & Hrem2 & Hwf2).
  destruct (read_be_loop_cons Int.to_i32 1 0 _ _ _ Hwf2 Hrem2) as (E3 & Hrem3 & Hwf3).
  destruct (read_be_loop_cons Int.to_i32 0 0 _ _ _ Hwf3 Hrem3) as (E4 & Hrem4 & Hwf4).
  change (Int.to_i32 (Z.lor (Z.shiftl 0 8) 0)) with 0 in E1, E2, E3.
  set (b4 := advance 1 (advance 1 (advance 1 (advance 1 b)))) in *.
  assert (Hcount : read_be Int.to_i32 4 b = (Ok 24, b4)).
  { change (read_be Int.to_i32 4 b) with (read_be_loop Int.to_i32 4 0 b).
    rewrite E1, E2, E3, E4. reflexivity. }
  unfold WorldPersistence.deserialize_chunk. cbv zeta.
  unfold bind at 1. rewrite Hcount.
  destruct (deserialize_sections_ok (Chunk.sections_ chunk) (S (readable b4)) 0 24
              (Chunk.create now pos) b4 rest Hwf4 Hrem4 Hlight) as [b' Hd].
  - rewrite <- length_remaining by exact Hwf4. rewrite Hrem4, length_app.
    pose proof (length_sections_bytes (Chunk.sections_ chunk)). lia.
  - rewrite Hlen. reflexivity.
  - exists b'. unfold bind. rewrite Hd. reflexivity.
Qed.

End CodecFacts.

(** ** Decoding what was encoded *)

Module WireFacts.
Import Buffer BufferFacts CodecFacts.

Lemma length_contents b : wf b -> length (contents b) = size_ b.
Proof. intros [Hc Hs Hw Hr]. unfold contents. rewrite length_take. lia. Qed.

(** After the bytes at the cursor are passed, what follows them is left. *)
Lemma advance_reads b bytes rest :
  wf b -> remaining b = bytes ++ rest ->
  wf (advance (length bytes) b) /\ remaining (advance (length bytes) b) = rest.
Proof.
  intros Hwf Hrem. split.
  - apply advance_wf; [exact Hwf |].
    rewrite <- length_remaining by exact Hwf. rewrite Hrem, length_app. lia.
  - rewrite remaining_advance, Hrem. apply drop_app_length.
Qed.

(** A writer that appends, run on a buffer with nothing left to read,
    leaves exactly its bytes to read. *)
Lemma remaining_appended f bytes b :
  appends f bytes -> wf b -> read_pos_ b = size_ b ->
  wf (f b) /\ remaining (f b) = bytes ++ [].
Proof.
  intros Hf Hwf Hrp. destruct (Hf b Hwf) as (W & C & _ & R).
  split; [exact W |]. unfold remaining. rewrite C, R, Hrp, app_nil_r.
  apply drop_app_length'. symmetry. apply length_contents. exact Hwf.
Qed.

Lemma reads_ret {A} (v : A) : reads (ret v) [] v.
Proof. intros b rest _ _. unfold ret. cbn [length]. rewrite advance_0. reflexivity. Qed.

Lemma reads_bind {A B} (r : M A) (k : A -> M B) bs cs v w :
  reads r bs v -> reads (k v) cs w -> reads (bind r k) (bs ++ cs) w.
Proof.
  intros Hr Hk b rest Hwf Hrem. rewrite <- app_assoc in Hrem.
  unfold bind. rewrite (Hr b _ Hwf Hrem).
  destruct (advance_reads b bs _ Hwf Hrem) as [Hwf1 Hrem1].
  rewrite (Hk _ rest Hwf1 Hrem1), advance_advance, length_app. reflexivity.
Qed.

Lemma reads_read_byte x : reads read_byte [x] x.
Proof.
  intros b rest Hwf Hrem. destruct (read_byte_cons b x rest Hwf Hrem) as (H & _).
  exact H.
Qed.

(** [read(dest, len)] when [len] bytes are there. *)
Lemma read_exact b bytes rest :
  wf b -> remaining b = bytes ++ rest ->
  read (length bytes) b = (bytes, advance (length bytes) b).
Proof.
  intros Hwf Hrem. pose proof (length_remaining b Hwf) as Hlen.
  rewrite Hrem, length_app in Hlen. unfold readable in Hlen.
  unfold read. rewrite Nat.min_l by lia. f_equal.
  assert (Hcut : take (length bytes) (drop (read_pos_ b) (data_ b))
                 = take (length bytes) (remaining b)).
  { unfold remaining, contents. rewrite !take_drop_commute, take_take.
    destruct Hwf as [_ _ _ Hr]. f_equal. f_equal. lia. }
  rewrite Hcut, Hrem. apply take_app_length.
Qed.

Section Pool.
Variable junk : nat -> Z.

Lemma appends_write_varint v :
  appends (write_varint junk v) (varint_bytes 5 (Int.to_u32 v)).
Proof. intros b Hwf. apply write_varint_loop_contents. exact Hwf. Qed.

Lemma appends_write_string str :
  appends (write_string junk str)
    (varint_bytes 5 (Int.to_u32 (Int.to_i32 (Z.of_nat (length str)))) ++ str).
Proof.
  apply (appends_comp (write_varint junk _) (write junk str)).
  - apply appends_write_varint.
  - apply appends_write.
Qed.

End Pool.

Lemma reads_read_varint v :
  Int.is_i32 v -> reads read_varint (varint_bytes 5 (Int.to_u32 v)) v.
Proof.
  intros Hv b rest Hwf Hrem.
  pose proof (IntFacts.to_u32_range v) as Hu.
  destruct (read_varint_loop_spec 5 6 (Int.to_u32 v) 0 0 b rest Hwf Hrem)
    as (Hrd & _ & _); try lia.
  unfold read_varint. rewrite Hrd. f_equal. f_equal.
  change (2 ^ 0) with 1. rewrite Z.add_0_l, Z.mul_1_r.
  apply IntFacts.to_i32_to_u32. exact Hv.
Qed.

(** A string of at most 32767 bytes reads back. *)
Lemma reads_read_string str :
  Z.of_nat (length str) <= 32767 ->
  reads read_string
    (varint_bytes 5 (Int.to_u32 (Int.to_i32 (Z.of_nat (length str)))) ++ str) str.
Proof.
  intros Hlen b rest Hwf Hrem. rewrite <- app_assoc in Hrem.
  assert (Hi : Int.to_i32 (Z.of_nat (length str)) = Z.of_nat (length str)).
  { apply IntFacts.to_i32_small. change (2 ^ 31) with 2147483648. lia. }
  rewrite Hi in *.
  assert (Hv : Int.is_i32 (Z.of_nat (length str))).
  { unfold Int.is_i32. change (2 ^ 31) with 2147483648. lia. }
  pose proof (reads_read_varint _ Hv b _ Hwf Hrem) as Hrd.
  destruct (advance_reads b _ _ Hwf Hrem) as [Hwf1 Hrem1].
  unfold read_string, bind. rewrite Hrd.
  destruct (Z.ltb_spec (Z.of_nat (length str)) 0); [lia |].
  destruct (Z.ltb_spec 32767 (Z.of_nat (length str))); [lia |].
  cbn [orb]. rewrite Nat2Z.id.
  rewrite (read_exact _ str rest Hwf1 Hrem1).
  rewrite Nat.sub_diag, app_nil_r, advance_advance, length_app. reflexivity.
Qed.

(** *** Big-endian integers *)

Lemma to_signed_small w x :
  0 < w -> - 2 ^ (w - 1) <= x < 2 ^ (w - 1) -> Int.to_signed w x = x.
Proof.
  intros Hw Hx. unfold Int.to_signed. cbv zeta.
  assert (Hp : 2 ^ w = 2 * 2 ^ (w - 1)).
  { replace w with (Z.succ (w - 1)) at 1 by lia. apply Z.pow_succ_r. lia. }
  assert (0 < 2 ^ (w - 1)) by (apply Z.pow_pos_nonneg; lia).
  destruct (Z.lt_ge_cases x 0) as [Hneg | Hpos].
  - replace (x mod 2 ^ w) with (x + 2 ^ w).
    + destruct (Z.ltb_spec (x + 2 ^ w) (2 ^ (w - 1))); lia.
    + symmetry. rewrite <- (Z.mod_add x 1 (2 ^ w)) by lia.
      rewrite Z.mul_1_l. apply Z.mod_small. lia.
  - rewrite Z.mod_small by lia.
    destruct (Z.ltb_spec x (2 ^ (w - 1))); lia.
Qed.

Lemma to_signed_mod w x :
  0 <= w -> Int.to_signed w (x mod 2 ^ w) = Int.to_signed w x.
Proof.
  intros Hw. unfold Int.to_signed. cbv zeta.
  assert (0 < 2 ^ w) by (apply Z.pow_pos_nonneg; lia).
  rewrite Z.mod_mod by lia. reflexivity.
Qed.

(** One round of the loop of [read_be]: the byte read is the next lower
    byte of [v]. *)
Lemma be_step v i k :
  0 <= i -> 0 <= k ->
  Z.lor (Z.shiftl (Z.shiftr v (8 * (i + 1)) mod 2 ^ (8 * k)) 8)
        (Int.to_u8 (Z.shiftr v (8 * i)))
  = Z.shiftr v (8 * i) mod 2 ^ (8 * (k + 1)).
Proof.
  intros Hi Hk. unfold Int.to_u8, Int.to_unsigned.
  rewrite Z.shiftl_mul_pow2 by lia. rewrite Z.lor_comm.
  rewrite IntFacts.lor_disjoint_add
    by (try lia; apply Z.mod_pos_bound; reflexivity).
  replace (8 * (i + 1)) with (8 * i + 8) by lia.
  rewrite <- Z.shiftr_shiftr by lia.
  set (V := Z.shiftr v (8 * i)).
  rewrite (Z.shiftr_div_pow2 V 8) by lia.
  replace (8 * (k + 1)) with (8 + 8 * k) by lia.
  rewrite Z.pow_add_r by lia.
  assert (0 < 2 ^ (8 * k)) by (apply Z.pow_pos_nonneg; lia).
  rewrite Z.rem_mul_r by lia. lia.
Qed.

Lemma read_be_ge2 conv n :
  (2 <= n)%nat -> read_be conv n = read_be_loop conv n 0.
Proof. destruct n as [| [| n]]; [lia | lia | reflexivity]. Qed.

Lemma be_bytes_ge2 n v : (2 <= n)%nat -> be_bytes n v = be_bytes_loop n v.
Proof. destruct n as [| [| n]]; [lia | lia | reflexivity]. Qed.

Section BigEndian.
Variable conv : Z -> Z.
Variable n : nat.
Hypothesis Hn : (1 <= n)%nat.
Hypothesis conv_small :
  forall x, 0 <= x < 2 ^ (8 * (Z.of_nat n - 1)) -> conv x = x.

Lemma read_be_loop_spec v : forall i acc b rest,
  (1 <= i <= n)%nat -> wf b ->
  remaining b = be_bytes_loop i v ++ rest ->
  acc = Z.shiftr v (8 * Z.of_nat i) mod 2 ^ (8 * Z.of_nat (n - i)) ->
  read_be_loop conv i acc b
  = (Ok (conv (v mod 2 ^ (8 * Z.of_nat n))), advance i b).
Proof.
  induction i as [| i IH]; intros acc b rest Hi Hwf Hrem Hacc; [lia |].
  cbn [be_bytes_loop] in Hrem. rewrite <- app_comm_cons in Hrem.
  destruct (read_be_loop_cons conv i acc b _ _ Hwf Hrem) as (E & Hrem1 & Hwf1).
  rewrite E.
  assert (Hstep : Z.lor (Z.shiftl acc 8) (Int.to_u8 (Z.shiftr v (Z.of_nat i * 8)))
                  = Z.shiftr v (8 * Z.of_nat i) mod 2 ^ (8 * Z.of_nat (n - i))).
  { subst acc. replace (Z.of_nat i * 8) with (8 * Z.of_nat i) by lia.
    replace (Z.of_nat (S i)) with (Z.of_nat i + 1) by lia.
    replace (Z.of_nat (n - i)) with (Z.of_nat (n - S i) + 1) by lia.
    apply be_step; lia. }
  rewrite Hstep.
  destruct i as [| i].
  - cbn [read_be_loop]. unfold ret.
    change (8 * Z.of_nat 0) with 0. rewrite Z.shiftr_0_r, Nat.sub_0_r.
    reflexivity.
  - assert (Hbound : 0 <= Z.shiftr v (8 * Z.of_nat (S i))
                          mod 2 ^ (8 * Z.of_nat (n - S i))
                     < 2 ^ (8 * (Z.of_nat n - 1))).
    { assert (0 < 2 ^ (8 * Z.of_nat (n - S i))) by (apply Z.pow_pos_nonneg; lia).
      pose proof (Z.mod_pos_bound (Z.shiftr v (8 * Z.of_nat (S i)))
                    (2 ^ (8 * Z.of_nat (n - S i))) ltac:(lia)).
      assert (2 ^ (8 * Z.of_nat (n - S i)) <= 2 ^ (8 * (Z.of_nat n - 1)))
        by (apply Z.pow_le_mono_r; lia).
      lia. }
    rewrite (conv_small _ Hbound).
    rewrite (IH _ _ rest); [| lia | exact Hwf1 | exact Hrem1 | reflexivity].
    rewrite advance_advance. reflexivity.
Qed.

(** [read_be] on the bytes [write_be] wrote for [v] gives the conversion
    of [v] to the type. *)
Lemma reads_read_be v :
  reads (read_be conv n) (be_bytes n v) (conv (v mod 2 ^ (8 * Z.of_nat n))).
Proof.
  intros b rest Hwf Hrem. rewrite length_be_bytes.
  destruct (Nat.eq_dec n 1%nat) as [E | E].
  - rewrite E in Hrem |- *. cbn [be_bytes read_be] in *.
    destruct (read_byte_cons b _ _ Hwf Hrem) as (Hrd & _).
    unfold bind, ret. rewrite Hrd. reflexivity.
  - rewrite read_be_ge2, be_bytes_ge2 in * by lia.
    apply (read_be_loop_spec v n 0 b rest); [lia | exact Hwf | exact Hrem |].
    rewrite Nat.sub_diag. change (2 ^ (8 * Z.of_nat 0)) with 1.
    symmetry. apply Z.mod_1_r.
Qed.

End BigEndian.

Lemma reads_unsigned_be n v :
  (1 <= n)%nat -> 0 <= v < 2 ^ (8 * Z.of_nat n) ->
  reads (read_be (Int.to_unsigned (8 * Z.of_nat n)) n) (be_bytes n v) v.
Proof.
  intros Hn Hv.
  pose proof (reads_read_be (Int.to_unsigned (8 * Z.of_nat n)) n Hn) as H.
  assert (Hsmall : forall x, 0 <= x < 2 ^ (8 * (Z.of_nat n - 1)) ->
                     Int.to_unsigned (8 * Z.of_nat n) x = x).
  { intros x Hx. unfold Int.to_unsigned. apply Z.mod_small.
    assert (2 ^ (8 * (Z.of_nat n - 1)) <= 2 ^ (8 * Z.of_nat n))
      by (apply Z.pow_le_mono_r; lia). lia. }
  specialize (H Hsmall v).
  assert (E : Int.to_unsigned (8 * Z.of_nat n) (v mod 2 ^ (8 * Z.of_nat n)) = v)
    by (unfold Int.to_unsigned; rewrite Z.mod_mod by lia; apply Z.mod_small; lia).
  rewrite E in H. exact H.
Qed.

Lemma reads_signed_be n v :
  (1 <= n)%nat ->
  - 2 ^ (8 * Z.of_nat n - 1) <= v < 2 ^ (8 * Z.of_nat n - 1) ->
  reads (read_be (Int.to_signed (8 * Z.of_nat n)) n) (be_bytes n v) v.
Proof.
  intros Hn Hv.
  pose proof (reads_read_be (Int.to_signed (8 * Z.of_nat n)) n Hn) as H.
  assert (Hsmall : forall x, 0 <= x < 2 ^ (8 * (Z.of_nat n - 1)) ->
                     Int.to_signed (8 * Z.of_nat n) x = x).
  { intros x Hx. apply to_signed_small; [lia |].
    assert (2 ^ (8 * (Z.of_nat n - 1)) <= 2 ^ (8 * Z.of_nat n - 1))
      by (apply Z.pow_le_mono_r; lia).
    assert (0 < 2 ^ (8 * Z.of_nat n - 1)) by (apply Z.pow_pos_nonneg; lia).
    lia. }
  specialize (H Hsmall v).
  rewrite to_signed_mod in H by lia. rewrite to_signed_small in H by (try exact Hv; lia).
  exact H.
Qed.

(** *** VarLong *)

Lemma to_signed_high w x :
  0 < w -> 2 ^ (w - 1) <= x < 2 ^ w -> Int.to_signed w x = x - 2 ^ w.
Proof.
  intros Hw Hx. unfold Int.to_signed. cbv zeta.
  rewrite Z.mod_small by lia.
  destruct (Z.ltb_spec x (2 ^ (w - 1))); [lia | reflexivity].
Qed.

(** The group a round of [read_varlong] shifts into place may reach the
    sign bit; the accumulated value is the wrapped sum. *)
Lemma signed_last_group w r u s :
  0 <= s < w -> 0 <= r < 2 ^ s -> 0 <= u < 2 ^ (w - s) ->
  Z.lor r (Int.to_signed w (u * 2 ^ s)) = Int.to_signed w (r + u * 2 ^ s).
Proof.
  intros Hs Hr Hu.
  assert (Hsplit : 2 ^ (w - 1) = 2 ^ s * 2 ^ (w - 1 - s))
    by (rewrite <- Z.pow_add_r by lia; f_equal; lia).
  assert (Hq : 2 ^ (w - s) = 2 * 2 ^ (w - 1 - s))
    by (replace (w - s) with (Z.succ (w - 1 - s)) by lia;
        rewrite Z.pow_succ_r by lia; reflexivity).
  assert (Hw : 2 ^ w = 2 * 2 ^ (w - 1))
    by (replace w with (Z.succ (w - 1)) at 1 by lia;
        rewrite Z.pow_succ_r by lia; reflexivity).
  assert (HP : 0 < 2 ^ s) by (apply Z.pow_pos_nonneg; lia).
  assert (HH : 0 < 2 ^ (w - 1 - s)) by (apply Z.pow_pos_nonneg; lia).
  set (P := 2 ^ s) in *. set (H := 2 ^ (w - 1 - s)) in *.
  rewrite Hq in Hu.
  assert (Hww : 0 < w) by lia.
  destruct (Z.lt_ge_cases (u * P) (2 ^ (w - 1))) as [Hlo | Hhi].
  - assert (Hu' : u < H) by (rewrite Hsplit in Hlo; nia).
    assert (Hsum : r + u * P < 2 ^ (w - 1)) by (rewrite Hsplit; nia).
    rewrite (to_signed_small w (u * P) Hww) by nia.
    rewrite (to_signed_small w (r + u * P) Hww) by nia.
    unfold P. apply IntFacts.lor_disjoint_add; lia.
  - assert (Hu' : H <= u) by (rewrite Hsplit in Hhi; nia).
    assert (Hsum : r + u * P < 2 ^ w) by (rewrite Hw, Hsplit; nia).
    assert (Htop : u * P < 2 ^ w) by nia.
    rewrite (to_signed_high w (u * P) Hww) by lia.
    rewrite (to_signed_high w (r + u * P) Hww) by lia.
    replace (u * P - 2 ^ w) with ((u - 2 * H) * P) by (rewrite Hw, Hsplit; nia).
    unfold P. rewrite IntFacts.lor_disjoint_add by lia. fold P.
    rewrite Hw, Hsplit. nia.
Qed.

(** Reading back, with [read_varlong], what the loop of the writers
    wrote: [r] holds the [s] bits already decoded, [u] is what the writer
    still had to emit. *)
Lemma read_varlong_loop_spec fw : forall fr u r s b tail,
  wf b -> remaining b = varint_bytes fw u ++ tail ->
  0 <= s < 64 -> 0 <= r < 2 ^ s -> 0 <= u < 2 ^ (64 - s) ->
  u < 2 ^ (7 * Z.of_nat fw + 7) ->
  (1 <= fr)%nat -> u < 2 ^ (7 * Z.of_nat fr) ->
  read_varlong_loop fr r s b
  = (Ok (Int.to_i64 (r + u * 2 ^ s)), advance (length (varint_bytes fw u)) b).
Proof.
  assert (Hlast : forall fr u r s b tail,
    wf b -> remaining b = Int.to_u8 u :: tail ->
    0 <= s < 64 -> 0 <= r < 2 ^ s -> 0 <= u < 2 ^ (64 - s) ->
    u < 128 -> (1 <= fr)%nat ->
    read_varlong_loop fr r s b = (Ok (Int.to_i64 (r + u * 2 ^ s)), advance 1 b)).
  { intros fr u r s b tail Hwf Hrem Hs Hr Hu Hsmall Hfr.
    rewrite IntFacts.to_u8_small in Hrem by lia.
    destruct (read_byte_cons b u tail Hwf Hrem) as (Hrd & Hrem' & Hwf').
    destruct fr as [| fr]; [lia |].
    cbn [read_varlong_loop]. destruct (Z.leb_spec 64 s); [lia |].
    unfold bind. rewrite Hrd.
    rewrite IntFacts.final_flag by lia. simpl negb. cbv iota. unfold ret.
    rewrite IntFacts.land_0x7F, Z.mod_small by lia.
    rewrite Z.shiftl_mul_pow2 by lia.
    unfold Int.to_i64. rewrite signed_last_group by lia. reflexivity. }
  induction fw as [| fw IH]; intros fr u r s b tail Hwf Hrem Hs Hr Hu Hfw Hfr Hufr;
    cbn [varint_bytes] in *.
  - eapply Hlast; eauto.
  - destruct (Z.leb_spec 0x80 u) as [Hbig | Hsmall]; [| eapply Hlast; eauto].
    cbn [length]. rewrite <- app_comm_cons in Hrem.
    destruct (read_byte_cons b _ _ Hwf Hrem) as (Hrd & Hrem' & Hwf').
    destruct fr as [| fr]; [lia |].
    assert (Hs56 : s <= 56).
    { destruct (Z.le_gt_cases s 56) as [|Hgt]; [assumption | exfalso].
      assert (2 ^ (64 - s) <= 2 ^ 7) by (apply Z.pow_le_mono_r; lia).
      change (2 ^ 7) with 128 in *. lia. }
    assert (Hfr1 : (1 <= fr)%nat).
    { destruct fr; [| lia]. change (2 ^ (7 * Z.of_nat 1)) with 128 in Hufr. lia. }
    assert (HP : 0 < 2 ^ s) by (apply Z.pow_pos_nonneg; lia).
    assert (Hpow7 : forall k, 0 <= k -> 2 ^ (k + 7) = 128 * 2 ^ k).
    { intros k Hk. rewrite Z.pow_add_r by lia. change (2 ^ 7) with 128. lia. }
    assert (Hdiv : forall k, 0 <= k -> u < 2 ^ (k + 7) -> u / 128 < 2 ^ k).
    { intros k Hk Hlt. rewrite Hpow7 in Hlt by lia.
      apply Z.div_lt_upper_bound; lia. }
    assert (Hgroup : 0 <= u mod 128 < 128) by (apply Z.mod_pos_bound; lia).
    assert (Hx63 : (u mod 128) * 2 ^ s < 2 ^ 63).
    { assert (2 ^ (s + 7) <= 2 ^ 63) by (apply Z.pow_le_mono_r; lia).
      rewrite Hpow7 in * by lia. nia. }
    rewrite Z.shiftr_div_pow2 in * by lia. change (2 ^ 7) with 128 in *.
    assert (Hrd2 : read_varlong_loop fr (r + (u mod 128) * 2 ^ s) (s + 7) (advance 1 b)
                   = (Ok (Int.to_i64 (r + (u mod 128) * 2 ^ s + u / 128 * 2 ^ (s + 7))),
                      advance (length (varint_bytes fw (u / 128))) (advance 1 b))).
    { apply (IH fr (u / 128) _ (s + 7) (advance 1 b) tail Hwf' Hrem');
        [lia | | | | exact Hfr1 |].
      - rewrite Hpow7 by lia. nia.
      - split; [apply Z.div_pos; lia |].
        apply Hdiv; [lia |]. replace (64 - (s + 7) + 7) with (64 - s) by lia. lia.
      - apply Hdiv; [lia |].
        replace (7 * Z.of_nat fw + 7 + 7) with (7 * Z.of_nat (S fw) + 7) by lia. lia.
      - apply Hdiv; [lia |].
        replace (7 * Z.of_nat fr + 7) with (7 * Z.of_nat (S fr)) by lia. lia. }
    cbn [read_varlong_loop]. destruct (Z.leb_spec 64 s); [lia |].
    unfold bind at 1. rewrite Hrd.
    destruct (Z.eqb_spec (Z.land (Int.to_u8 (Z.lor u 0x80)) 0x80) 0) as [He | _];
      [exfalso; exact (IntFacts.continuation_flag u He) |].
    simpl negb. cbv iota.
    rewrite IntFacts.continuation_low, Z.shiftl_mul_pow2 by lia.
    unfold Int.to_i64 at 1.
    rewrite to_signed_small by (change (2 ^ (64 - 1)) with (2 ^ 63); nia).
    rewrite IntFacts.lor_disjoint_add by lia.
    cbn [negb]. rewrite Hrd2, advance_advance. f_equal. f_equal. f_equal.
    rewrite Hpow7 by lia.
    pose proof (Z.div_mod u 128 ltac:(lia)). nia.
Qed.

(** Eleven units of fuel are as good as any larger number: the round
    that starts with [shift >= 64] throws whatever the buffer holds. *)
Lemma read_varlong_loop_fuel fuel : forall k r s b,
  64 <= s + 7 * Z.of_nat fuel ->
  read_varlong_loop (fuel + k) r s b = read_varlong_loop fuel r s b.
Proof.
  induction fuel as [| fuel IH]; intros k r s b Hs.
  - destruct k; [reflexivity |]. cbn [Nat.add read_varlong_loop].
    destruct (Z.leb_spec 64 s); [reflexivity | lia].
  - cbn [Nat.add read_varlong_loop]. destruct (64 <=? s); [reflexivity |].
    unfold bind. destruct (read_byte b) as [[x | e] b1]; [| reflexivity].
    destruct (negb _); [| reflexivity]. apply IH. lia.
Qed.

Lemma read_varlong_fuel k b : read_varlong_loop (11 + k) 0 0 b = read_varlong b.
Proof. apply read_varlong_loop_fuel. lia. Qed.

Section Pool.
Variable junk : nat -> Z.

Lemma write_varlong_fuel value k b :
  write_varint_loop junk (10 + k) (Int.to_u64 value) b = write_varlong junk value b.
Proof.
  apply write_varint_loop_fuel.
  pose proof (Z.mod_pos_bound value (2 ^ 64) ltac:(lia)) as Hu.
  unfold Int.to_u64, Int.to_unsigned.
  assert (2 ^ 64 < 2 ^ (7 * Z.of_nat 10 + 7)) by reflexivity. lia.
Qed.

Lemma appends_write_varlong v :
  appends (write_varlong junk v) (varint_bytes 10 (Int.to_u64 v)).
Proof. intros b Hwf. apply write_varint_loop_contents. exact Hwf. Qed.

End Pool.

Lemma reads_read_varlong v :
  - 2 ^ 63 <= v < 2 ^ 63 -> reads read_varlong (varint_bytes 10 (Int.to_u64 v)) v.
Proof.
  intros Hv b rest Hwf Hrem.
  pose proof (Z.mod_pos_bound v (2 ^ 64) ltac:(lia)) as Hu.
  change (v mod 2 ^ 64) with (Int.to_u64 v) in Hu.
  assert (H77 : 2 ^ 64 < 2 ^ 77) by reflexivity.
  unfold read_varlong.
  rewrite (read_varlong_loop_spec 10 11 (Int.to_u64 v) 0 0 b rest Hwf Hrem)
    by lia.
  f_equal. f_equal. change (2 ^ 0) with 1. rewrite Z.add_0_l, Z.mul_1_r.
  unfold Int.to_i64, Int.to_u64, Int.to_unsigned.
  rewrite to_signed_mod by lia. apply to_signed_small; [lia | exact Hv].
Qed.

(** *** Malformed VarInts *)

Lemma read_varint_loop_continue fuel r s b x rest :
  wf b -> remaining b = x :: rest -> s < 32 -> Z.land x 0x80 <> 0 ->
  read_varint_loop (S fuel) r s b
  = read_varint_loop fuel
      (Z.lor r (Int.to_i32 (Z.shiftl (Z.land x 0x7F) s))) (s + 7) (advance 1 b).
Proof.
  intros Hwf Hrem Hs Hx. destruct (read_byte_cons b x rest Hwf Hrem) as (Hrd & _).
  cbn [read_varint_loop]. destruct (Z.leb_spec 32 s); [lia |].
  unfold bind. rewrite Hrd.
  destruct (Z.eqb_spec (Z.land x 0x80) 0); [contradiction | reflexivity].
Qed.

(** A run of continuation bytes: the loop of [read_varint] throws when
    the bytes run out, or when [shift] has reached 32. *)
Lemma read_varint_loop_run k : forall fuel r s b,
  wf b -> (k < fuel)%nat -> 32 <= s + 7 * Z.of_nat k -> s + 7 * Z.of_nat k < 39 ->
  Forall (fun x => Z.land x 0x80 <> 0) (take k (remaining b)) ->
  read_varint_loop fuel r s b
  = (Throw (if (length (remaining b) <? k)%nat then BufferUnderflow else VarIntTooBig),
     advance (Nat.min k (length (remaining b))) b).
Proof.
  induction k as [| k IH]; intros fuel r s b Hwf Hfuel Hlo Hhi Hall;
    (destruct fuel as [| fuel]; [lia |]).
  - cbn [read_varint_loop]. destruct (Z.leb_spec 32 s); [| lia].
    unfold throw. cbn [Nat.min]. rewrite advance_0. reflexivity.
  - destruct (remaining b) as [| x rest] eqn:Hrem.
    + cbn [read_varint_loop]. destruct (Z.leb_spec 32 s); [lia |].
      unfold bind. rewrite (read_byte_nil b Hwf Hrem).
      cbn [length]. rewrite Nat.min_0_r, advance_0. reflexivity.
    + cbn [take] in Hall. inversion Hall as [| ? ? Hx Hrest]; subst.
      destruct (read_byte_cons b x rest Hwf Hrem) as (_ & Hrem1 & Hwf1).
      rewrite (read_varint_loop_continue fuel r s b x rest Hwf Hrem) by (auto; lia).
      rewrite (IH fuel _ (s + 7) (advance 1 b)); [| exact Hwf1 | lia | lia | lia |].
      * rewrite Hrem1, advance_advance. cbn [length].
        change (S k <? S (length rest))%nat with (k <? length rest)%nat.
        reflexivity.
      * rewrite Hrem1. exact Hrest.
Qed.

(** *** Packets *)

Lemma reads_eq {A} (r : M A) bs bs' v : bs = bs' -> reads r bs v -> reads r bs' v.
Proof. intros ->. exact id. Qed.

Lemma reads_read_uuid uuid :
  length uuid = 16%nat -> reads PacketRead.read_uuid uuid uuid.
Proof.
  intros Hlen b rest Hwf Hrem. unfold PacketRead.read_uuid.
  rewrite <- Hlen at 1. rewrite (read_exact b uuid rest Hwf Hrem).
  rewrite Hlen, Nat.sub_diag, app_nil_r. reflexivity.
Qed.

Section Pool.
Variable junk : nat -> Z.

(** Every serverbound packet has a byte string that its [write] appends
    and its [read] decodes into the packet. *)
Lemma packet_codec p :
  PacketWrite.in_range p ->
  exists bytes rd,
    PacketRead.read (PacketWrite.kind_of p) = Some rd
    /\ appends (PacketWrite.write junk p) bytes
    /\ reads rd bytes p.
Proof.
  destruct p as [pv addr port ns | | payload | username uuid | x y z g];
    cbn [PacketWrite.in_range PacketWrite.kind_of PacketRead.read PacketWrite.write].
  - intros (Hpv & Haddr & Hport & Hns).
    eexists. eexists. split; [reflexivity |]. split.
    + apply (appends_comp
               (fun b => write_be junk 2 port
                           (write_string junk addr (write_varint junk pv b)))
               (write_varint junk ns));
        [| apply appends_write_varint].
      apply (appends_comp
               (fun b => write_string junk addr (write_varint junk pv b))
               (write_be junk 2 port));
        [| apply write_be_appends].
      apply (appends_comp (write_varint junk pv) (write_string junk addr));
        [apply appends_write_varint | apply appends_write_string].
    + eapply reads_eq; [| eapply reads_bind; [apply (reads_read_varint pv Hpv) |
        eapply reads_bind; [apply (reads_read_string addr Haddr) |
        eapply reads_bind; [apply (reads_unsigned_be 2 port ltac:(lia) Hport) |
        eapply reads_bind; [apply (reads_read_varint ns Hns) | apply reads_ret]]]]].
      rewrite app_nil_r, !app_assoc. reflexivity.
  - intros _. eexists. eexists. split; [reflexivity |]. split.
    + apply appends_id.
    + apply reads_ret.
  - intros Hpayload. eexists. eexists. split; [reflexivity |]. split.
    + apply write_be_appends.
    + eapply reads_eq; [| eapply reads_bind;
        [apply (reads_signed_be 8 payload ltac:(lia) Hpayload) | apply reads_ret]].
      apply app_nil_r.
  - intros (Hname & Huuid).
    assert (Htake : take 16 uuid = uuid) by (apply take_ge; lia).
    eexists. eexists. split; [reflexivity |]. split.
    + intros b Hwf. unfold PacketWrite.write. cbv zeta. rewrite Htake.
      revert b Hwf.
      apply (appends_comp (write_string junk username) (write junk uuid));
        [apply appends_write_string | apply appends_write].
    + eapply reads_eq; [| eapply reads_bind; [apply (reads_read_string username Hname) |
        eapply reads_bind; [apply (reads_read_uuid uuid Huuid) | apply reads_ret]]].
      rewrite app_nil_r. reflexivity.
  - intros (Hx & Hy & Hz).
    eexists. eexists. split; [reflexivity |]. split.
    + apply (appends_comp
               (fun b => write_be junk 8 z (write_be junk 8 y (write_be junk 8 x b)))
               (write_byte junk (if g then 1 else 0)));
        [| apply appends_write_byte].
      apply (appends_comp
               (fun b => write_be junk 8 y (write_be junk 8 x b))
               (write_be junk 8 z));
        [| apply write_be_appends].
      apply (appends_comp (write_be junk 8 x) (write_be junk 8 y));
        apply write_be_appends.
    + eapply reads_eq; [| eapply reads_bind; [apply (reads_unsigned_be 8 x ltac:(lia) Hx) |
        eapply reads_bind; [apply (reads_unsigned_be 8 y ltac:(lia) Hy) |
        eapply reads_bind; [apply (reads_unsigned_be 8 z ltac:(lia) Hz) |
        eapply reads_bind; [apply (reads_read_byte (if g then 1 else 0)) |
        destruct g; apply reads_ret]]]]].
      rewrite app_nil_r, !app_assoc. reflexivity.
Qed.

End Pool.

(** *** Block changes *)

(** Sign extension of a [w]-bit field, on the whole signed range. *)
Lemma sign_extend_field w x :
  0 < w < 31 -> - 2 ^ (w - 1) <= x < 2 ^ (w - 1) ->
  (let f := Int.to_i32 (x mod 2 ^ w) in
   if 2 ^ (w - 1) <=? f then Int.to_i32 (f - 2 ^ w) else f) = x.
Proof.
  intros Hw Hx. cbv zeta.
  assert (Hpow : 2 ^ w = 2 * 2 ^ (w - 1)).
  { replace w with (Z.succ (w - 1)) at 1 by lia. apply Z.pow_succ_r. lia. }
  assert (Hle : 2 ^ w <= 2 ^ 30) by (apply Z.pow_le_mono_r; lia).
  assert (Hm : 0 <= x mod 2 ^ w < 2 ^ w) by (apply Z.mod_pos_bound; lia).
  assert (Hpos : 0 < 2 ^ (w - 1)) by (apply Z.pow_pos_nonneg; lia).
  destruct (Z.lt_ge_cases x 0) as [Hneg | Hnn].
  - assert (Hmod : x mod 2 ^ w = x + 2 ^ w).
    { rewrite <- (Z.mod_add x 1 (2 ^ w)), Z.mul_1_l by lia.
      apply Z.mod_small. lia. }
    rewrite Hmod. rewrite (IntFacts.to_i32_small (x + 2 ^ w)) by lia.
    destruct (Z.leb_spec (2 ^ (w - 1)) (x + 2 ^ w)); [| lia].
    rewrite IntFacts.to_i32_small by lia. lia.
  - rewrite Z.mod_small by lia. rewrite (IntFacts.to_i32_small x) by lia.
    destruct (Z.leb_spec (2 ^ (w - 1)) x); [lia | reflexivity].
Qed.

Lemma decode_encode_pos p :
  - 2 ^ 25 <= pos_x p < 2 ^ 25 -> - 2 ^ 25 <= pos_z p < 2 ^ 25 ->
  - 2 ^ 11 <= pos_y p < 2 ^ 11 ->
  BlockChangePacket.decode_pos (BlockChangePacket.encode_pos p) = p.
Proof.
  intros Hx Hz Hy. destruct p as [x y z]. cbn [pos_x pos_y pos_z] in *.
  rewrite BlockChangeFacts.encode_pos_sum. cbn [pos_x pos_y pos_z].
  pose proof (Z.mod_pos_bound x (2 ^ 26) ltac:(lia)) as HX.
  pose proof (Z.mod_pos_bound z (2 ^ 26) ltac:(lia)) as HZ.
  pose proof (Z.mod_pos_bound y (2 ^ 12) ltac:(lia)) as HY.
  unfold BlockChangePacket.decode_pos.
  rewrite BlockChangeFacts.land_26, BlockChangeFacts.land_12.
  rewrite !Z.shiftr_div_pow2 by lia.
  set (E := x mod 2 ^ 26 * 2 ^ 38 + z mod 2 ^ 26 * 2 ^ 12 + y mod 2 ^ 12).
  assert (HEx : E / 2 ^ 38 = x mod 2 ^ 26)
    by (unfold E; Z.div_mod_to_equations; lia).
  assert (HEz : (E / 2 ^ 12) mod 2 ^ 26 = z mod 2 ^ 26)
    by (unfold E; Z.div_mod_to_equations; lia).
  assert (HEy : E mod 2 ^ 12 = y mod 2 ^ 12)
    by (unfold E; Z.div_mod_to_equations; lia).
  rewrite HEx, HEz, HEy.
  pose proof (sign_extend_field 26 x ltac:(lia) ltac:(lia)) as Sx.
  pose proof (sign_extend_field 26 z ltac:(lia) ltac:(lia)) as Sz.
  pose proof (sign_extend_field 12 y ltac:(lia) ltac:(lia)) as Sy.
  cbv zeta in Sx, Sz, Sy.
  change (2 ^ (26 - 1)) with 0x2000000 in *. change (2 ^ (12 - 1)) with 0x800 in *.
  change (2 ^ 26) with 0x4000000 in *. change (2 ^ 12) with 0x1000 in *.
  rewrite Sx, Sz, Sy. reflexivity.
Qed.

Lemma encode_pos_range p : 0 <= BlockChangePacket.encode_pos p < 2 ^ 64.
Proof.
  rewrite BlockChangeFacts.encode_pos_sum.
  pose proof (Z.mod_pos_bound (pos_x p) (2 ^ 26) ltac:(lia)) as HX.
  pose proof (Z.mod_pos_bound (pos_z p) (2 ^ 26) ltac:(lia)) as HZ.
  pose proof (Z.mod_pos_bound (pos_y p) (2 ^ 12) ltac:(lia)) as HY.
  lia.
Qed.

Lemma to_u32_to_i32 v : 0 <= v < 2 ^ 32 -> Int.to_u32 (Int.to_i32 v) = v.
Proof.
  intros Hv. unfold Int.to_u32, Int.to_i32, Int.to_signed, Int.to_unsigned.
  change (2 ^ (32 - 1)) with 2147483648. change (2 ^ 32) with 4294967296 in *.
  rewrite (Z.mod_small v) by lia.
  destruct (Z.ltb_spec v 2147483648).
  - apply Z.mod_small. lia.
  - rewrite <- (Z.mod_add _ 1), Z.mul_1_l by lia.
    replace (v - 4294967296 + 4294967296) with v by lia.
    apply Z.mod_small. lia.
Qed.

Lemma is_i32_to_i32 v : Int.is_i32 (Int.to_i32 v).
Proof.
  unfold Int.is_i32, Int.to_i32, Int.to_signed. cbv zeta.
  change (2 ^ (32 - 1)) with 2147483648. change (2 ^ 31) with 2147483648.
  pose proof (Z.mod_pos_bound v (2 ^ 32) ltac:(lia)) as H.
  change (2 ^ 32) with 4294967296 in *.
  destruct (Z.ltb_spec (v mod 4294967296) 2147483648); lia.
Qed.

(** *** Frames *)

(** The do-while loop of [get_varint_size] counts the bytes the loop of
    [write_varint] writes. *)
Lemma get_varint_size_loop_spec fuel : forall u size,
  0 <= u < 2 ^ (7 * Z.of_nat fuel + 7) ->
  PacketWrite.get_varint_size_loop (S fuel) u size
  = (size + length (varint_bytes fuel u))%nat.
Proof.
  induction fuel as [| fuel IH]; intros u size Hu.
  - change (2 ^ (7 * Z.of_nat 0 + 7)) with 128 in Hu.
    cbn [PacketWrite.get_varint_size_loop varint_bytes length].
    destruct (negb _); lia.
  - cbn [PacketWrite.get_varint_size_loop varint_bytes] in *.
    rewrite Z.shiftr_div_pow2 by lia. change (2 ^ 7) with 128.
    destruct (Z.leb_spec 0x80 u) as [Hbig | Hsmall].
    + destruct (Z.eqb_spec (u / 128) 0) as [Hz | Hnz].
      * exfalso. Z.to_euclidean_division_equations. lia.
      * cbn [negb length]. 
        specialize (IH (u / 128) (S size)).
        cbn [PacketWrite.get_varint_size_loop] in IH.
        rewrite Z.shiftr_div_pow2 in * by lia. change (2 ^ 7) with 128 in *.
        rewrite IH; [lia |].
        split; [apply Z.div_pos; lia |].
        apply Z.div_lt_upper_bound; [lia |].
        replace (7 * Z.of_nat (S fuel) + 7) with (7 + (7 * Z.of_nat fuel + 7)) in Hu
          by lia.
        rewrite Z.pow_add_r in Hu by lia. exact (proj2 Hu).
    + rewrite Z.div_small by lia. cbn [Z.eqb negb length]. lia.
Qed.

Lemma get_varint_size_spec v :
  PacketWrite.get_varint_size v = length (varint_bytes 5 (Int.to_u32 v)).
Proof.
  pose proof (IntFacts.to_u32_range v) as Hu.
  unfold PacketWrite.get_varint_size.
  rewrite get_varint_size_loop_spec
    by (change (2 ^ (7 * Z.of_nat 4 + 7)) with (2 ^ 35);
        assert (2 ^ 32 < 2 ^ 35) by reflexivity; lia).
  rewrite <- (VarIntFacts.varint_bytes_fuel 4 (Int.to_u32 v) 1)
    by (change (2 ^ (7 * Z.of_nat 4 + 7)) with (2 ^ 35);
        assert (2 ^ 32 < 2 ^ 35) by reflexivity; lia).
  reflexivity.
Qed.

Lemma length_varint_bytes_le v : (1 <= length (varint_bytes 5 (Int.to_u32 v)) <= 5)%nat.
Proof.
  pose proof (IntFacts.to_u32_range v) as Hu.
  pose proof (VarIntFacts.varint_bytes_length 5 (Int.to_u32 v)) as Hlen.
  assert (H42 : 2 ^ 32 < 2 ^ (7 * Z.of_nat 5 + 7)) by reflexivity.
  specialize (Hlen ltac:(lia)).
  assert (Hlog : 0 <= Z.log2 (Int.to_u32 v) < 32).
  { split; [apply Z.log2_nonneg |].
    destruct (Z.eq_dec (Int.to_u32 v) 0) as [-> | Hne]; [reflexivity |].
    apply Z.log2_lt_pow2; lia. }
  assert (0 <= Z.log2 (Int.to_u32 v) / 7 < 5)
    by (split; [apply Z.div_pos; lia | apply Z.div_lt_upper_bound; lia]).
  lia.
Qed.

End WireFacts.

(** ** Chunks: sky light and persistence *)

Module ChunkFacts.
Import world ChunkShape.

Lemma section_at_create now pos idx :
  Chunk.section_at (Chunk.create now pos) idx = None.
Proof.
  unfold Chunk.section_at, Chunk.create. cbn [Chunk.sections_].
  apply nth_repeat.
Qed.

(** The sky light of a chunk nothing was written to: 15 on the band
    [-80 < y < 320], which reaches 15 blocks below the world, 0 elsewhere. *)
Lemma fresh_chunk_sky_light now pos x y z :
  Int.is_i32 y ->
  Chunk.get_sky_light (Chunk.create now pos) x y z
  = if (-80 <? y) && (y <? 320) then 15 else 0.
Proof.
  unfold Int.is_i32. intros Hy.
  unfold Chunk.get_sky_light. rewrite section_at_create.
  unfold Chunk.valid_index, Chunk.get_section_index, WORLD_MIN_Y.
  change SECTIONS_PER_CHUNK with 24.
  change (2 ^ 31) with 2147483648 in Hy.
  destruct (Z.lt_ge_cases y (2147483648 - 64)) as [Hlo | Hhi].
  - rewrite IntFacts.to_i32_small
      by (change (2 ^ 31) with 2147483648; lia).
    destruct (Z.ltb_spec (-80) y), (Z.ltb_spec y 320),
      (Z.ltb_spec (Z.quot (y - -64) 16) 0), (Z.leb_spec 24 (Z.quot (y - -64) 16));
      cbn [andb orb negb]; try reflexivity; exfalso;
      Z.quot_rem_to_equations; lia.
  - assert (Hw : Int.to_i32 (y - -64) = y - -64 - 2 ^ 32).
    { unfold Int.to_i32, Int.to_signed.
      change (2 ^ (32 - 1)) with 2147483648. change (2 ^ 32) with 4294967296.
      rewrite Z.mod_small by lia.
      destruct (Z.ltb_spec (y - -64) 2147483648); lia. }
    rewrite Hw. change (2 ^ 32) with 4294967296.
    destruct (Z.ltb_spec (-80) y), (Z.ltb_spec y 320),
      (Z.ltb_spec (Z.quot (y - -64 - 4294967296) 16) 0),
      (Z.leb_spec 24 (Z.quot (y - -64 - 4294967296) 16));
      cbn [andb orb negb]; try reflexivity; exfalso;
      Z.quot_rem_to_equations; lia.
Qed.

Lemma nth_insert_eq {A} (l : list A) i v d :
  (i < length l)%nat -> nth i (<[i := v]> l) d = v.
Proof. intros H. apply nth_lookup_Some. apply list_lookup_insert_eq. exact H. Qed.

Lemma nth_insert_ne {A} (l : list A) i j v d :
  i <> j -> nth j (<[i := v]> l) d = nth j l d.
Proof.
  intros H. rewrite !nth_lookup, list_lookup_insert_ne by exact H. reflexivity.
Qed.

Lemma wf_section_create : wf_section ChunkSection.create.
Proof. unfold wf_section, ChunkSection.create. cbn. apply repeat_length. Qed.

Lemma wf_chunk_create now pos : wf_chunk (Chunk.create now pos).
Proof.
  split; [apply repeat_length |]. intros i s H.
  unfold Chunk.create in H. cbn [Chunk.sections_] in H.
  apply list_elem_of_lookup_2, list_elem_of_In, repeat_spec in H. discriminate.
Qed.

Lemma section_at_lookup c idx s :
  Chunk.section_at c idx = Some s ->
  Chunk.sections_ c !! Z.to_nat idx = Some (Some s).
Proof.
  unfold Chunk.section_at. rewrite nth_lookup.
  destruct (Chunk.sections_ c !! Z.to_nat idx) as [o |]; cbn; congruence.
Qed.

Lemma wf_section_set_block x y z b s :
  wf_section s -> wf_section (ChunkSection.set_block x y z b s).
Proof.
  unfold wf_section, ChunkSection.set_block. intros H.
  destruct (ChunkSection.in_range _); [| exact H].
  cbn [ChunkSection.blocks]. rewrite length_insert. exact H.
Qed.

(** Where a valid height lands. *)
Lemma section_of_valid_y y :
  valid_y y ->
  Chunk.get_section_index y = (y + 64) / 16
  /\ 0 <= (y + 64) / 16 < 24
  /\ Chunk.valid_index (Chunk.get_section_index y) = true
  /\ Chunk.local_y y (Chunk.get_section_index y) = (y + 64) mod 16.
Proof.
  unfold valid_y, WORLD_MIN_Y, WORLD_MAX_Y. intros Hy.
  assert (Hidx : Chunk.get_section_index y = (y + 64) / 16).
  { unfold Chunk.get_section_index, WORLD_MIN_Y.
    rewrite IntFacts.to_i32_small by lia.
    replace (y - -64) with (y + 64) by lia. apply Z.quot_div_nonneg; lia. }
  assert (Hr : 0 <= (y + 64) / 16 < 24).
  { split; [apply Z.div_pos; lia | apply Z.div_lt_upper_bound; lia]. }
  rewrite Hidx. split; [reflexivity | split; [exact Hr | split]].
  - unfold Chunk.valid_index. change SECTIONS_PER_CHUNK with 24.
    destruct (Z.ltb_spec ((y + 64) / 16) 0), (Z.leb_spec 24 ((y + 64) / 16));
      first [reflexivity | lia].
  - unfold Chunk.local_y, WORLD_MIN_Y.
    rewrite IntFacts.to_i32_small by (Z.div_mod_to_equations; lia).
    Z.div_mod_to_equations; lia.
Qed.

Lemma index_of_valid x ly z :
  valid_xz x -> valid_xz z -> 0 <= ly < 16 ->
  ChunkSection.index_of x ly z = (ly * 16 + z) * 16 + x
  /\ ChunkSection.in_range (ChunkSection.index_of x ly z) = true.
Proof.
  unfold valid_xz. intros Hx Hz Hy.
  unfold ChunkSection.index_of, ChunkSection.SECTION_SIZE.
  rewrite IntFacts.to_i32_small by lia. split; [reflexivity |].
  unfold ChunkSection.in_range. change ChunkSection.BLOCKS_PER_SECTION with 4096.
  destruct (Z.leb_spec 0 ((ly * 16 + z) * 16 + x)),
    (Z.ltb_spec ((ly * 16 + z) * 16 + x) 4096); first [reflexivity | lia].
Qed.

(** The sections of a chunk after [set_block] at a valid position. *)
Lemma set_block_sections now x y z b c :
  valid_y y ->
  exists s,
    Chunk.sections_ (Chunk.set_block now x y z b c)
    = <[Z.to_nat ((y + 64) / 16) :=
          Some (ChunkSection.set_block x ((y + 64) mod 16) z b s)]> (Chunk.sections_ c)
    /\ match Chunk.section_at c ((y + 64) / 16) with
       | Some s0 => s = s0
       | None => s = ChunkSection.create
       end.
Proof.
  intros Hy. destruct (section_of_valid_y y Hy) as (Hidx & Hr & Hv & Hl).
  unfold Chunk.set_block, Chunk.get_or_create_section. cbv zeta.
  rewrite Hv, Hl, Hidx. cbn [negb].
  destruct (Chunk.section_at c ((y + 64) / 16)) as [s0 |] eqn:Hs.
  - exists s0. split; reflexivity.
  - exists ChunkSection.create. split; [| reflexivity].
    cbn [Chunk.sections_ Chunk.store_section Chunk.set_sections Chunk.touch
           Chunk.set_dirty].
    apply list_insert_insert_eq.
Qed.

Lemma wf_chunk_set_block now x y z b c :
  valid_y y -> wf_chunk c -> wf_chunk (Chunk.set_block now x y z b c).
Proof.
  intros Hy [Hlen Hsec].
  destruct (set_block_sections now x y z b c Hy) as (s & Heq & Hs).
  split; rewrite Heq.
  - rewrite length_insert. exact Hlen.
  - intros i s' Hi.
    destruct (decide (i = Z.to_nat ((y + 64) / 16))) as [-> | Hne].
    + apply list_lookup_insert_Some in Hi.
      destruct Hi as [(_ & Hi & _) | (Hne & _)]; [| congruence].
      inversion Hi; subst. apply wf_section_set_block.
      destruct (Chunk.section_at c ((y + 64) / 16)) as [s0 |] eqn:Hn.
      * subst s. eapply Hsec, section_at_lookup, Hn.
      * subst s. apply wf_section_create.
    + rewrite list_lookup_insert_ne in Hi by congruence. eapply Hsec, Hi.
Qed.

(** Reading the block just written. *)
Lemma get_set_block_same now x y z b c :
  valid_xz x -> valid_xz z -> valid_y y -> wf_chunk c ->
  Chunk.get_block (Chunk.set_block now x y z b c) x y z = b.
Proof.
  intros Hx Hz Hy [Hlen Hsec].
  destruct (section_of_valid_y y Hy) as (Hidx & Hr & Hv & Hl).
  destruct (set_block_sections now x y z b c Hy) as (s & Heq & Hs).
  assert (Hwf : wf_section s).
  { destruct (Chunk.section_at c ((y + 64) / 16)) as [s0 |] eqn:Hn; subst s.
    - eapply Hsec, section_at_lookup, Hn.
    - apply wf_section_create. }
  unfold Chunk.get_block. cbv zeta. rewrite Hv, Hl. cbn [negb].
  unfold Chunk.section_at. rewrite Heq, Hidx.
  rewrite nth_insert_eq
    by (rewrite Hlen; change SECTIONS_PER_CHUNK with 24; lia).
  assert (Hly : 0 <= (y + 64) mod 16 < 16) by (apply Z.mod_pos_bound; lia).
  destruct (index_of_valid x ((y + 64) mod 16) z Hx Hz Hly) as [Hi Hin].
  unfold ChunkSection.get_block, ChunkSection.set_block. cbv zeta.
  rewrite Hin. cbn [ChunkSection.blocks].
  apply nth_insert_eq.
  unfold wf_section in Hwf. rewrite Hwf.
  change ChunkSection.BLOCKS_PER_SECTION with 4096.
  unfold valid_xz in *. rewrite Hi. lia.
Qed.

(** Writing elsewhere leaves a block as it was. *)
Lemma get_set_block_other now x y z b c x0 y0 z0 :
  valid_xz x -> valid_xz z -> valid_y y ->
  valid_xz x0 -> valid_xz z0 -> valid_y y0 ->
  (x, y, z) <> (x0, y0, z0) ->
  Chunk.get_block (Chunk.set_block now x y z b c) x0 y0 z0
  = Chunk.get_block c x0 y0 z0.
Proof.
  intros Hx Hz Hy Hx0 Hz0 Hy0 Hne.
  destruct (section_of_valid_y y Hy) as (Hidx & Hr & Hv & Hl).
  destruct (section_of_valid_y y0 Hy0) as (Hidx0 & Hr0 & Hv0 & Hl0).
  destruct (set_block_sections now x y z b c Hy) as (s & Heq & Hs).
  unfold Chunk.get_block. cbv zeta. rewrite Hv0, Hl0. cbn [negb].
  unfold Chunk.section_at in *. rewrite Heq, Hidx0.
  destruct (decide ((y0 + 64) / 16 = (y + 64) / 16)) as [Hsame | Hdiff].
  - rewrite Hsame.
    destruct (Chunk.sections_ c !! Z.to_nat ((y + 64) / 16)) as [o |] eqn:Hlook.
    + rewrite nth_insert_eq by (eapply lookup_lt_Some, Hlook).
      rewrite (nth_lookup_Some _ _ None _ Hlook) in *.
      assert (Hly : 0 <= (y + 64) mod 16 < 16) by (apply Z.mod_pos_bound; lia).
      assert (Hly0 : 0 <= (y0 + 64) mod 16 < 16) by (apply Z.mod_pos_bound; lia).
      destruct (index_of_valid x ((y + 64) mod 16) z Hx Hz Hly) as [Hi Hin].
      destruct (index_of_valid x0 ((y0 + 64) mod 16) z0 Hx0 Hz0 Hly0) as [Hi0 Hin0].
      assert (Hidxne : Z.to_nat (ChunkSection.index_of x ((y + 64) mod 16) z)
                       <> Z.to_nat (ChunkSection.index_of x0 ((y0 + 64) mod 16) z0)).
      { rewrite Hi, Hi0. unfold valid_xz in *. intros Heqi.
        apply Hne. 
        assert (x = x0 /\ z = z0 /\ (y + 64) mod 16 = (y0 + 64) mod 16) as (-> & -> & Hm)
          by lia.
        f_equal. f_equal.
        pose proof (Z.div_mod (y + 64) 16 ltac:(lia)).
        pose proof (Z.div_mod (y0 + 64) 16 ltac:(lia)). lia. }
      unfold ChunkSection.get_block, ChunkSection.set_block. cbv zeta.
      rewrite Hin, Hin0. cbn [ChunkSection.blocks].
      rewrite nth_insert_ne by exact Hidxne.
      destruct o as [s0 |]; subst s; [reflexivity |].
      cbn [ChunkSection.create ChunkSection.blocks]. apply nth_repeat.
    + rewrite list_insert_ge by (apply lookup_ge_None; exact Hlook).
      reflexivity.
  - rewrite nth_insert_ne; [reflexivity |]. lia.
Qed.

Lemma get_block_flags c l d x y z :
  Chunk.get_block (Chunk.set_dirty d (Chunk.set_loaded l c)) x y z
  = Chunk.get_block c x y z.
Proof. reflexivity. Qed.

(** [deserialize_sections] returns the chunk it was given: the sections
    it reads are not put into it. *)
Lemma deserialize_sections_chunk fuel : forall s n chunk b c b',
  WorldPersistence.deserialize_sections fuel s n chunk b = (Ok c, b') -> c = chunk.
Proof.
  induction fuel as [| fuel IH]; intros s n chunk b c b';
    cbn [WorldPersistence.deserialize_sections].
  - discriminate.
  - destruct (s <? n); [| intros H; inversion H; reflexivity].
    unfold bind at 1. destruct (Buffer.read_byte b) as [[h | e] b1]; [| discriminate].
    destruct (h =? 0); [apply IH |].
    unfold bind at 1.
    destruct (WorldPersistence.read_section b1) as [[sec | e] b2]; [| discriminate].
    apply IH.
Qed.

(** So a chunk that comes out of [deserialize_chunk] has no section. *)
Lemma deserialize_chunk_sections now pos b c b' :
  WorldPersistence.deserialize_chunk now pos b = (Ok c, b') ->
  Chunk.sections_ c = repeat None (Z.to_nat SECTIONS_PER_CHUNK).
Proof.
  unfold WorldPersistence.deserialize_chunk. cbv zeta. unfold bind at 1.
  destruct (Buffer.read_be Int.to_i32 4 b) as [[n | e] b1]; [| discriminate].
  unfold bind at 1.
  destruct (WorldPersistence.deserialize_sections _ 0 n _ b1) as [[c1 | e] b2] eqn:Hd;
    [| discriminate].
  apply deserialize_sections_chunk in Hd. subst c1.
  intros H. inversion H; subst. reflexivity.
Qed.

Lemma no_sections_all_air c x y z :
  Chunk.sections_ c = repeat None (Z.to_nat SECTIONS_PER_CHUNK) ->
  Chunk.get_block c x y z = AIR.
Proof.
  intros H. unfold Chunk.get_block. cbv zeta.
  destruct (negb _); [reflexivity |].
  unfold Chunk.section_at. rewrite H, nth_repeat. reflexivity.
Qed.

(** Whatever the region file holds, a chunk [load_chunk] returns is AIR
    throughout. *)
Lemma load_chunk_all_air now r pos x y z :
  match WorldPersistence.load_chunk now r pos with
  | Some loaded => Chunk.get_block loaded x y z = AIR
  | None => True
  end.
Proof.
  unfold WorldPersistence.load_chunk.
  destruct (negb _); [exact I |].
  destruct (WorldPersistence.get_local_chunk_coords pos) as [lx lz].
  destruct (_ =? 0); [exact I |]. cbv zeta.
  destruct (_ || _); [exact I |].
  destruct (WorldPersistence.deserialize_chunk _ _ _) as [[c | e] b'] eqn:Hd;
    [| exact I].
  apply no_sections_all_air. eapply deserialize_chunk_sections, Hd.
Qed.

End ChunkFacts.

(** ** Saving a chunk and loading it again *)

Module PersistenceFacts.
Import world ChunkShape.

Lemma full_light_create now pos : full_light (Chunk.create now pos).
Proof.
  intros s H. unfold Chunk.create in H. cbn [Chunk.sections_] in H.
  apply list_elem_of_In, repeat_spec in H. discriminate.
Qed.

Lemma full_light_set_block now x y z b c :
  valid_y y -> full_light c -> full_light (Chunk.set_block now x y z b c).
Proof.
  intros Hy Hc s Hs.
  destruct (ChunkFacts.set_block_sections now x y z b c Hy) as (s0 & Heq & Hs0).
  rewrite Heq in Hs. apply list_elem_of_lookup in Hs. destruct Hs as [j Hj].
  apply list_lookup_insert_Some in Hj.
  destruct Hj as [(_ & Hj & _) | (_ & Hj)].
  - inversion Hj; subst s.
    destruct (CodecFacts.set_block_lights x ((y + 64) mod 16) z b s0) as [-> ->].
    destruct (Chunk.section_at c ((y + 64) / 16)) as [s1 |] eqn:Hat.
    + subst s0. apply Hc. apply list_elem_of_lookup.
      exists (Z.to_nat ((y + 64) / 16)). apply ChunkFacts.section_at_lookup. exact Hat.
    + subst s0. cbn [ChunkSection.create ChunkSection.block_light ChunkSection.sky_light].
      split; apply repeat_length.
  - apply Hc. apply list_elem_of_lookup. exists j. exact Hj.
Qed.

(** Payload and padding fill whole sectors. *)
Lemma sectors_padding size :
  0 <= size ->
  size + (4096 - size mod 4096) mod 4096 = (size + 4095) / 4096 * 4096.
Proof. intros H. Z.to_euclidean_division_equations. lia. Qed.

(** The location word gives back the two fields packed into it. *)
Lemma location_fields sectors count :
  0 <= sectors < 2 ^ 20 -> 0 <= count < 256 ->
  let location :=
    Int.to_u32 (Z.lor (Z.shiftl sectors 8) (Z.land count 0xFF)) in
  location = sectors * 256 + count
  /\ Z.land (Z.shiftr location 8) 0xFFFFFF = sectors
  /\ Z.land location 0xFF = count.
Proof.
  intros Hs Hc. cbv zeta. unfold Int.to_u32, Int.to_unsigned.
  change 0xFF with (Z.ones 8). change 0xFFFFFF with (Z.ones 24).
  rewrite !Z.land_ones by lia.
  rewrite Z.shiftl_mul_pow2 by lia.
  rewrite (Z.mod_small count) by (change (2 ^ 8) with 256; lia).
  rewrite Z.lor_comm.
  rewrite IntFacts.lor_disjoint_add by (change (2 ^ 8) with 256; lia).
  rewrite Z.shiftr_div_pow2 by lia.
  change (2 ^ 8) with 256. change (2 ^ 24) with 16777216.
  change (2 ^ 20) with 1048576 in Hs. change (2 ^ 32) with 4294967296.
  Z.to_euclidean_division_equations. lia.
Qed.

Lemma length_sections_bytes_le secs :
  (forall x, Some x ∈ secs ->
     length (ChunkSection.block_light x) = Z.to_nat 2048
     /\ length (ChunkSection.sky_light x) = Z.to_nat 2048) ->
  (length (flat_map WorldPersistence.section_bytes secs)
   <= Z.to_nat 12291 * length secs)%nat.
Proof.
  induction secs as [| sec secs IH]; intros Hl; cbn [flat_map length]; [lia |].
  rewrite length_app.
  assert (IH' : (length (flat_map WorldPersistence.section_bytes secs)
                 <= Z.to_nat 12291 * length secs)%nat).
  { apply IH. intros x Hx. apply Hl, elem_of_cons. right. exact Hx. }
  destruct sec as [x |].
  - destruct (CodecFacts.section_bytes_Some x) as (body & -> & Hbody).
    destruct (Hl x) as [Hbl Hsl]; [apply elem_of_cons; left; reflexivity |].
    cbn [length]. rewrite (Hbody Hbl Hsl). lia.
  - cbn [WorldPersistence.section_bytes length]. lia.
Qed.

(** A chunk of 24 sections takes between 28 bytes and 73 sectors. *)
Lemma length_chunk_bytes chunk :
  wf_chunk chunk -> full_light chunk ->
  28 <= Z.of_nat (length (WorldPersistence.chunk_bytes chunk)) <= 294988.
Proof.
  intros [Hlen _] Hlight. unfold WorldPersistence.chunk_bytes.
  rewrite length_app, CodecFacts.length_be_bytes.
  pose proof (CodecFacts.length_sections_bytes (Chunk.get_sections chunk)) as Hlo.
  pose proof (length_sections_bytes_le (Chunk.get_sections chunk) Hlight) as Hhi.
  unfold Chunk.get_sections in *. rewrite Hlen in Hlo, Hhi.
  change SECTIONS_PER_CHUNK with 24 in *. lia.
Qed.

(** Reading at the old end of a file gets what was appended there, also
    after the header was written over the start. *)
Lemma file_read_back header f bytes pos n :
  (length header <= length f)%nat -> pos = length f -> n = length bytes ->
  WorldPersistence.file_read_at pos n
    (WorldPersistence.file_write_at 0 header (f ++ bytes)) = bytes.
Proof.
  intros Hh -> ->. unfold WorldPersistence.file_read_at, WorldPersistence.file_write_at.
  rewrite take_0. cbn [app Nat.add].
  rewrite drop_app_ge by exact Hh. rewrite drop_drop.
  replace (length header + (length f - length header))%nat with (length f) by lia.
  rewrite drop_app_length, take_ge by lia.
  rewrite Nat.sub_diag. apply app_nil_r.
Qed.

Lemma length_be32_table table :
  length (flat_map WorldPersistence.be32 table) = (4 * length table)%nat.
Proof. apply CodecFacts.length_flat_map_const. reflexivity. Qed.

Lemma local_chunk_index pos local_x local_z :
  WorldPersistence.get_local_chunk_coords pos = (local_x, local_z) ->
  0 <= local_z * 32 + local_x < 1024.
Proof.
  unfold WorldPersistence.get_local_chunk_coords. intros H. inversion H; subst.
  change 31 with (Z.ones 5). rewrite !Z.land_ones by lia.
  change (2 ^ 5) with 32.
  pose proof (Z.mod_pos_bound (chunk_x pos) 32 ltac:(lia)).
  pose proof (Z.mod_pos_bound (chunk_z pos) 32 ltac:(lia)). lia.
Qed.

Lemma remaining_view mem : Buffer.remaining (Buffer.view mem (length mem)) = mem.
Proof.
  unfold Buffer.remaining, Buffer.contents, Buffer.view. cbn.
  rewrite drop_0. apply take_ge. lia.
Qed.

Lemma wf_view mem : Buffer.wf (Buffer.view mem (length mem)).
Proof. split; cbn; lia. Qed.

Section Pool.
Variable junk : nat -> Z.

(** Saving a dirty chunk into a sound region file succeeds, and loading
    the same coordinate from the file that results returns a chunk: the
    one [deserialize_chunk] created at its start, with no section. *)
Lemma save_chunk_sound clock r chunk :
  sound_region r -> wf_chunk chunk -> full_light chunk ->
  Chunk.is_dirty chunk = true ->
  forall now,
  let saved := WorldPersistence.save_chunk junk clock r (Some chunk) in
  saved.1.1 = true
  /\ WorldPersistence.load_chunk now saved.1.2 (Chunk.get_position chunk)
     = Some (Chunk.set_dirty false
               (Chunk.set_loaded true (Chunk.create now (Chunk.get_position chunk)))).
Proof.
  intros (Hopen & (sectors & Hsectors & Hfile) & Hlocs & Htimes) Hwf Hlight Hdirty now.
  pose proof (length_chunk_bytes chunk Hwf Hlight) as Hsize.
  destruct (CodecFacts.serialize_chunk_appends junk chunk
              (Buffer.create junk (Z.to_nat 65536))
              (BufferFacts.wf_create junk _)) as (Dwf & Dcontents & Dsize & _).
  change (Buffer.contents (Buffer.create junk (Z.to_nat 65536))) with (@nil Z) in Dcontents.
  change (Buffer.size_ (Buffer.create junk (Z.to_nat 65536))) with 0%nat in Dsize.
  cbn [app Nat.add] in Dcontents, Dsize.
  unfold WorldPersistence.save_chunk. rewrite Hdirty, Hopen. cbn [negb].
  destruct (WorldPersistence.get_local_chunk_coords (Chunk.get_position chunk))
    as [local_x local_z] eqn:Hlocal.
  pose proof (local_chunk_index _ _ _ Hlocal) as Hindex.
  cbv zeta. unfold Buffer.size. rewrite Dcontents, Dsize.
  split; [reflexivity |]. cbn [fst snd].
  set (data := WorldPersistence.chunk_bytes chunk) in *.
  set (size := Z.of_nat (length data)) in *.
  change (2 ^ 20) with 1048576 in Hsectors.
  assert (Hoff : Int.to_u32 (Z.of_nat (length (WorldPersistence.file r))) / 4096
                 = sectors).
  { rewrite Hfile. unfold Int.to_u32, Int.to_unsigned.
    rewrite Z.mod_small by (change (2 ^ 32) with 4294967296; lia).
    apply Z.div_mul. lia. }
  rewrite Hoff.
  set (count := (size + 4095) / 4096).
  assert (Hcount : 1 <= count <= 73)
    by (unfold count; Z.to_euclidean_division_equations; lia).
  assert (Hc32 : Int.to_u32 count = count).
  { unfold Int.to_u32, Int.to_unsigned. apply Z.mod_small.
    change (2 ^ 32) with 4294967296. lia. }
  rewrite Hc32.
  pose proof (location_fields sectors count ltac:(change (2 ^ 20) with 1048576; lia)
                ltac:(lia)) as Hfields.
  cbv zeta in Hfields.
  set (location := Int.to_u32 (Z.lor (Z.shiftl sectors 8) (Z.land count 255))) in *.
  destruct Hfields as (Hloc & Hso & Hsc).
  set (padding := repeat 0 (Z.to_nat ((4096 - size mod 4096) mod 4096))).
  assert (Hpayload : Z.of_nat (length (data ++ padding)) = count * 4096).
  { unfold padding. rewrite length_app, repeat_length.
    rewrite Nat2Z.inj_add, Z2Nat.id by (apply Z.mod_pos_bound; lia).
    fold size. unfold count. apply sectors_padding. lia. }
  unfold WorldPersistence.load_chunk, WorldPersistence.save_region_header.
  cbn [WorldPersistence.is_open WorldPersistence.locations WorldPersistence.file
       WorldPersistence.timestamps negb].
  rewrite Hlocal.
  rewrite ChunkFacts.nth_insert_eq by (rewrite Hlocs; lia).
  destruct (Z.eqb_spec location 0) as [Hz | _]; [lia |].
  cbv zeta. rewrite Hso, Hsc.
  destruct (Z.eqb_spec sectors 0) as [Hz | _]; [lia |].
  destruct (Z.eqb_spec count 0) as [Hz | _]; [lia |].
  cbn [orb].
  assert (Hn : Z.to_nat (Int.to_u32 (count * 4096)) = length (data ++ padding)).
  { unfold Int.to_u32, Int.to_unsigned.
    rewrite Z.mod_small by (change (2 ^ 32) with 4294967296; lia). lia. }
  assert (Hpos : Z.to_nat (Int.to_u32 (sectors * 4096))
                 = length (WorldPersistence.file r)).
  { unfold Int.to_u32, Int.to_unsigned.
    rewrite Z.mod_small by (change (2 ^ 32) with 4294967296; lia). lia. }
  rewrite Hn, Hpos.
  rewrite file_read_back; [| | reflexivity | reflexivity].
  2: { rewrite length_app, !length_be32_table, !length_insert, Hlocs, Htimes. lia. }
  destruct (CodecFacts.deserialize_chunk_ok now (Chunk.get_position chunk) chunk
              (Buffer.view (data ++ padding) (length (data ++ padding))) padding
              (wf_view _) (remaining_view _) Hwf Hlight) as [b' Hd].
  rewrite Hd. reflexivity.
Qed.

End Pool.

End PersistenceFacts.

(** C10 (the code falls short of it).  On a chunk nothing was written to,
    [get_sky_light] returns 15, not 0, at [y = -65], which lies below
    [WORLD_MIN_Y = -64]: the section index [(y + 64) / 16] rounds towards
    zero and passes the range check. *)
Theorem sky_light_below_the_world (now : Z) (pos : ChunkPos) (x z : Z) :
  Chunk.get_sky_light (Chunk.create now pos) x (-65) z = 15
  /\ Chunk.get_section_index (-65) = 0
  /\ -65 < world.WORLD_MIN_Y.
Proof.
  split; [| split; reflexivity].
  rewrite ChunkFacts.fresh_chunk_sky_light; [reflexivity |].
  unfold Int.is_i32. lia.
Qed.

(** ** The player registry *)

Module PlayerManagerFacts.
Import PlayerManager.

(** [create_player] of the class has no failing path: whatever the
    registry holds, the session it makes ends up in all three maps under
    the entity id the counter gave. *)
Lemma create_player_registers connection uuid username m :
  let '(player, m') := create_player connection uuid username m in
  players_by_uuid_ m' !! uuid = Some player
  /\ players_by_name_ m' !! username = Some player
  /\ players_by_entity_id_ m' !! next_entity_id_ m = Some player
  /\ heap_ m' !! player
     = Some (Player.create connection uuid username (next_entity_id_ m))
  /\ heap_ m !! player = None.
Proof.
  unfold create_player, get_next_entity_id, make_shared, register.
  cbn [heap_ players_by_uuid_ players_by_name_ players_by_entity_id_ next_entity_id_].
  rewrite !lookup_insert_eq. repeat split.
  apply not_elem_of_dom. apply is_fresh.
Qed.

(** The definition of the integration files does refuse. *)
Lemma create_player_integration_duplicate max_players spawn is_closed connection
    uuid username m :
  is_Some (players_by_uuid_ m !! uuid) ->
  create_player_integration max_players spawn is_closed connection uuid username m
  = (None, m).
Proof.
  intros [q Hq]. unfold create_player_integration, get_player.
  destruct (max_players <=? _); [reflexivity |]. rewrite Hq. reflexivity.
Qed.

Lemma create_player_integration_full max_players spawn is_closed connection
    uuid username m :
  max_players <= Z.of_nat (get_online_count is_closed m) ->
  create_player_integration max_players spawn is_closed connection uuid username m
  = (None, m).
Proof.
  intros H. unfold create_player_integration.
  destruct (Z.leb_spec max_players (Z.of_nat (get_online_count is_closed m)));
    [reflexivity | lia].
Qed.

End PlayerManagerFacts.

(** C5 (the code falls short of it).  Alex is online and is the only
    player.  [create_player] of the class, asked for Alex's UUID again,
    returns a second session with entity id 2 and makes the registry
    point to it, where the definition of the integration files returns
    [nullptr]; with room for one player only it still creates a session
    for Bob, where the other definition returns [nullptr]. *)
Theorem create_player_never_refuses :
  let m := Examples.alex_online in
  let again :=
    PlayerManager.create_player (Some 1%nat) Examples.alex_uuid Examples.alex m in
  let bob :=
    PlayerManager.create_player (Some 1%nat) Examples.bob_uuid Examples.bob m in
  PlayerManager.get_player Examples.alex_uuid m = Some 0%nat
  /\ PlayerManager.get_online_count Examples.all_open m = 1%nat
  /\ fst again = 1%nat
  /\ PlayerManager.get_player Examples.alex_uuid (snd again) = Some 1%nat
  /\ Player.entity_id_ <$> PlayerManager.heap_ (snd again) !! 1%nat = Some 2
  /\ fst (PlayerManager.create_player_integration 20 (0, 0) Examples.all_open
            (Some 1%nat) Examples.alex_uuid Examples.alex m) = None
  /\ PlayerManager.get_player Examples.bob_uuid (snd bob) = Some (fst bob)
  /\ PlayerManager.players_by_name_ (snd bob) !! Examples.bob = Some (fst bob)
  /\ PlayerManager.players_by_entity_id_ (snd bob) !! 2 = Some (fst bob)
  /\ fst (PlayerManager.create_player_integration 1 (0, 0) Examples.all_open
            (Some 1%nat) Examples.bob_uuid Examples.bob m) = None.
Proof. vm_compute. repeat split. Qed.

(** ** The chunk view of a player *)

Module PlayerFacts.
Import Player.

Lemma elem_of_offsets r d :
  0 <= r < 2 ^ 31 -> d ∈ offsets r <-> - r <= d <= r.
Proof.
  intros Hr. unfold offsets. cbv zeta.
  rewrite IntFacts.to_i32_small by lia.
  rewrite elem_of_seqZ. lia.
Qed.

Section Loops.
Variable P : Z -> Z -> bool.
Variable g : Z -> Z -> ChunkPos.

Lemma inner_loop dx (l : list Z) : forall (acc : gset ChunkPos) c,
  c ∈ fold_left (fun needed dz => if P dx dz then {[g dx dz]} ∪ needed else needed)
        l acc
  <-> c ∈ acc \/ exists dz, dz ∈ l /\ P dx dz = true /\ c = g dx dz.
Proof.
  induction l as [| d l IH]; intros acc c; cbn [fold_left].
  - split; [auto | intros [H | (dz & Hin & _)]; [exact H | inversion Hin]].
  - rewrite IH. destruct (P dx d) eqn:HP.
    + rewrite elem_of_union, elem_of_singleton. split.
      * intros [[-> | H] | (dz & Hin & HPz & ->)]; eauto.
        -- right. exists d. split; [left | auto].
        -- right. exists dz. split; [right; exact Hin | auto].
      * intros [H | (dz & Hin & HPz & ->)]; [auto |].
        apply elem_of_cons in Hin as [-> | Hin]; [auto |].
        right. eauto.
    + split.
      * intros [H | (dz & Hin & HPz & ->)]; [auto |].
        right. exists dz. split; [right; exact Hin | auto].
      * intros [H | (dz & Hin & HPz & ->)]; [auto |].
        apply elem_of_cons in Hin as [-> | Hin]; [congruence |].
        right. eauto.
Qed.

Lemma outer_loop (l2 l1 : list Z) : forall (acc : gset ChunkPos) c,
  c ∈ fold_left
        (fun needed dx =>
           fold_left (fun needed dz => if P dx dz then {[g dx dz]} ∪ needed else needed)
             l2 needed)
        l1 acc
  <-> c ∈ acc
      \/ exists dx dz, dx ∈ l1 /\ dz ∈ l2 /\ P dx dz = true /\ c = g dx dz.
Proof.
  induction l1 as [| d l1 IH]; intros acc c; cbn [fold_left].
  - split; [auto | intros [H | (dx & dz & Hin & _)]; [exact H | inversion Hin]].
  - rewrite IH, inner_loop. split.
    + intros [[H | (dz & Hin & HP & ->)] | (dx & dz & Hx & Hz & HP & ->)]; [auto | |].
      * right. exists d, dz. split; [left | auto].
      * right. exists dx, dz. split; [right; exact Hx | auto].
    + intros [H | (dx & dz & Hx & Hz & HP & ->)]; [auto |].
      apply elem_of_cons in Hx as [-> | Hx]; [left; right; eauto |].
      right. eauto 6.
Qed.

End Loops.

(** [needed_chunks] is the disc of the specification. *)
Lemma elem_of_needed_chunks center r c :
  0 <= r <= 32 ->
  - 2 ^ 27 <= chunk_x center < 2 ^ 27 ->
  - 2 ^ 27 <= chunk_z center < 2 ^ 27 ->
  c ∈ needed_chunks center r
  <-> exists dx dz, c = mkChunkPos (chunk_x center + dx) (chunk_z center + dz)
                    /\ dx * dx + dz * dz <= r * r.
Proof.
  intros Hr Hx Hz. unfold needed_chunks.
  rewrite (outer_loop
             (fun dx dz => Int.to_i32 (Int.to_i32 (dx * dx) + Int.to_i32 (dz * dz))
                           <=? Int.to_i32 (r * r))
             (fun dx dz => mkChunkPos (Int.to_i32 (chunk_x center + dx))
                                      (Int.to_i32 (chunk_z center + dz)))).
  assert (Hbound : forall d, - r <= d <= r -> 0 <= d * d <= 1024) by (intros; nia).
  assert (Hrr : 0 <= r * r <= 1024) by nia.
  split.
  - intros [H | (dx & dz & Hdx & Hdz & HP & ->)]; [set_solver |].
    apply elem_of_offsets in Hdx; [| lia]. apply elem_of_offsets in Hdz; [| lia].
    pose proof (Hbound dx Hdx). pose proof (Hbound dz Hdz).
    rewrite (IntFacts.to_i32_small (dx * dx)), (IntFacts.to_i32_small (dz * dz)),
      (IntFacts.to_i32_small (dx * dx + dz * dz)), (IntFacts.to_i32_small (r * r))
      in HP by lia.
    rewrite (IntFacts.to_i32_small (chunk_x center + dx)),
      (IntFacts.to_i32_small (chunk_z center + dz)) by lia.
    exists dx, dz. split; [reflexivity | lia].
  - intros (dx & dz & -> & Hle). right. exists dx, dz.
    assert (- r <= dx <= r) by nia. assert (- r <= dz <= r) by nia.
    pose proof (Hbound dx ltac:(lia)). pose proof (Hbound dz ltac:(lia)).
    rewrite !elem_of_offsets by lia.
    rewrite (IntFacts.to_i32_small (dx * dx)), (IntFacts.to_i32_small (dz * dz)),
      (IntFacts.to_i32_small (dx * dx + dz * dz)), (IntFacts.to_i32_small (r * r)),
      (IntFacts.to_i32_small (chunk_x center + dx)),
      (IntFacts.to_i32_small (chunk_z center + dz)) by lia.
    split; [lia | split; [lia | split; [apply Z.leb_le; lia | reflexivity]]].
Qed.

(** The chunk of a player whose block coordinates are [i32] values. *)
Lemma get_chunk_pos_range p :
  Int.is_i32 (block_x_ p) -> Int.is_i32 (block_z_ p) ->
  - 2 ^ 27 <= chunk_x (get_chunk_pos p) < 2 ^ 27
  /\ - 2 ^ 27 <= chunk_z (get_chunk_pos p) < 2 ^ 27.
Proof.
  unfold Int.is_i32, get_chunk_pos. cbn [chunk_x chunk_z].
  rewrite !Z.shiftr_div_pow2 by lia. intros Hx Hz.
  change (2 ^ 31) with (2 ^ 27 * 2 ^ 4) in *.
  split; split.
  all: try (apply Z.div_le_lower_bound; lia).
  all: apply Z.div_lt_upper_bound; lia.
Qed.

(** The erase loop keeps what is needed. *)
Lemma erase_loop (needed : gset ChunkPos) (l : list ChunkPos) :
  forall (acc : gset ChunkPos) c,
  c ∈ fold_left (fun loaded pos => if decide (pos ∈ needed) then loaded
                                   else loaded ∖ {[pos]}) l acc
  <-> c ∈ acc /\ (c ∈ l -> c ∈ needed).
Proof.
  induction l as [| d l IH]; intros acc c; cbn [fold_left].
  - split; [intros H; split; [exact H | intros Hin; inversion Hin] | tauto].
  - rewrite IH. destruct (decide (d ∈ needed)) as [Hd | Hd].
    + split; intros [H1 H2]; (split; [exact H1 |]); intros Hin.
      * apply elem_of_cons in Hin as [-> | Hin]; auto.
      * apply H2. right. exact Hin.
    + rewrite elem_of_difference, elem_of_singleton. split.
      * intros [[H1 Hne] H2]. split; [exact H1 |]. intros Hin.
        apply elem_of_cons in Hin as [-> | Hin]; [congruence | auto].
      * intros [H1 H2]. split; [split; [exact H1 |] |].
        -- intros ->. apply Hd, H2. left.
        -- intros Hin. apply H2. right. exact Hin.
Qed.

(** The insert loop adds what it walks over. *)
Lemma insert_loop now (l : list ChunkPos) :
  forall (st : gset ChunkPos * ChunkManager.t * list Job) c,
  c ∈ (fold_left
         (fun '(loaded, m, jobs) pos =>
            if decide (pos ∈ loaded) then (loaded, m, jobs)
            else
              let '(_, m, job) := ChunkManager.load_chunk now pos m in
              ({[pos]} ∪ loaded, m, jobs ++ option_list job))
         l st).1.1
  <-> c ∈ st.1.1 \/ c ∈ l.
Proof.
  induction l as [| d l IH]; intros [[loaded m] jobs] c; cbn [fold_left].
  - cbn [fst]. split; [auto | intros [H | H]; [exact H | inversion H]].
  - rewrite IH. destruct (decide (d ∈ loaded)) as [Hd | Hd].
    + cbn [fst]. rewrite elem_of_cons. split; [tauto |].
      intros [H | [-> | H]]; auto.
    + destruct (ChunkManager.load_chunk now d m) as [[o m'] job]. cbn [fst].
      rewrite elem_of_union, elem_of_singleton, elem_of_cons. tauto.
Qed.

(** The view distance of a session is always within the clamp. *)
Lemma view_distance_create connection uuid username entity_id :
  view_distance_ (create connection uuid username entity_id) = 10.
Proof. reflexivity. Qed.

Lemma view_distance_clamped distance p :
  2 <= view_distance_ (set_view_distance distance p) <= 32.
Proof. cbn [set_view_distance view_distance_]. lia. Qed.

Lemma update_loaded_chunks_needed now p m c :
  c ∈ loaded_chunks_ (update_loaded_chunks now p m).1.1
  <-> c ∈ needed_chunks (get_chunk_pos p) (view_distance_ p).
Proof.
  unfold update_loaded_chunks. cbv zeta.
  set (needed := needed_chunks (get_chunk_pos p) (view_distance_ p)).
  set (erased := fold_left _ (elements (loaded_chunks_ p)) (loaded_chunks_ p)).
  pose proof (insert_loop now (elements needed) (erased, m, []) c) as Hins.
  destruct (fold_left _ (elements needed) (erased, m, [])) as [[loaded m'] jobs].
  cbn [fst set_loaded_chunks loaded_chunks_] in *.
  rewrite Hins. unfold erased. rewrite erase_loop, !elem_of_elements. tauto.
Qed.

Lemma elem_of_filter_bool (f : ChunkPos -> bool) (l : list ChunkPos) c :
  c ∈ List.filter f l <-> c ∈ l /\ f c = true.
Proof. rewrite !list_elem_of_In. apply filter_In. Qed.

(** The unload loop of the integration file drops what it walks over. *)
Lemma unload_loop (open : bool) (l : list ChunkPos) :
  forall (st : gset ChunkPos * list ChunkViewPacket) c,
  c ∈ (fold_left
         (fun '(loaded, packets) pos =>
            (loaded ∖ {[pos]},
             if open then packets ++ [UnloadChunkPacket pos] else packets))
         l st).1
  <-> c ∈ st.1 /\ c ∉ l.
Proof.
  induction l as [| d l IH]; intros [loaded packets] c; cbn [fold_left].
  - cbn [fst]. split; [intros H; split; [exact H | intros Hin; inversion Hin] | tauto].
  - rewrite IH. cbn [fst].
    rewrite elem_of_difference, elem_of_singleton, not_elem_of_cons. tauto.
Qed.

(** Whether a round of the load loop at [pos] reaches
    [send_chunk_data] depends on the store as the call found it: the
    rounds before touch chunks and mark coordinates pending, no more. *)
Lemma load_round_step now open loaded m jobs d :
  exists m' jobs',
    load_round now open (Some (loaded, m, jobs)) d
    = (if match ChunkManager.loaded_chunks_ m !! d with
           | Some ch => Chunk.is_loaded ch && open
           | None => false
           end
       then None else Some ({[d]} ∪ loaded, m', jobs'))
    /\ forall pos,
         Chunk.is_loaded <$> ChunkManager.loaded_chunks_ m' !! pos
         = Chunk.is_loaded <$> ChunkManager.loaded_chunks_ m !! pos.
Proof.
  unfold load_round, ChunkManager.get_chunk, ChunkManager.load_chunk. cbv zeta.
  destruct (ChunkManager.loaded_chunks_ m !! d) as [ch |] eqn:Hd.
  - eexists _, _. split; [reflexivity |].
    intros pos. cbn [ChunkManager.set_loaded_chunks ChunkManager.loaded_chunks_].
    rewrite lookup_insert. destruct (decide (d = pos)) as [<- | _]; [| reflexivity].
    rewrite Hd. reflexivity.
  - rewrite Hd. destruct (decide (d ∈ ChunkManager.pending_chunks_ m));
      eexists _, _; (split; [reflexivity |]); intros pos; reflexivity.
Qed.

Lemma load_loop_dead now open (l : list ChunkPos) :
  fold_left (load_round now open) l None = None.
Proof. induction l as [| d l IH]; [reflexivity | exact IH]. Qed.

(** The load loop adds what it walks over, and dies exactly when one of
    the coordinates it walks over has its chunk in the store, marked
    loaded, while the connection is open. *)
Lemma load_loop now open (l : list ChunkPos) : forall loaded m jobs,
  match fold_left (load_round now open) l (Some (loaded, m, jobs)) with
  | Some (loaded', _, _) =>
      (forall c, c ∈ loaded' <-> c ∈ loaded \/ c ∈ l)
      /\ forall pos ch, pos ∈ l -> ChunkManager.loaded_chunks_ m !! pos = Some ch ->
           Chunk.is_loaded ch && open = false
  | None =>
      exists pos ch, pos ∈ l /\ ChunkManager.loaded_chunks_ m !! pos = Some ch
                     /\ Chunk.is_loaded ch && open = true
  end.
Proof.
  induction l as [| d l IH]; intros loaded m jobs; cbn [fold_left].
  - split; [| intros pos ch Hin; inversion Hin].
    intros c. split; [auto | intros [H | H]; [exact H | inversion H]].
  - destruct (load_round_step now open loaded m jobs d) as (m' & jobs' & -> & Hflags).
    destruct (ChunkManager.loaded_chunks_ m !! d) as [chd |] eqn:Hd.
    + destruct (Chunk.is_loaded chd && open) eqn:Hsend.
      * rewrite load_loop_dead. exists d, chd.
        split; [apply elem_of_cons; by left | by split].
      * specialize (IH ({[d]} ∪ loaded) m' jobs').
        destruct (fold_left _ l _) as [[[loaded2 m2] jobs2] |].
        -- destruct IH as [Hmem Hnone]. split.
           ++ intros c. rewrite Hmem, elem_of_union, elem_of_singleton, elem_of_cons.
              tauto.
           ++ intros pos ch Hin Hpos. apply elem_of_cons in Hin.
              destruct Hin as [-> | Hin]; [congruence |].
              pose proof (Hflags pos) as Hf. rewrite Hpos in Hf.
              destruct (ChunkManager.loaded_chunks_ m' !! pos) as [ch' |] eqn:Hpos';
                [| discriminate].
              injection Hf as Hf. rewrite <- Hf. exact (Hnone pos ch' Hin Hpos').
        -- destruct IH as (pos & ch' & Hin & Hpos' & Hsend').
           pose proof (Hflags pos) as Hf. rewrite Hpos' in Hf.
           destruct (ChunkManager.loaded_chunks_ m !! pos) as [ch |] eqn:Hpos;
             [| discriminate].
           injection Hf as Hf. exists pos, ch.
           split; [apply elem_of_cons; by right |]. split; [exact Hpos |].
           rewrite <- Hf. exact Hsend'.
    + specialize (IH ({[d]} ∪ loaded) m' jobs').
      destruct (fold_left _ l _) as [[[loaded2 m2] jobs2] |].
      * destruct IH as [Hmem Hnone]. split.
        -- intros c. rewrite Hmem, elem_of_union, elem_of_singleton, elem_of_cons.
           tauto.
        -- intros pos ch Hin Hpos. apply elem_of_cons in Hin.
           destruct Hin as [-> | Hin]; [congruence |].
           pose proof (Hflags pos) as Hf. rewrite Hpos in Hf.
           destruct (ChunkManager.loaded_chunks_ m' !! pos) as [ch' |] eqn:Hpos';
             [| discriminate].
           injection Hf as Hf. rewrite <- Hf. exact (Hnone pos ch' Hin Hpos').
      * destruct IH as (pos & ch' & Hin & Hpos' & Hsend').
        pose proof (Hflags pos) as Hf. rewrite Hpos' in Hf.
        destruct (ChunkManager.loaded_chunks_ m !! pos) as [ch |] eqn:Hpos;
          [| discriminate].
        injection Hf as Hf. exists pos, ch.
        split; [apply elem_of_cons; by right |]. split; [exact Hpos |].
        rewrite <- Hf. exact Hsend'.
Qed.

(** The integration definition: when it returns, the set is the needed
    one; it dies exactly when the connection is open and the store has,
    marked loaded, a needed chunk that the session did not have. *)
Lemma update_loaded_chunks_integration_spec now open p m :
  let needed := needed_chunks (get_chunk_pos p) (view_distance_ p) in
  match update_loaded_chunks_integration now open p m with
  | Some done => forall c, c ∈ loaded_chunks_ done.1.1.1 <-> c ∈ needed
  | None =>
      open = true
      /\ exists pos ch, pos ∈ needed /\ (pos ∉ loaded_chunks_ p)
                        /\ ChunkManager.loaded_chunks_ m !! pos = Some ch
                        /\ Chunk.is_loaded ch = true
  end
  /\ (open = true ->
      (exists pos ch, pos ∈ needed /\ (pos ∉ loaded_chunks_ p)
                      /\ ChunkManager.loaded_chunks_ m !! pos = Some ch
                      /\ Chunk.is_loaded ch = true) ->
      update_loaded_chunks_integration now open p m = None).
Proof.
  cbv zeta. unfold update_loaded_chunks_integration. cbv zeta.
  set (needed := needed_chunks (get_chunk_pos p) (view_distance_ p)).
  set (to_unload := List.filter _ (elements (loaded_chunks_ p))).
  assert (Hun : forall c,
            c ∈ (fold_left
                   (fun '(loaded, packets) pos =>
                      (loaded ∖ {[pos]},
                       if open then packets ++ [UnloadChunkPacket pos] else packets))
                   to_unload (loaded_chunks_ p, [])).1
            <-> c ∈ loaded_chunks_ p /\ (c ∈ loaded_chunks_ p -> c ∈ needed)).
  { intros c. rewrite (unload_loop open to_unload (loaded_chunks_ p, []) c).
    cbn [fst]. unfold to_unload.
    rewrite elem_of_filter_bool, elem_of_elements, bool_decide_eq_true.
    destruct (decide (c ∈ needed)); tauto. }
  destruct (fold_left _ to_unload (loaded_chunks_ p, [])) as [loaded1 packets1].
  cbn [fst] in Hun.
  set (to_load := List.filter _ (elements needed)).
  assert (Hto : forall c, c ∈ to_load <-> c ∈ needed /\ c ∉ loaded_chunks_ p).
  { intros c. unfold to_load.
    rewrite elem_of_filter_bool, elem_of_elements, bool_decide_eq_true, Hun.
    tauto. }
  pose proof (load_loop now open to_load loaded1 m []) as Hld.
  destruct (fold_left (load_round now open) to_load (Some (loaded1, m, [])))
    as [[[loaded2 m2] jobs2] |].
  - destruct Hld as [Hmem Hnone]. split.
    + intros c. cbn [fst set_loaded_chunks loaded_chunks_].
      rewrite Hmem, Hun, Hto.
      destruct (decide (c ∈ needed)), (decide (c ∈ loaded_chunks_ p)); tauto.
    + intros -> (pos & ch & Hn & Hl & Hpos & Hflag). exfalso.
      assert (Hin : pos ∈ to_load) by (apply Hto; by split).
      pose proof (Hnone pos ch Hin Hpos) as H. rewrite Hflag in H. discriminate.
  - destruct Hld as (pos & ch & Hin & Hpos & Hsend).
    apply andb_true_iff in Hsend. destruct Hsend as [Hflag Hopen].
    apply Hto in Hin. destruct Hin as [Hn Hl].
    split; [| reflexivity].
    split; [exact Hopen |]. by exists pos, ch.
Qed.

End PlayerFacts.

(** C7.  For a session whose view distance is within the clamp [[2, 32]]
    and whose block coordinates are [i32] values, with centre the chunk of
    that position: after [update_loaded_chunks], in the definition of the
    class and, whenever it returns, in that of the integration file,
    [loaded_chunks_] holds exactly the coordinates [(cx + dx, cz + dz)]
    with [dx² + dz² <= r²].  The definition of the integration file does
    not return exactly when the connection is open and the store holds,
    marked loaded, a chunk of the disc that the session did not have yet:
    the process dies in [send_chunk_data]. *)
Theorem loaded_chunks_is_the_disc (now : Z) (open : bool) (p : Player.t)
    (m : ChunkManager.t) (c : ChunkPos) :
  2 <= Player.view_distance_ p <= 32 ->
  Int.is_i32 (Player.block_x_ p) -> Int.is_i32 (Player.block_z_ p) ->
  let centre := Player.get_chunk_pos p in
  let r := Player.view_distance_ p in
  let disc c :=
    exists dx dz, c = mkChunkPos (chunk_x centre + dx) (chunk_z centre + dz)
                  /\ dx * dx + dz * dz <= r * r in
  let dies :=
    open = true
    /\ exists pos chunk,
         disc pos /\ (pos ∉ Player.loaded_chunks_ p)
         /\ ChunkManager.loaded_chunks_ m !! pos = Some chunk
         /\ Chunk.is_loaded chunk = true in
  (c ∈ Player.loaded_chunks_ (Player.update_loaded_chunks now p m).1.1 <-> disc c)
  /\ (Player.update_loaded_chunks_integration now open p m = None <-> dies)
  /\ (forall done,
        Player.update_loaded_chunks_integration now open p m = Some done ->
        (c ∈ Player.loaded_chunks_ done.1.1.1 <-> disc c)).
Proof.
  intros Hr Hx Hz. cbv zeta.
  destruct (PlayerFacts.get_chunk_pos_range p Hx Hz) as [Hcx Hcz].
  assert (Hdisc : forall q,
            q ∈ Player.needed_chunks (Player.get_chunk_pos p) (Player.view_distance_ p)
            <-> exists dx dz,
                  q = mkChunkPos (chunk_x (Player.get_chunk_pos p) + dx)
                        (chunk_z (Player.get_chunk_pos p) + dz)
                  /\ dx * dx + dz * dz
                     <= Player.view_distance_ p * Player.view_distance_ p)
    by (intros q; apply PlayerFacts.elem_of_needed_chunks; lia).
  split; [rewrite PlayerFacts.update_loaded_chunks_needed; apply Hdisc |].
  destruct (PlayerFacts.update_loaded_chunks_integration_spec now open p m)
    as [Hspec Hdies].
  cbv zeta in Hspec, Hdies. split.
  - split.
    + intros Hnone. rewrite Hnone in Hspec.
      destruct Hspec as (Hopen & pos & ch & Hn & Hrest).
      split; [exact Hopen |]. exists pos, ch. split; [apply Hdisc, Hn | exact Hrest].
    + intros (Hopen & pos & ch & Hn & Hrest). apply Hdies; [exact Hopen |].
      exists pos, ch. split; [apply Hdisc, Hn | exact Hrest].
  - intros done Hdone. rewrite Hdone in Hspec. rewrite Hspec. apply Hdisc.
Qed.

Lemma loaded_chunks_is_the_disc_witness :
  let p := Player.set_view_distance 2 (Player.create None [] [] 1) in
  let m := ChunkManager.set_loaded_chunks
             {[mkChunkPos 1 (-1) := Chunk.set_loaded true
                                      (Chunk.create 0 (mkChunkPos 1 (-1)))]}
             ChunkManager.create in
  2 <= Player.view_distance_ p <= 32
  /\ Int.is_i32 (Player.block_x_ p) /\ Int.is_i32 (Player.block_z_ p)
  /\ let c := mkChunkPos 1 (-1) in
     let centre := Player.get_chunk_pos p in
     let r := Player.view_distance_ p in
     let disc c :=
       exists dx dz, c = mkChunkPos (chunk_x centre + dx) (chunk_z centre + dz)
                     /\ dx * dx + dz * dz <= r * r in
     let dies :=
       true = true
       /\ exists pos chunk,
            disc pos /\ (pos ∉ Player.loaded_chunks_ p)
            /\ ChunkManager.loaded_chunks_ m !! pos = Some chunk
            /\ Chunk.is_loaded chunk = true in
     (c ∈ Player.loaded_chunks_ (Player.update_loaded_chunks 0 p m).1.1 <-> disc c)
     /\ (Player.update_loaded_chunks_integration 0 true p m = None <-> dies)
     /\ (forall done,
           Player.update_loaded_chunks_integration 0 true p m = Some done ->
           (c ∈ Player.loaded_chunks_ done.1.1.1 <-> disc c)).
Proof.
  cbv zeta.
  assert (Hr : 2 <= Player.view_distance_
                      (Player.set_view_distance 2 (Player.create None [] [] 1)) <= 32)
    by (simpl; lia).
  assert (Hx : Int.is_i32 (Player.block_x_
                 (Player.set_view_distance 2 (Player.create None [] [] 1))))
    by (unfold Int.is_i32; simpl; lia).
  assert (Hz : Int.is_i32 (Player.block_z_
                 (Player.set_view_distance 2 (Player.create None [] [] 1))))
    by (unfold Int.is_i32; simpl; lia).
  split; [exact Hr | split; [exact Hx | split; [exact Hz |]]].
  exact (loaded_chunks_is_the_disc 0 true
           (Player.set_view_distance 2 (Player.create None [] [] 1))
           (ChunkManager.set_loaded_chunks
              {[mkChunkPos 1 (-1) := Chunk.set_loaded true
                                       (Chunk.create 0 (mkChunkPos 1 (-1)))]}
              ChunkManager.create)
           (mkChunkPos 1 (-1)) Hr Hx Hz).
Defined.

(** ** The chunk store and the region files *)

(** C6 (the code falls short of it).  The region file stores the chunk at
    [(0, 0)], a chunk of AIR, and [WorldPersistence::load_chunk] reads it
    back.  The store, empty, is asked for [(0, 0)]:
    [ChunkManager::load_chunk] of world/chunk.hpp returns nothing and
    submits the generation job, without a look at the region file.  The
    definition of [ChunkManager::load_chunk] in
    minecraft_server_complete.cpp returns the stored chunk and submits no
    job. *)
Theorem load_chunk_skips_persistence :
  let disk := Examples.stored_region in
  let pos := Examples.origin in
  let asked := ChunkManager.load_chunk 0 pos ChunkManager.create in
  let asked_integration :=
    ChunkManager.load_chunk_integration 0 disk pos ChunkManager.create in
  WorldPersistence.stored_on_disk disk pos = true
  /\ (fun c => Chunk.get_block c 0 (-64) 0) <$> WorldPersistence.load_chunk 0 disk pos
     = Some world.AIR
  /\ asked.1.1 = None
  /\ asked.2 = Some (GenerateChunk pos)
  /\ ChunkManager.loaded_chunks_ asked.1.2 !! pos = None
  /\ (fun c => (Chunk.get_block c 0 (-64) 0, Chunk.is_dirty c))
       <$> asked_integration.1.1
     = Some (world.AIR, false)
  /\ asked_integration.2 = None.
Proof.
  cbv zeta.
  split; [vm_compute; reflexivity |].
  split; [vm_compute; reflexivity |].
  split; [vm_compute; reflexivity |].
  split; [vm_compute; reflexivity |].
  split; [apply lookup_empty |].
  split; vm_compute; reflexivity.
Qed.

(** C1 (the code falls short of it).  A dirty chunk with one STONE block
    at [(0, -64, 0)] is saved into a region file that holds its header
    and no chunk; the save succeeds.  Loading the same coordinate from
    the file that results returns a chunk, marked loaded, that has AIR at
    [(0, -64, 0)]: [deserialize_chunk] reads the section back and never
    puts it into the chunk it returns. *)
Theorem save_then_load_loses_the_blocks (junk : nat -> Z) (clock now : Z) :
  let chunk := Examples.stone_chunk in
  let saved :=
    WorldPersistence.save_chunk junk clock Examples.empty_region (Some chunk) in
  Chunk.is_dirty chunk = true
  /\ Chunk.get_block chunk 0 (-64) 0 = world.STONE
  /\ saved.1.1 = true
  /\ exists loaded,
       WorldPersistence.load_chunk now saved.1.2 (Chunk.get_position chunk)
       = Some loaded
       /\ Chunk.is_loaded loaded = true
       /\ Chunk.get_block loaded 0 (-64) 0 = world.AIR.
Proof.
  cbv zeta.
  assert (Hy : ChunkShape.valid_y (-64))
    by (unfold ChunkShape.valid_y, world.WORLD_MIN_Y, world.WORLD_MAX_Y; lia).
  assert (Hregion : sound_region Examples.empty_region).
  { split; [reflexivity | split; [| split; apply repeat_length]].
    exists 2. split; [lia |].
    unfold Examples.empty_region. cbn [WorldPersistence.file].
    rewrite repeat_length. lia. }
  assert (Hwf : ChunkShape.wf_chunk Examples.stone_chunk)
    by (apply ChunkFacts.wf_chunk_set_block;
        [exact Hy | apply ChunkFacts.wf_chunk_create]).
  assert (Hlight : ChunkShape.full_light Examples.stone_chunk)
    by (apply PersistenceFacts.full_light_set_block;
        [exact Hy | apply PersistenceFacts.full_light_create]).
  assert (Hdirty : Chunk.is_dirty Examples.stone_chunk = true) by reflexivity.
  destruct (PersistenceFacts.save_chunk_sound junk clock Examples.empty_region
              Examples.stone_chunk Hregion Hwf Hlight Hdirty now) as [Hsaved Hloaded].
  split; [exact Hdirty | split; [vm_compute; reflexivity | split; [exact Hsaved |]]].
  eexists. split; [exact Hloaded | split; [reflexivity |]].
  apply ChunkFacts.no_sections_all_air. reflexivity.
Qed.

(** ** Sections: block count and light nibbles *)

Module SectionFacts.
Import world ChunkShape SectionShape.

Lemma filter_insert_length {A} (P : A -> bool) (l : list A) i b old :
  l !! i = Some old ->
  (length (List.filter P (<[i := b]> l)) + (if P old then 1 else 0)
   = length (List.filter P l) + (if P b then 1 else 0))%nat.
Proof.
  intros H. pose proof (lookup_lt_Some _ _ _ H) as Hi.
  rewrite insert_take_drop by exact Hi.
  replace (List.filter P l)
    with (List.filter P (take i l ++ old :: drop (S i) l))
    by (rewrite take_drop_middle by exact H; reflexivity).
  rewrite !List.filter_app. cbn [List.filter].
  destruct (P old), (P b); rewrite !length_app; cbn [length]; lia.
Qed.

Lemma filter_length_le {A} (P : A -> bool) (l : list A) :
  (length (List.filter P l) <= length l)%nat.
Proof.
  induction l as [| a l IH]; cbn [List.filter length]; [lia |].
  destruct (P a); cbn [length]; lia.
Qed.

Lemma filter_nil_Forall {A} (P : A -> bool) (l : list A) :
  length (List.filter P l) = 0%nat <-> Forall (fun a => P a = false) l.
Proof.
  induction l as [| a l IH]; cbn [List.filter].
  - split; [constructor | reflexivity].
  - destruct (P a) eqn:Ha; cbn [length].
    + split; [lia |]. intros H. inversion H; congruence.
    + rewrite IH. split; [constructor; assumption |].
      intros H. inversion H; assumption.
Qed.

Lemma to_i16_small x : - 2 ^ 15 <= x < 2 ^ 15 -> Int.to_i16 x = x.
Proof. intros H. apply WireFacts.to_signed_small; [lia | exact H]. Qed.

Lemma in_range_index index :
  ChunkSection.in_range index = true <-> 0 <= index < 4096.
Proof.
  unfold ChunkSection.in_range. change ChunkSection.BLOCKS_PER_SECTION with 4096.
  rewrite andb_true_iff, Z.leb_le, Z.ltb_lt. reflexivity.
Qed.

Lemma solid_blocks_range s :
  wf_section s -> 0 <= solid_blocks s <= 4096.
Proof.
  unfold wf_section, solid_blocks. intros H.
  pose proof (filter_length_le (fun b => negb (is_air b)) (ChunkSection.blocks s)).
  change ChunkSection.BLOCKS_PER_SECTION with 4096 in H. lia.
Qed.

(** [set_block] keeps [block_count] in step with the blocks. *)
Lemma set_block_count x y z b s :
  wf_section s -> ChunkSection.block_count s = solid_blocks s ->
  wf_section (ChunkSection.set_block x y z b s)
  /\ ChunkSection.block_count (ChunkSection.set_block x y z b s)
     = solid_blocks (ChunkSection.set_block x y z b s).
Proof.
  intros Hwf Hcount.
  split; [apply ChunkFacts.wf_section_set_block; exact Hwf |].
  pose proof (solid_blocks_range _ (ChunkFacts.wf_section_set_block x y z b s Hwf))
    as Hnew.
  pose proof (solid_blocks_range s Hwf) as Hold.
  revert Hnew. unfold ChunkSection.set_block. cbv zeta.
  destruct (ChunkSection.in_range (ChunkSection.index_of x y z)) eqn:Hin;
    [| intros _; exact Hcount].
  apply in_range_index in Hin.
  set (i := Z.to_nat (ChunkSection.index_of x y z)).
  assert (Hlook : ChunkSection.blocks s !! i
                  = Some (nth i (ChunkSection.blocks s) AIR)).
  { destruct (nth_lookup_or_length (ChunkSection.blocks s) i AIR) as [H | H];
      [exact H |].
    unfold wf_section in Hwf. change ChunkSection.BLOCKS_PER_SECTION with 4096 in Hwf.
    unfold i in H. lia. }
  pose proof (filter_insert_length (fun b => negb (is_air b)) _ i b _ Hlook) as Hf.
  unfold solid_blocks in *. cbn [ChunkSection.blocks ChunkSection.block_count].
  intros Hnew. rewrite Hcount.
  destruct (is_air (nth i (ChunkSection.blocks s) AIR)), (is_air b);
    cbn [negb andb] in *; try rewrite to_i16_small by lia; lia.
Qed.

Lemma set_blocks_count writes : forall s,
  wf_section s -> ChunkSection.block_count s = solid_blocks s ->
  wf_section (set_blocks writes s)
  /\ ChunkSection.block_count (set_blocks writes s) = solid_blocks (set_blocks writes s).
Proof.
  induction writes as [| [[[x y] z] b] writes IH]; intros s Hwf Hcount;
    unfold set_blocks in *; cbn [fold_left].
  - split; assumption.
  - destruct (set_block_count x y z b s Hwf Hcount) as [Hwf' Hcount'].
    apply IH; assumption.
Qed.

(** *** Light nibbles *)

Lemma high_nibble byte : 0 <= byte < 256 -> Z.land byte 0xF0 = byte / 16 * 16.
Proof.
  intros Hb. apply Z.bits_inj'. intros n Hn.
  rewrite Z.land_spec.
  change 0xF0 with (Z.shiftl (Z.ones 4) 4).
  rewrite <- Z.shiftl_mul_pow2 with (n := 4) by lia.
  rewrite <- Z.shiftr_div_pow2 with (n := 4) by lia.
  destruct (Z.lt_ge_cases n 4) as [Hlo | Hhi].
  - rewrite !Z.shiftl_spec_low by lia. apply andb_false_r.
  - rewrite !Z.shiftl_spec_high by lia. rewrite Z.shiftr_spec by lia.
    replace (n - 4 + 4) with n by lia.
    destruct (Z.lt_ge_cases n 8) as [Hlo8 | Hhi8].
    + rewrite Z.ones_spec_low by lia. apply andb_true_r.
    + rewrite Z.ones_spec_high by lia. rewrite andb_false_r.
      symmetry. rewrite <- (Z.mod_small byte (2 ^ 8)) by (change (2 ^ 8) with 256; lia).
      apply Z.mod_pow2_bits_high. lia.
Qed.

Lemma low_nibble x : Z.land x 0xF = x mod 16.
Proof. change 0xF with (Z.ones 4). rewrite Z.land_ones by lia. reflexivity. Qed.

(** The byte a nibble write stores, and its two nibbles. *)
Lemma store_upper byte light :
  0 <= byte < 256 ->
  let stored := Int.to_u8 (Z.lor (Z.land byte 0x0F) (Z.shiftl (Z.land light 0xF) 4)) in
  0 <= stored < 256
  /\ Z.shiftr stored 4 = Z.land light 0xF
  /\ Z.land stored 0xF = Z.land byte 0xF.
Proof.
  intros Hb. cbv zeta. rewrite !low_nibble.
  pose proof (Z.mod_pos_bound byte 16 ltac:(lia)) as Hlo.
  pose proof (Z.mod_pos_bound light 16 ltac:(lia)) as Hl.
  rewrite Z.shiftl_mul_pow2 by lia.
  rewrite IntFacts.lor_disjoint_add by (change (2 ^ 4) with 16; lia).
  change (2 ^ 4) with 16.
  rewrite IntFacts.to_u8_small by lia.
  rewrite Z.shiftr_div_pow2 by lia. change (2 ^ 4) with 16.
  split; [lia | split]; Z.to_euclidean_division_equations; lia.
Qed.

Lemma store_lower byte light :
  0 <= byte < 256 ->
  let stored := Int.to_u8 (Z.lor (Z.land byte 0xF0) (Z.land light 0xF)) in
  0 <= stored < 256
  /\ Z.land stored 0xF = Z.land light 0xF
  /\ Z.shiftr stored 4 = Z.shiftr byte 4.
Proof.
  intros Hb. cbv zeta. rewrite high_nibble by exact Hb. rewrite !low_nibble.
  pose proof (Z.mod_pos_bound light 16 ltac:(lia)) as Hl.
  rewrite Z.lor_comm.
  change (byte / 16 * 16) with (byte / 16 * 2 ^ 4).
  rewrite IntFacts.lor_disjoint_add by (change (2 ^ 4) with 16; lia).
  change (2 ^ 4) with 16.
  assert (Hq : 0 <= byte / 16 < 16) by (Z.to_euclidean_division_equations; lia).
  rewrite IntFacts.to_u8_small by lia.
  rewrite !Z.shiftr_div_pow2 by lia. change (2 ^ 4) with 16.
  split; [lia | split]; Z.to_euclidean_division_equations; lia.
Qed.

Lemma nth_light arr n : wf_light arr -> 0 <= nth n arr 0 < 256.
Proof.
  intros [_ Hall].
  destruct (nth_lookup_or_length arr n 0) as [H | H].
  - rewrite Forall_lookup in Hall. exact (Hall _ _ H).
  - rewrite nth_overflow by lia. lia.
Qed.

Lemma wf_light_set_nibble arr index light :
  wf_light arr -> wf_light (ChunkSection.set_nibble arr index light).
Proof.
  intros Hwf. pose proof (nth_light arr (Z.to_nat (Z.quot index 2)) Hwf) as Hb.
  destruct Hwf as [Hlen Hall].
  unfold ChunkSection.set_nibble. cbv zeta.
  destruct (Z.rem index 2 =? 1).
  - destruct (store_upper _ light Hb) as (Hr & _).
    split; [rewrite length_insert; exact Hlen | apply Forall_insert; assumption].
  - destruct (store_lower _ light Hb) as (Hr & _).
    split; [rewrite length_insert; exact Hlen | apply Forall_insert; assumption].
Qed.

(** Reading a nibble after a nibble was written. *)
Lemma get_set_nibble arr i j light :
  wf_light arr -> 0 <= i < 4096 -> 0 <= j < 4096 ->
  ChunkSection.get_nibble (ChunkSection.set_nibble arr i light) j
  = if j =? i then Z.land light 0xF else ChunkSection.get_nibble arr j.
Proof.
  intros Hwf Hi Hj.
  pose proof (nth_light arr (Z.to_nat (Z.quot i 2)) Hwf) as Hb.
  destruct Hwf as [Hlen _].
  assert (Hqi : 0 <= Z.quot i 2 < 2048) by (rewrite Z.quot_div_nonneg by lia;
    Z.to_euclidean_division_equations; lia).
  assert (Hqj : 0 <= Z.quot j 2 < 2048) by (rewrite Z.quot_div_nonneg by lia;
    Z.to_euclidean_division_equations; lia).
  assert (Hsplit : forall k, 0 <= k -> k = 2 * Z.quot k 2 + Z.rem k 2
                                       /\ 0 <= Z.rem k 2 < 2).
  { intros k Hk. rewrite Z.quot_div_nonneg, Z.rem_mod_nonneg by lia.
    Z.to_euclidean_division_equations. lia. }
  destruct (Hsplit i ltac:(lia)) as [Ei Ri].
  destruct (Hsplit j ltac:(lia)) as [Ej Rj].
  unfold ChunkSection.get_nibble, ChunkSection.set_nibble. cbv zeta.
  destruct (store_upper _ light Hb) as (_ & Uup & Ulo).
  destruct (store_lower _ light Hb) as (_ & Llo & Lup).
  destruct (Z.eq_dec (Z.quot j 2) (Z.quot i 2)) as [Hsame | Hdiff].
  - rewrite Hsame.
    destruct (Z.eqb_spec (Z.rem i 2) 1) as [Hiu | Hil];
      destruct (Z.eqb_spec (Z.rem j 2) 1) as [Hju | Hjl];
      rewrite ChunkFacts.nth_insert_eq by lia;
      destruct (Z.eqb_spec j i); try lia; auto.
  - destruct (Z.eqb_spec j i) as [-> | _]; [contradiction |].
    destruct (Z.rem i 2 =? 1);
      rewrite ChunkFacts.nth_insert_ne by lia; reflexivity.
Qed.

End SectionFacts.

(** ** Chunks: writes inside and outside the world *)

Module ChunkBlockFacts.
Import world ChunkShape.

Lemma set_block_dirty now x y z b c :
  valid_y y -> Chunk.is_dirty (Chunk.set_block now x y z b c) = true.
Proof.
  intros Hy. destruct (ChunkFacts.section_of_valid_y y Hy) as (_ & _ & Hv & _).
  unfold Chunk.set_block, Chunk.get_or_create_section. cbv zeta.
  rewrite Hv. cbn [negb].
  destruct (Chunk.section_at c (Chunk.get_section_index y)); reflexivity.
Qed.

Lemma section_get_block_create x y z :
  ChunkSection.get_block ChunkSection.create x y z = AIR.
Proof.
  unfold ChunkSection.get_block. cbv zeta.
  destruct (ChunkSection.in_range _); [| reflexivity].
  unfold ChunkSection.create. cbn [ChunkSection.blocks]. apply nth_repeat.
Qed.

(** A height outside the world whose section index still passes the
    range check: the fifteen layers just below the world. *)
Lemma below_the_world y :
  Int.is_i32 y -> ~ valid_y y ->
  Chunk.valid_index (Chunk.get_section_index y) = true ->
  Chunk.get_section_index y = 0 /\ -79 <= y <= -65
  /\ Chunk.local_y y 0 = y + 64.
Proof.
  unfold Int.is_i32, valid_y, WORLD_MIN_Y, WORLD_MAX_Y.
  change (2 ^ 31) with 2147483648. intros Hy Hn Hv.
  unfold Chunk.valid_index, Chunk.get_section_index, WORLD_MIN_Y in *.
  change SECTIONS_PER_CHUNK with 24 in Hv.
  apply negb_true_iff, orb_false_iff in Hv. destruct Hv as [Hlo Hhi].
  apply Z.ltb_ge in Hlo. apply Z.leb_gt in Hhi.
  replace (y - -64) with (y + 64) in * by lia.
  assert (Hd : Int.to_i32 (y + 64) = y + 64 \/ Int.to_i32 (y + 64) = y + 64 - 2 ^ 32).
  { destruct (Z.lt_ge_cases (y + 64) 2147483648).
    - left. apply IntFacts.to_i32_small. change (2 ^ 31) with 2147483648. lia.
    - right. apply IntFacts.to_i32_high. change (2 ^ 31) with 2147483648.
      change (2 ^ 32) with 4294967296. lia. }
  change (2 ^ 32) with 4294967296 in Hd.
  assert (Hy2 : -79 <= y <= -65 /\ Int.to_i32 (y + 64) = y + 64)
    by (destruct Hd as [Hd | Hd]; rewrite Hd in *;
        Z.to_euclidean_division_equations; lia).
  destruct Hy2 as [Hy2 Hd2]. rewrite Hd2 in *.
  split; [Z.to_euclidean_division_equations; lia | split; [exact Hy2 |]].
  unfold Chunk.local_y, WORLD_MIN_Y.
  rewrite IntFacts.to_i32_small by (change (2 ^ 31) with 2147483648; lia). lia.
Qed.

(** A write outside the world height changes no block. *)
Lemma set_block_outside now x y z b c x0 y0 z0 :
  valid_xz x -> valid_xz z -> Int.is_i32 y -> ~ valid_y y -> wf_chunk c ->
  Chunk.get_block (Chunk.set_block now x y z b c) x0 y0 z0
  = Chunk.get_block c x0 y0 z0.
Proof.
  intros Hx Hz Hy Hn [Hlen Hsec]. unfold valid_xz in *.
  unfold Chunk.set_block, Chunk.get_or_create_section. cbv zeta.
  destruct (Chunk.valid_index (Chunk.get_section_index y)) eqn:Hv; cbn [negb];
    [| reflexivity].
  destruct (below_the_world y Hy Hn Hv) as (Hidx & Hrange & Hlocal).
  rewrite Hidx, Hlocal.
  assert (Hout : forall s, ChunkSection.set_block x (y + 64) z b s = s).
  { intros s. unfold ChunkSection.set_block. cbv zeta.
    replace (ChunkSection.in_range (ChunkSection.index_of x (y + 64) z)) with false;
      [reflexivity |].
    symmetry. apply not_true_iff_false. rewrite SectionFacts.in_range_index.
    unfold ChunkSection.index_of, ChunkSection.SECTION_SIZE.
    rewrite IntFacts.to_i32_small by (change (2 ^ 31) with 2147483648; lia). lia. }
  change SECTIONS_PER_CHUNK with 24 in Hlen.
  destruct (Chunk.section_at c 0) as [s |] eqn:Hat; rewrite Hout.
  - unfold Chunk.store_section. rewrite list_insert_id
      by (apply ChunkFacts.section_at_lookup; exact Hat).
    unfold Chunk.get_block, Chunk.section_at. reflexivity.
  - unfold Chunk.get_block, Chunk.section_at, Chunk.store_section,
      Chunk.set_sections, Chunk.touch, Chunk.set_dirty in *.
    cbn [Chunk.sections_]. cbv zeta.
    destruct (Chunk.valid_index (Chunk.get_section_index y0)) eqn:Hv0; cbn [negb];
      [| reflexivity].
    destruct (Nat.eq_dec (Z.to_nat (Chunk.get_section_index y0)) (Z.to_nat 0))
      as [E | E].
    + rewrite E, Hat. rewrite ChunkFacts.nth_insert_eq
        by (rewrite length_insert; lia).
      apply section_get_block_create.
    + rewrite !ChunkFacts.nth_insert_ne by (intros H; apply E; symmetry; exact H).
      reflexivity.
Qed.

(** Outside the world height every block reads as air. *)
Lemma get_block_outside c x y z :
  valid_xz x -> valid_xz z -> Int.is_i32 y -> ~ valid_y y ->
  Chunk.get_block c x y z = AIR.
Proof.
  intros Hx Hz Hy Hn. unfold valid_xz in *. unfold Chunk.get_block. cbv zeta.
  destruct (Chunk.valid_index (Chunk.get_section_index y)) eqn:Hv; cbn [negb];
    [| reflexivity].
  destruct (below_the_world y Hy Hn Hv) as (Hidx & Hrange & Hlocal).
  rewrite Hidx, Hlocal.
  destruct (Chunk.section_at c 0) as [s |]; [| reflexivity].
  unfold ChunkSection.get_block. cbv zeta.
  replace (ChunkSection.in_range (ChunkSection.index_of x (y + 64) z)) with false;
    [reflexivity |].
  symmetry. apply not_true_iff_false. rewrite SectionFacts.in_range_index.
  unfold ChunkSection.index_of, ChunkSection.SECTION_SIZE.
  rewrite IntFacts.to_i32_small by (change (2 ^ 31) with 2147483648; lia). lia.
Qed.

End ChunkBlockFacts.

(** ** Blocks by world position; the chunk store *)

Module WorldBlockFacts.
Import world ChunkShape.

Lemma local_valid v : valid_xz (Z.land v 15).
Proof.
  unfold valid_xz. change 15 with (Z.ones 4). rewrite Z.land_ones by lia.
  apply Z.mod_pos_bound. lia.
Qed.

Lemma split_coordinate v : v = 16 * Z.shiftr v 4 + Z.land v 15.
Proof.
  rewrite Z.shiftr_div_pow2 by lia. change 15 with (Z.ones 4).
  rewrite Z.land_ones by lia. change (2 ^ 4) with 16. apply Z.div_mod. lia.
Qed.

Lemma same_coordinate a b :
  Z.shiftr a 4 = Z.shiftr b 4 -> Z.land a 15 = Z.land b 15 -> a = b.
Proof.
  intros H1 H2. rewrite (split_coordinate a), (split_coordinate b), H1, H2.
  reflexivity.
Qed.

(** What [get_block] by world position reads of the store. *)
Lemma get_block_lookup now pos m :
  (WorldBlocks.get_block now pos m).1
  = match ChunkManager.loaded_chunks_ m
          !! mkChunkPos (Z.shiftr (pos_x pos) 4) (Z.shiftr (pos_z pos) 4) with
    | Some c => Chunk.get_block c (Z.land (pos_x pos) 15) (pos_y pos)
                  (Z.land (pos_z pos) 15)
    | None => AIR
    end.
Proof.
  unfold WorldBlocks.get_block, ChunkManager.get_chunk. cbv zeta.
  destruct (ChunkManager.loaded_chunks_ m !! _); reflexivity.
Qed.

(** What [set_block] by world position leaves in the store when the chunk
    is loaded. *)
Lemma set_block_lookup now pos block m c q :
  ChunkManager.loaded_chunks_ m
    !! mkChunkPos (Z.shiftr (pos_x pos) 4) (Z.shiftr (pos_z pos) 4) = Some c ->
  ChunkManager.loaded_chunks_ (WorldBlocks.set_block now pos block m).1 !! q
  = (if decide (mkChunkPos (Z.shiftr (pos_x pos) 4) (Z.shiftr (pos_z pos) 4) = q)
     then Some (Chunk.set_block now (Z.land (pos_x pos) 15) (pos_y pos)
                  (Z.land (pos_z pos) 15) block (Chunk.touch now c))
     else ChunkManager.loaded_chunks_ m !! q)
  /\ (WorldBlocks.set_block now pos block m).2 = None.
Proof.
  intros Hc. unfold WorldBlocks.set_block, ChunkManager.get_chunk. cbv zeta.
  rewrite Hc. cbn [fst snd ChunkManager.set_loaded_chunks ChunkManager.loaded_chunks_].
  split; [| reflexivity].
  rewrite !lookup_insert.
  destruct (decide (_ = q)); reflexivity.
Qed.

(** [unload_chunk] over a list of coordinates. *)
Lemma unload_all (l : list ChunkPos) : forall m pos,
  ChunkManager.loaded_chunks_
    (fold_left (fun m pos => ChunkManager.unload_chunk pos m) l m) !! pos
  = if decide (pos ∈ l) then None else ChunkManager.loaded_chunks_ m !! pos.
Proof.
  induction l as [| a l IH]; intros m pos; cbn [fold_left].
  - destruct (decide (pos ∈ [])) as [H | H]; [| reflexivity].
    by apply not_elem_of_nil in H.
  - rewrite IH. unfold ChunkManager.unload_chunk at 1.
    cbn [ChunkManager.set_loaded_chunks ChunkManager.loaded_chunks_].
    rewrite lookup_delete.
    destruct (decide (pos ∈ l)) as [Hl | Hl];
      destruct (decide (pos ∈ a :: l)) as [Hal | Hal];
      destruct (decide (a = pos)) as [E | E]; try reflexivity;
      exfalso; apply Hal || (apply elem_of_cons in Hal; destruct Hal; congruence).
    + by apply elem_of_cons; right.
    + by apply elem_of_cons; right.
    + by apply elem_of_cons; left.
Qed.

Lemma unload_all_others (l : list ChunkPos) : forall m,
  let m' := fold_left (fun m pos => ChunkManager.unload_chunk pos m) l m in
  ChunkManager.pending_chunks_ m' = ChunkManager.pending_chunks_ m
  /\ ChunkManager.max_loaded_chunks_ m' = ChunkManager.max_loaded_chunks_ m
  /\ ChunkManager.auto_unload_enabled_ m' = ChunkManager.auto_unload_enabled_ m
  /\ ChunkManager.chunk_timeout_ms_ m' = ChunkManager.chunk_timeout_ms_ m.
Proof.
  induction l as [| a l IH]; intros m; cbn [fold_left]; [by repeat split |].
  exact (IH (ChunkManager.unload_chunk a m)).
Qed.

Lemma elem_of_expired (f : ChunkPos * Chunk.t -> bool) (M : gmap ChunkPos Chunk.t) pos :
  pos ∈ map fst (List.filter f (map_to_list M))
  <-> exists c, M !! pos = Some c /\ f (pos, c) = true.
Proof.
  rewrite list_elem_of_In, in_map_iff. split.
  - intros ([q c] & E & Hin). cbn in E. subst q.
    apply filter_In in Hin. destruct Hin as [Hin Hf].
    apply list_elem_of_In, elem_of_map_to_list in Hin. by exists c.
  - intros (c & Hc & Hf). exists (pos, c). split; [reflexivity |].
    apply filter_In. split; [| exact Hf].
    by apply list_elem_of_In, elem_of_map_to_list.
Qed.

(** Region and slot of a chunk coordinate. *)
Lemma split_region v : v = 32 * Z.shiftr v 5 + Z.land v 31 /\ 0 <= Z.land v 31 < 32.
Proof.
  rewrite Z.shiftr_div_pow2 by lia. change 31 with (Z.ones 5).
  rewrite Z.land_ones by lia. change (2 ^ 5) with 32.
  split; [apply Z.div_mod; lia | apply Z.mod_pos_bound; lia].
Qed.

End WorldBlockFacts.


(** ** The header of a region file *)

Module RegionHeaderFacts.
Import WorldPersistence.

Lemma land_mask x k n :
  0 <= k -> 0 <= n ->
  Z.land x (Z.shiftl (Z.ones k) n) = (x / 2 ^ n) mod 2 ^ k * 2 ^ n.
Proof.
  intros Hk Hn.
  rewrite <- Z.shiftl_mul_pow2, <- Z.land_ones, <- Z.shiftr_div_pow2 by lia.
  apply Z.bits_inj'. intros i Hi.
  rewrite Z.land_spec, !Z.shiftl_spec by lia.
  destruct (Z.lt_ge_cases i n) as [Hlt | Hge].
  - rewrite !(Z.testbit_neg_r _ (i - n)) by lia. apply andb_false_r.
  - rewrite Z.land_spec, Z.shiftr_spec by lia.
    replace (i - n + n) with i by lia. reflexivity.
Qed.

Lemma be32toh_sum w :
  0 <= w < 2 ^ 32 ->
  be32toh w
  = w / 2 ^ 24 + (w / 2 ^ 16) mod 2 ^ 8 * 2 ^ 8
    + (w / 2 ^ 8) mod 2 ^ 8 * 2 ^ 16 + w mod 2 ^ 8 * 2 ^ 24.
Proof.
  intros Hw. unfold be32toh.
  change 0xFF000000 with (Z.shiftl (Z.ones 8) 24).
  change 0x00FF0000 with (Z.shiftl (Z.ones 8) 16).
  change 0x0000FF00 with (Z.shiftl (Z.ones 8) 8).
  change 0x000000FF with (Z.shiftl (Z.ones 8) 0).
  rewrite !land_mask by lia.
  rewrite !Z.shiftr_div_pow2, !Z.shiftl_mul_pow2 by lia.
  unfold Int.to_u32, Int.to_unsigned.
  change (2 ^ 0) with 1. rewrite Z.div_1_r, Z.mul_1_r.
  rewrite Z.div_mul by lia.
  assert (B3 : 0 <= w / 2 ^ 24 < 2 ^ 8)
    by (split; [apply Z.div_pos; lia | apply Z.div_lt_upper_bound; lia]).
  rewrite (Z.mod_small (w / 2 ^ 24)) by exact B3.
  assert (Hsh : forall X, X * 2 ^ 16 / 2 ^ 8 = X * 2 ^ 8)
    by (intros X; replace (X * 2 ^ 16) with (X * 2 ^ 8 * 2 ^ 8) by lia;
        apply Z.div_mul; lia).
  rewrite Hsh.
  assert (Hsh2 : forall X, X * 2 ^ 8 * 2 ^ 8 = X * 2 ^ 16) by (intros X; lia).
  rewrite Hsh2.
  pose proof (Z.mod_pos_bound (w / 2 ^ 16) (2 ^ 8) ltac:(lia)) as B2.
  pose proof (Z.mod_pos_bound (w / 2 ^ 8) (2 ^ 8) ltac:(lia)) as B1.
  pose proof (Z.mod_pos_bound w (2 ^ 8) ltac:(lia)) as B0.
  rewrite (Z.mod_small (_ * 2 ^ 16) (2 ^ 32)) by lia.
  rewrite (Z.mod_small (_ * 2 ^ 24) (2 ^ 32)) by lia.
  rewrite (IntFacts.lor_disjoint_add 8) by lia.
  rewrite (IntFacts.lor_disjoint_add 16) by lia.
  rewrite (IntFacts.lor_disjoint_add 24) by lia.
  reflexivity.
Qed.

Lemma bytes_of_sum a b c d :
  0 <= a < 2 ^ 8 -> 0 <= b < 2 ^ 8 -> 0 <= c < 2 ^ 8 -> 0 <= d < 2 ^ 8 ->
  let w := a + b * 2 ^ 8 + c * 2 ^ 16 + d * 2 ^ 24 in
  w mod 2 ^ 8 = a /\ (w / 2 ^ 8) mod 2 ^ 8 = b /\ (w / 2 ^ 16) mod 2 ^ 8 = c
  /\ w / 2 ^ 24 = d /\ 0 <= w < 2 ^ 32.
Proof.
  cbv zeta. change (2 ^ 8) with 256. change (2 ^ 16) with 65536.
  change (2 ^ 24) with 16777216. change (2 ^ 32) with 4294967296.
  intros Ha Hb Hc Hd. repeat split; Z.to_euclidean_division_equations; lia.
Qed.

Lemma sum_of_bytes v :
  0 <= v < 2 ^ 32 ->
  0 <= v / 2 ^ 24 < 2 ^ 8
  /\ v = v mod 2 ^ 8 + (v / 2 ^ 8) mod 2 ^ 8 * 2 ^ 8
         + (v / 2 ^ 16) mod 2 ^ 8 * 2 ^ 16 + v / 2 ^ 24 * 2 ^ 24.
Proof.
  change (2 ^ 8) with 256. change (2 ^ 16) with 65536.
  change (2 ^ 24) with 16777216. change (2 ^ 32) with 4294967296.
  intros Hv. Z.to_euclidean_division_equations. lia.
Qed.

Lemma be32toh_involutive v : 0 <= v < 2 ^ 32 -> be32toh (be32toh v) = v.
Proof.
  intros Hv. destruct (sum_of_bytes v Hv) as [B3 Hsum].
  pose proof (Z.mod_pos_bound (v / 2 ^ 16) (2 ^ 8) ltac:(lia)) as B2.
  pose proof (Z.mod_pos_bound (v / 2 ^ 8) (2 ^ 8) ltac:(lia)) as B1.
  pose proof (Z.mod_pos_bound v (2 ^ 8) ltac:(lia)) as B0.
  rewrite (be32toh_sum v Hv).
  destruct (bytes_of_sum _ _ _ _ B3 B2 B1 B0) as (E0 & E1 & E2 & E3 & Hw).
  rewrite be32toh_sum by exact Hw.
  rewrite E0, E1, E2, E3. lia.
Qed.

Lemma u32_bytes_htobe32 v : 0 <= v < 2 ^ 32 -> u32_bytes (htobe32 v) = be32 v.
Proof.
  intros Hv. destruct (sum_of_bytes v Hv) as [B3 Hsum].
  pose proof (Z.mod_pos_bound (v / 2 ^ 16) (2 ^ 8) ltac:(lia)) as B2.
  pose proof (Z.mod_pos_bound (v / 2 ^ 8) (2 ^ 8) ltac:(lia)) as B1.
  pose proof (Z.mod_pos_bound v (2 ^ 8) ltac:(lia)) as B0.
  unfold htobe32, u32_bytes, be32, Int.to_u8, Int.to_unsigned.
  rewrite (be32toh_sum v Hv), !Z.shiftr_div_pow2 by lia.
  destruct (bytes_of_sum _ _ _ _ B3 B2 B1 B0) as (E0 & E1 & E2 & E3 & Hw).
  rewrite E0, E1, E2, E3.
  rewrite (Z.mod_small (v / 2 ^ 24)) by exact B3.
  rewrite (Z.mod_small (v mod 2 ^ 8)) by exact B0.
  reflexivity.
Qed.



End RegionHeaderFacts.

(** ** Inventories *)

Module InventoryFacts.
Import InventoryShape.

Lemma add_item_loop_done slots :
  Inventory.add_item_loop slots ItemStack.empty = (slots, ItemStack.empty).
Proof. destruct slots; reflexivity. Qed.

Lemma merge_whole item s :
  0 <= ItemStack.count item < 256 -> 0 <= ItemStack.count s < 256 ->
  ItemStack.is_empty item = false ->
  ItemStack.can_merge_with s item = true ->
  let can_add := Int.to_u8 (ItemStack.max_stack_size s - ItemStack.count s) in
  Z.min can_add (ItemStack.count item) = ItemStack.count item
  /\ Int.to_u8 (ItemStack.count s + ItemStack.count item)
     = ItemStack.count s + ItemStack.count item
  /\ Int.to_u8 (ItemStack.count item - ItemStack.count item) = 0
  /\ ItemStack.count s + ItemStack.count item <= 64.
Proof.
  intros Hi Hs He Hm. cbv zeta.
  unfold ItemStack.can_merge_with in Hm. apply andb_true_iff in Hm.
  destruct Hm as [_ Hm]. apply Z.leb_le in Hm.
  assert (Hmax : ItemStack.max_stack_size s <= 64)
    by (unfold ItemStack.max_stack_size;
        destruct (ItemStack.item_id s =? 0), (ItemStack.item_id s <? 256); lia).
  rewrite (IntFacts.to_u8_small (ItemStack.max_stack_size s - ItemStack.count s)) by lia.
  rewrite (IntFacts.to_u8_small (ItemStack.count s + ItemStack.count item)) by lia.
  rewrite Z.sub_diag. repeat split; first [lia | reflexivity].
Qed.

(** The loop puts the whole stack into the first slot that accepts it, or
    changes nothing. *)
Lemma add_item_loop_spec item : forall slots,
  0 <= ItemStack.count item < 256 -> typed slots ->
  ItemStack.is_empty item = false ->
  (Forall (fun s => accepts item s = false) slots
   /\ Inventory.add_item_loop slots item = (slots, item))
  \/ exists pre s post,
       slots = pre ++ s :: post
       /\ Forall (fun s => accepts item s = false) pre
       /\ accepts item s = true
       /\ Inventory.add_item_loop slots item
          = (pre ++ filled item s :: post, ItemStack.empty).
Proof.
  intros slots Hi Ht He. induction slots as [| s rest IH].
  - left. split; [constructor | reflexivity].
  - apply Forall_cons in Ht. destruct Ht as [Hs Ht].
    cbn [Inventory.add_item_loop]. rewrite He.
    destruct (ItemStack.is_empty s) eqn:Hse.
    + right. exists [], s, rest. rewrite add_item_loop_done.
      unfold accepts, filled. rewrite Hse. by repeat split.
    + destruct (ItemStack.can_merge_with s item) eqn:Hm.
      * right. exists [], s, rest.
        destruct (merge_whole item s Hi Hs He Hm) as (E1 & E2 & E3 & _).
        cbv zeta. rewrite E1, E2, E3. cbn [ItemStack.count Z.eqb].
        rewrite add_item_loop_done.
        unfold accepts, filled. rewrite Hse, Hm. by repeat split.
      * destruct (IH Ht) as [[Hall Hloop] | (pre & s' & post & -> & Hall & Hacc & Hloop)];
          rewrite Hloop.
        -- left. split; [| reflexivity].
           constructor; [unfold accepts; rewrite Hse, Hm; reflexivity | exact Hall].
        -- right. exists (s :: pre), s', post.
           repeat split; try assumption.
           constructor; [unfold accepts; rewrite Hse, Hm; reflexivity | exact Hall].
Qed.

Lemma typed_filled item s :
  0 <= ItemStack.count item < 256 -> 0 <= ItemStack.count s < 256 ->
  ItemStack.is_empty item = false -> accepts item s = true ->
  0 <= ItemStack.count (filled item s) < 256.
Proof.
  intros Hi Hs He Ha. unfold filled, accepts in *.
  destruct (ItemStack.is_empty s); [exact Hi |].
  cbn [orb] in Ha. destruct (merge_whole item s Hi Hs He Ha) as (_ & _ & _ & H).
  cbn [ItemStack.count]. lia.
Qed.

Lemma total_nonneg item_id inv : typed inv -> 0 <= total item_id inv.
Proof.
  induction 1 as [| s inv Hs _ IH]; cbn [total fold_right]; [lia |].
  fold (total item_id inv). destruct (ItemStack.item_id s =? item_id); lia.
Qed.

Lemma total_positive item_id inv :
  0 < total item_id inv -> Exists (fun s => ItemStack.item_id s = item_id) inv.
Proof.
  induction inv as [| s inv IH]; cbn [total fold_right]; [lia |].
  fold (total item_id inv). destruct (Z.eqb_spec (ItemStack.item_id s) item_id).
  - intros _. by left.
  - intros H. right. apply IH, H.
Qed.

Lemma has_item_loop_spec item_id count : forall slots found,
  typed slots -> 0 <= found -> found + total item_id slots < 256 ->
  Inventory.has_item_loop slots item_id count found = true
  <-> Exists (fun s => ItemStack.item_id s = item_id) slots
      /\ count <= found + total item_id slots.
Proof.
  induction slots as [| s rest IH]; intros found Ht Hf Hsum.
  - cbn [Inventory.has_item_loop]. split; [discriminate |].
    intros [H _]. by apply Exists_nil in H.
  - apply Forall_cons in Ht. destruct Ht as [Hs Ht].
    pose proof (total_nonneg item_id rest Ht) as Hrest.
    cbn [Inventory.has_item_loop]. cbn [total fold_right] in *.
    fold (total item_id rest) in *.
    destruct (Z.eqb_spec (ItemStack.item_id s) item_id) as [E | E].
    + rewrite IntFacts.to_u8_small by lia.
      destruct (Z.leb_spec count (found + ItemStack.count s)) as [Hle | Hgt].
      * split; [| reflexivity]. intros _. split; [by left | lia].
      * rewrite IH by (try assumption; lia). split.
        -- intros [_ H]. split; [by left | lia].
        -- intros [_ H]. split; [| lia]. apply total_positive. lia.
    + rewrite IH by assumption. split.
      * intros [H1 H2]. split; [by right | exact H2].
      * intros [H1 H2]. split; [| exact H2].
        apply Exists_cons in H1. destruct H1 as [H1 | H1]; [contradiction | exact H1].
Qed.

End InventoryFacts.

(** ** Truncated input; the phases of a connection *)

Module StreamFacts.
Import Buffer Connection.

Lemma read_byte_empty b :
  readable b = 0%nat -> read_byte b = (Throw BufferUnderflow, b).
Proof.
  unfold readable, read_byte. intros H.
  destruct (Nat.leb_spec (size_ b) (read_pos_ b)); [reflexivity | lia].
Qed.

Lemma read_be_loop_short conv i : forall acc b,
  (readable b < i)%nat ->
  read_be_loop conv i acc b = (Throw BufferUnderflow, advance (readable b) b).
Proof.
  induction i as [| i IH]; intros acc b Hi; [lia |].
  cbn [read_be_loop]. unfold bind.
  destruct (Nat.eq_dec (readable b) 0%nat) as [E | E].
  - rewrite (read_byte_empty b E), E, CodecFacts.advance_0. reflexivity.
  - destruct (CodecFacts.read_byte_ok b ltac:(lia)) as [x Hx]. rewrite Hx.
    rewrite IH by (rewrite CodecFacts.readable_advance; lia).
    rewrite CodecFacts.readable_advance, BufferFacts.advance_advance.
    f_equal. apply CodecFacts.advance_eq. lia.
Qed.

(** What the handlers keep. *)
Lemma frame_loop_invariant (P : Connection.t -> Prop) env :
  (forall b c, P c -> P (set_read_buffer b c)) ->
  (forall c, P c -> P (close c)) ->
  (forall p c, P c -> P (handle_packet env p c)) ->
  forall fuel c, P c -> P (frame_loop fuel env c).
Proof.
  intros Hbuf Hclose Hpacket.
  assert (Hprocess : forall pb c, P c -> P (snd (process_packet env pb c))).
  { intros pb c Hc. unfold process_packet.
    destruct (Buffer.read_varint pb) as [[packet_id | e] pb']; [| exact Hc].
    destruct (PacketManager.create_packet _ _ _ _) as [k |]; [| exact Hc].
    destruct (PacketRead.read k) as [rd |]; [| exact Hc].
    destruct (rd pb') as [[packet | e] ?]; [| exact Hc].
    apply Hpacket, Hc. }
  induction fuel as [| fuel IH]; intros c Hc; cbn [frame_loop]; [exact Hc |].
  destruct (0 <? Buffer.readable (read_buffer_ c))%nat; [| exact Hc].
  unfold frame_round.
  destruct (Buffer.read_varint (read_buffer_ c)) as [[packet_length | e] rb].
  - destruct (Z.of_nat (Buffer.readable rb) <? Int.to_size_t packet_length).
    + apply Hbuf, Hc.
    + pose proof (Hprocess
                    (Buffer.view (drop (Buffer.size (read_buffer_ c)) (Buffer.data rb))
                       (Z.to_nat packet_length))
                    (set_read_buffer rb c) (Hbuf rb c Hc)) as Hp.
      destruct (process_packet env _ (set_read_buffer rb c)) as [[[] | e] c'];
        cbn [snd] in Hp.
      * apply IH, Hp.
      * apply Hclose, Hp.
  - apply Hclose, Hbuf, Hc.
Qed.

Lemma send_packet_closed p c : closed_ c = true -> closed_ (send_packet p c) = true.
Proof. intros H. unfold send_packet. rewrite H. exact H. Qed.

Lemma handle_packet_closed env p c :
  closed_ c = true -> closed_ (handle_packet env p c) = true.
Proof.
  intros H. unfold handle_packet.
  destruct (state_ c =? ConnectionState.HANDSHAKING).
  { destruct p; try exact H. cbn [handle_handshake_packet].
    destruct (negb _); [reflexivity | exact H]. }
  destruct (state_ c =? ConnectionState.STATUS).
  { destruct p; try exact H; cbn [handle_status_packet];
      [apply send_packet_closed, H | reflexivity]. }
  destruct (state_ c =? ConnectionState.LOGIN).
  { destruct p; try exact H. cbn [handle_login_packet].
    destruct (negb _); [reflexivity |].
    destruct (player_online env _); [reflexivity |].
    cbn [submit_play_init closed_ set_state].
    apply send_packet_closed. exact H. }
  destruct (state_ c =? ConnectionState.PLAY); [| exact H].
  destruct p; exact H.
Qed.

End StreamFacts.

(** * Further properties of the code *)

(** ** The byte buffer *)

(** X1.  [Buffer::write] appends: the bytes written before stay as they
    were, the new ones follow them and the read cursor does not move,
    also when the write outgrows the capacity and [ensure_capacity] moves
    the data to a larger block of unspecified content. *)
Theorem write_appends_behind (junk : nat -> Z) (bytes : list Z) (b : Buffer.t) :
  Buffer.wf b ->
  let b' := Buffer.write junk bytes b in
  Buffer.wf b'
  /\ Buffer.contents b' = Buffer.contents b ++ bytes
  /\ Buffer.remaining b' = Buffer.remaining b ++ bytes
  /\ Buffer.read_pos_ b' = Buffer.read_pos_ b
  /\ (Buffer.size_ b + length bytes <= Buffer.capacity_ b')%nat.
Proof.
  intros Hwf. cbv zeta.
  destruct (BufferFacts.write_spec junk bytes b Hwf) as (W & C & S & R).
  split; [exact W | split; [exact C | split; [| split; [exact R |]]]].
  - unfold Buffer.remaining. rewrite C, R. apply drop_app_le.
    rewrite (WireFacts.length_contents b Hwf). destruct Hwf. assumption.
  - destruct W as [_ Hs _ _]. rewrite S in Hs. exact Hs.
Qed.

Lemma write_appends_behind_witness :
  let b := Buffer.write Examples.zeros [7; 8] (Buffer.create Examples.zeros 2) in
  Buffer.wf b
  /\ (let b' := Buffer.write Examples.zeros [1; 2; 3] b in
      Buffer.wf b'
      /\ Buffer.contents b' = Buffer.contents b ++ [1; 2; 3]
      /\ Buffer.remaining b' = Buffer.remaining b ++ [1; 2; 3]
      /\ Buffer.read_pos_ b' = Buffer.read_pos_ b
      /\ (Buffer.size_ b + length [1; 2; 3] <= Buffer.capacity_ b')%nat).
Proof.
  cbv zeta.
  assert (H : Buffer.wf (Buffer.write Examples.zeros [7; 8]
                           (Buffer.create Examples.zeros 2)))
    by (split; vm_compute; try reflexivity; lia).
  split; [exact H |].
  exact (write_appends_behind Examples.zeros [1; 2; 3] _ H).
Defined.

(** X2.  [write_be<T>] followed by [read_be<T>] returns the value, for an
    integer type [T] of [n >= 1] bytes, signed or unsigned, and every value
    of the type; [n] bytes are written and all of them are read. *)
Theorem write_be_read_be_roundtrip (junk : nat -> Z) (n : nat) (signed : bool)
    (v : Z) (b : Buffer.t) :
  (1 <= n)%nat -> Buffer.wf b -> Buffer.read_pos_ b = Buffer.size_ b ->
  (if signed then - 2 ^ (8 * Z.of_nat n - 1) <= v < 2 ^ (8 * Z.of_nat n - 1)
   else 0 <= v < 2 ^ (8 * Z.of_nat n)) ->
  let conv := if signed then Int.to_signed (8 * Z.of_nat n)
              else Int.to_unsigned (8 * Z.of_nat n) in
  let b1 := Buffer.write_be junk n v b in
  Buffer.size_ b1 = (Buffer.size_ b + n)%nat
  /\ fst (Buffer.read_be conv n b1) = Ok v
  /\ Buffer.readable (snd (Buffer.read_be conv n b1)) = 0%nat.
Proof.
  intros Hn Hwf Hrp Hv. cbv zeta.
  pose proof (CodecFacts.write_be_appends junk n v) as Happ.
  destruct (Happ b Hwf) as (_ & _ & Hsize & _).
  rewrite CodecFacts.length_be_bytes in Hsize.
  destruct (WireFacts.remaining_appended _ _ b Happ Hwf Hrp) as [Hwf1 Hrem1].
  assert (Hrd : Buffer.read_be
                  (if signed then Int.to_signed (8 * Z.of_nat n)
                   else Int.to_unsigned (8 * Z.of_nat n)) n
                  (Buffer.write_be junk n v b)
                = (Ok v, Buffer.advance (length (Buffer.be_bytes n v))
                           (Buffer.write_be junk n v b))).
  { destruct signed.
    - exact (WireFacts.reads_signed_be n v Hn Hv _ [] Hwf1 Hrem1).
    - exact (WireFacts.reads_unsigned_be n v Hn Hv _ [] Hwf1 Hrem1). }
  rewrite Hrd. cbn [fst snd].
  split; [exact Hsize | split; [reflexivity |]].
  rewrite CodecFacts.readable_advance, <- BufferFacts.length_remaining by exact Hwf1.
  rewrite Hrem1, length_app. cbn [length]. lia.
Qed.

Lemma write_be_read_be_roundtrip_witness :
  (1 <= 2)%nat /\ Buffer.wf Buffer.empty
  /\ Buffer.read_pos_ Buffer.empty = Buffer.size_ Buffer.empty
  /\ - 2 ^ (8 * Z.of_nat 2 - 1) <= -2 < 2 ^ (8 * Z.of_nat 2 - 1)
  /\ (let conv := Int.to_signed (8 * Z.of_nat 2) in
      let b1 := Buffer.write_be Examples.zeros 2 (-2) Buffer.empty in
      Buffer.size_ b1 = (Buffer.size_ Buffer.empty + 2)%nat
      /\ fst (Buffer.read_be conv 2 b1) = Ok (-2)
      /\ Buffer.readable (snd (Buffer.read_be conv 2 b1)) = 0%nat).
Proof.
  assert (H1 : (1 <= 2)%nat) by lia.
  assert (H2 : Buffer.wf Buffer.empty) by (split; simpl; lia).
  assert (H3 : Buffer.read_pos_ Buffer.empty = Buffer.size_ Buffer.empty)
    by reflexivity.
  assert (H4 : - 2 ^ (8 * Z.of_nat 2 - 1) <= -2 < 2 ^ (8 * Z.of_nat 2 - 1))
    by (simpl; lia).
  split; [exact H1 | split; [exact H2 | split; [exact H3 | split; [exact H4 |]]]].
  exact (write_be_read_be_roundtrip Examples.zeros 2 true (-2) Buffer.empty
           H1 H2 H3 H4).
Defined.

(** X3.  [write_string] followed by [read_string] returns the string,
    whenever it has at most 32767 bytes, and leaves nothing unread. *)
Theorem write_string_read_string_roundtrip (junk : nat -> Z) (str : list Z)
    (b : Buffer.t) :
  Z.of_nat (length str) <= 32767 ->
  Buffer.wf b -> Buffer.read_pos_ b = Buffer.size_ b ->
  let b1 := Buffer.write_string junk str b in
  fst (Buffer.read_string b1) = Ok str
  /\ Buffer.readable (snd (Buffer.read_string b1)) = 0%nat.
Proof.
  intros Hlen Hwf Hrp. cbv zeta.
  pose proof (WireFacts.appends_write_string junk str) as Happ.
  destruct (WireFacts.remaining_appended _ _ b Happ Hwf Hrp) as [Hwf1 Hrem1].
  rewrite (WireFacts.reads_read_string str Hlen _ [] Hwf1 Hrem1). cbn [fst snd].
  split; [reflexivity |].
  rewrite CodecFacts.readable_advance, <- BufferFacts.length_remaining by exact Hwf1.
  rewrite Hrem1, app_nil_r. lia.
Qed.

Lemma write_string_read_string_roundtrip_witness :
  Z.of_nat (length Examples.alex) <= 32767
  /\ Buffer.wf Buffer.empty
  /\ Buffer.read_pos_ Buffer.empty = Buffer.size_ Buffer.empty
  /\ (let b1 := Buffer.write_string Examples.zeros Examples.alex Buffer.empty in
      fst (Buffer.read_string b1) = Ok Examples.alex
      /\ Buffer.readable (snd (Buffer.read_string b1)) = 0%nat).
Proof.
  assert (H1 : Z.of_nat (length Examples.alex) <= 32767) by (simpl; lia).
  assert (H2 : Buffer.wf Buffer.empty) by (split; simpl; lia).
  assert (H3 : Buffer.read_pos_ Buffer.empty = Buffer.size_ Buffer.empty)
    by reflexivity.
  split; [exact H1 | split; [exact H2 | split; [exact H3 |]]].
  exact (write_string_read_string_roundtrip Examples.zeros Examples.alex
           Buffer.empty H1 H2 H3).
Defined.

(** X4.  [write_string] writes a string of more than 32767 bytes (fewer
    than 2^31) without complaint; [read_string] on what it wrote throws
    "Invalid string length". *)
Theorem long_string_written_not_read (junk : nat -> Z) (str : list Z)
    (b : Buffer.t) :
  32767 < Z.of_nat (length str) < 2 ^ 31 ->
  Buffer.wf b -> Buffer.read_pos_ b = Buffer.size_ b ->
  let b1 := Buffer.write_string junk str b in
  (exists prefix, Buffer.remaining b1 = prefix ++ str)
  /\ fst (Buffer.read_string b1) = Throw InvalidStringLength.
Proof.
  intros Hlen Hwf Hrp. cbv zeta.
  change (2 ^ 31) with 2147483648 in Hlen.
  pose proof (WireFacts.appends_write_string junk str) as Happ.
  destruct (WireFacts.remaining_appended _ _ b Happ Hwf Hrp) as [Hwf1 Hrem1].
  rewrite app_nil_r in Hrem1.
  split; [eexists; exact Hrem1 |].
  assert (Hi : Int.to_i32 (Z.of_nat (length str)) = Z.of_nat (length str)).
  { apply IntFacts.to_i32_small. change (2 ^ 31) with 2147483648. lia. }
  rewrite Hi in *.
  assert (Hv : Int.is_i32 (Z.of_nat (length str))).
  { unfold Int.is_i32. change (2 ^ 31) with 2147483648. lia. }
  pose proof (WireFacts.reads_read_varint _ Hv _ _ Hwf1 Hrem1) as Hrd.
  unfold Buffer.read_string, bind. rewrite Hrd.
  destruct (Z.ltb_spec (Z.of_nat (length str)) 0); [lia |].
  destruct (Z.ltb_spec 32767 (Z.of_nat (length str))); [| lia].
  reflexivity.
Qed.

Lemma long_string_written_not_read_witness :
  let str := repeat 0 (Z.to_nat 32768) in
  32767 < Z.of_nat (length str) < 2 ^ 31
  /\ Buffer.wf Buffer.empty
  /\ Buffer.read_pos_ Buffer.empty = Buffer.size_ Buffer.empty
  /\ (let b1 := Buffer.write_string Examples.zeros str Buffer.empty in
      (exists prefix, Buffer.remaining b1 = prefix ++ str)
      /\ fst (Buffer.read_string b1) = Throw InvalidStringLength).
Proof.
  cbv zeta.
  assert (H1 : 32767 < Z.of_nat (length (repeat 0 (Z.to_nat 32768))) < 2 ^ 31)
    by (rewrite repeat_length; lia).
  assert (H2 : Buffer.wf Buffer.empty) by (split; simpl; lia).
  assert (H3 : Buffer.read_pos_ Buffer.empty = Buffer.size_ Buffer.empty)
    by reflexivity.
  split; [exact H1 | split; [exact H2 | split; [exact H3 |]]].
  exact (long_string_written_not_read Examples.zeros (repeat 0 (Z.to_nat 32768))
           Buffer.empty H1 H2 H3).
Defined.

(** X5.  [read_varint] on continuation bytes only (bit 7 set): with fewer
    than five of them left it throws "Buffer underflow" once they are
    consumed; with five or more it throws "VarInt too big" after the
    fifth.  The bytes consumed stay consumed. *)
Theorem read_varint_continuation_run (b : Buffer.t) :
  Buffer.wf b ->
  Forall (fun x => Z.land x 0x80 <> 0) (take 5 (Buffer.remaining b)) ->
  Buffer.read_varint b
  = (Throw (if (length (Buffer.remaining b) <? 5)%nat
            then BufferUnderflow else VarIntTooBig),
     Buffer.advance (Nat.min 5 (length (Buffer.remaining b))) b).
Proof.
  intros Hwf Hall. unfold Buffer.read_varint.
  apply WireFacts.read_varint_loop_run; [exact Hwf | lia | lia | lia | exact Hall].
Qed.

Lemma read_varint_continuation_run_witness :
  let b := Buffer.view [0xFF; 0xFF; 0xFF; 0xFF; 0xFF; 0x0F] 6 in
  Buffer.wf b
  /\ Forall (fun x => Z.land x 0x80 <> 0) (take 5 (Buffer.remaining b))
  /\ Buffer.read_varint b
     = (Throw (if (length (Buffer.remaining b) <? 5)%nat
               then BufferUnderflow else VarIntTooBig),
        Buffer.advance (Nat.min 5 (length (Buffer.remaining b))) b).
Proof.
  cbv zeta.
  assert (H1 : Buffer.wf (Buffer.view [0xFF; 0xFF; 0xFF; 0xFF; 0xFF; 0x0F] 6))
    by (split; simpl; lia).
  assert (H2 : Forall (fun x => Z.land x 0x80 <> 0)
                 (take 5 (Buffer.remaining
                            (Buffer.view [0xFF; 0xFF; 0xFF; 0xFF; 0xFF; 0x0F] 6))))
    by (vm_compute; repeat constructor; discriminate).
  split; [exact H1 | split; [exact H2 |]].
  exact (read_varint_continuation_run _ H1 H2).
Defined.

(** X6.  For every signed 64-bit [v], [read_varlong] applied to the bytes
    that [write_varlong v] wrote returns [v] and leaves nothing unread; at
    most ten bytes are written. *)
Theorem varlong_roundtrip (junk : nat -> Z) (v : Z) (b : Buffer.t) :
  - 2 ^ 63 <= v < 2 ^ 63 ->
  Buffer.wf b -> Buffer.read_pos_ b = Buffer.size_ b ->
  let b1 := Buffer.write_varlong junk v b in
  fst (Buffer.read_varlong b1) = Ok v
  /\ Buffer.readable (snd (Buffer.read_varlong b1)) = 0%nat
  /\ (Buffer.size_ b1 - Buffer.size_ b <= 10)%nat.
Proof.
  intros Hv Hwf Hrp. cbv zeta.
  pose proof (WireFacts.appends_write_varlong junk v) as Happ.
  destruct (Happ b Hwf) as (_ & _ & Hsize & _).
  destruct (WireFacts.remaining_appended _ _ b Happ Hwf Hrp) as [Hwf1 Hrem1].
  rewrite (WireFacts.reads_read_varlong v Hv _ [] Hwf1 Hrem1). cbn [fst snd].
  split; [reflexivity | split].
  - rewrite CodecFacts.readable_advance, <- BufferFacts.length_remaining
      by exact Hwf1.
    rewrite Hrem1, app_nil_r. lia.
  - rewrite Hsize.
    pose proof (Z.mod_pos_bound v (2 ^ 64) ltac:(lia)) as Hu.
    change (v mod 2 ^ 64) with (Int.to_u64 v) in Hu.
    assert (H77 : 2 ^ 64 < 2 ^ (7 * Z.of_nat 10 + 7)) by reflexivity.
    pose proof (VarIntFacts.varint_bytes_length 10 (Int.to_u64 v) ltac:(lia)) as Hlen.
    assert (Hlog : 0 <= Z.log2 (Int.to_u64 v) < 64).
    { split; [apply Z.log2_nonneg |].
      destruct (Z.eq_dec (Int.to_u64 v) 0) as [-> | Hne]; [reflexivity |].
      apply Z.log2_lt_pow2; lia. }
    assert (Z.log2 (Int.to_u64 v) / 7 < 10)
      by (apply Z.div_lt_upper_bound; lia).
    lia.
Qed.

Lemma varlong_roundtrip_witness :
  - 2 ^ 63 <= -1 < 2 ^ 63
  /\ Buffer.wf Buffer.empty
  /\ Buffer.read_pos_ Buffer.empty = Buffer.size_ Buffer.empty
  /\ (let b1 := Buffer.write_varlong Examples.zeros (-1) Buffer.empty in
      fst (Buffer.read_varlong b1) = Ok (-1)
      /\ Buffer.readable (snd (Buffer.read_varlong b1)) = 0%nat
      /\ (Buffer.size_ b1 - Buffer.size_ Buffer.empty <= 10)%nat).
Proof.
  assert (H1 : - 2 ^ 63 <= -1 < 2 ^ 63) by lia.
  assert (H2 : Buffer.wf Buffer.empty) by (split; simpl; lia).
  assert (H3 : Buffer.read_pos_ Buffer.empty = Buffer.size_ Buffer.empty)
    by reflexivity.
  split; [exact H1 | split; [exact H2 | split; [exact H3 |]]].
  exact (varlong_roundtrip Examples.zeros (-1) Buffer.empty H1 H2 H3).
Defined.

(** ** Packets on the wire *)

(** X7.  For each packet a client can send (Handshake, StatusRequest,
    PingRequest, LoginStart, PlayerPosition) whose fields hold values of
    their types and whose strings have at most 32767 bytes: [read] of the
    packet's class, applied to what its [write] wrote, rebuilds the packet
    and leaves nothing unread. *)
Theorem serverbound_packet_roundtrip (junk : nat -> Z) (p : Packet)
    (b : Buffer.t) :
  PacketWrite.in_range p ->
  Buffer.wf b -> Buffer.read_pos_ b = Buffer.size_ b ->
  exists rd,
    PacketRead.read (PacketWrite.kind_of p) = Some rd
    /\ fst (rd (PacketWrite.write junk p b)) = Ok p
    /\ Buffer.readable (snd (rd (PacketWrite.write junk p b))) = 0%nat.
Proof.
  intros Hp Hwf Hrp.
  destruct (WireFacts.packet_codec junk p Hp) as (bytes & rd & Hkind & Happ & Hrd).
  exists rd. split; [exact Hkind |].
  destruct (WireFacts.remaining_appended _ _ b Happ Hwf Hrp) as [Hwf1 Hrem1].
  rewrite (Hrd _ [] Hwf1 Hrem1). cbn [fst snd]. split; [reflexivity |].
  rewrite CodecFacts.readable_advance, <- BufferFacts.length_remaining by exact Hwf1.
  rewrite Hrem1, app_nil_r. lia.
Qed.

Lemma serverbound_packet_roundtrip_witness :
  let p := HandshakePacket 763 [0x6C; 0x6F; 0x63; 0x61; 0x6C] 25565 2 in
  PacketWrite.in_range p
  /\ Buffer.wf Buffer.empty
  /\ Buffer.read_pos_ Buffer.empty = Buffer.size_ Buffer.empty
  /\ exists rd,
       PacketRead.read (PacketWrite.kind_of p) = Some rd
       /\ fst (rd (PacketWrite.write Examples.zeros p Buffer.empty)) = Ok p
       /\ Buffer.readable (snd (rd (PacketWrite.write Examples.zeros p Buffer.empty)))
          = 0%nat.
Proof.
  cbv zeta.
  assert (H1 : PacketWrite.in_range
                 (HandshakePacket 763 [0x6C; 0x6F; 0x63; 0x61; 0x6C] 25565 2))
    by (unfold PacketWrite.in_range, Int.is_i32; simpl; lia).
  assert (H2 : Buffer.wf Buffer.empty) by (split; simpl; lia).
  assert (H3 : Buffer.read_pos_ Buffer.empty = Buffer.size_ Buffer.empty)
    by reflexivity.
  split; [exact H1 | split; [exact H2 | split; [exact H3 |]]].
  exact (serverbound_packet_roundtrip Examples.zeros _ Buffer.empty H1 H2 H3).
Defined.

(** X8.  A BlockChange packet whose position fits the packed word ([x]
    and [z] in 26 signed bits, [y] in 12) and whose block state is any
    [u32] is rebuilt by [BlockChangePacket::read] from what
    [BlockChangePacket::write] wrote: position, sign included, and block
    state, through its casts to [i32] and back. *)
Theorem block_change_packet_roundtrip (junk : nat -> Z) (p : BlockChangePacket.t)
    (b : Buffer.t) :
  - 2 ^ 25 <= pos_x (BlockChangePacket.position p) < 2 ^ 25 ->
  - 2 ^ 25 <= pos_z (BlockChangePacket.position p) < 2 ^ 25 ->
  - 2 ^ 11 <= pos_y (BlockChangePacket.position p) < 2 ^ 11 ->
  0 <= BlockChangePacket.block_state p < 2 ^ 32 ->
  Buffer.wf b -> Buffer.read_pos_ b = Buffer.size_ b ->
  let b1 := BlockChangePacket.write junk p b in
  fst (BlockChangePacket.read b1) = Ok p
  /\ Buffer.readable (snd (BlockChangePacket.read b1)) = 0%nat.
Proof.
  intros Hx Hz Hy Hstate Hwf Hrp. cbv zeta.
  destruct p as [pos state]. cbn [BlockChangePacket.position
    BlockChangePacket.block_state] in *.
  pose proof (CodecFacts.appends_comp
                (Buffer.write_be junk 8 (BlockChangePacket.encode_pos pos))
                (Buffer.write_varint junk (Int.to_i32 state)) _ _
                (CodecFacts.write_be_appends junk 8 _)
                (WireFacts.appends_write_varint junk _)) as Happ.
  destruct (WireFacts.remaining_appended _ _ b Happ Hwf Hrp) as [Hwf1 Hrem1].
  assert (Hrd : Buffer.reads BlockChangePacket.read
                  (Buffer.be_bytes 8 (BlockChangePacket.encode_pos pos)
                   ++ Buffer.varint_bytes 5 (Int.to_u32 (Int.to_i32 state)))
                  {| BlockChangePacket.position := pos;
                     BlockChangePacket.block_state := state |}).
  { rewrite <- (app_nil_r (Buffer.varint_bytes 5 _)).
    eapply WireFacts.reads_bind;
      [apply (WireFacts.reads_unsigned_be 8 _ ltac:(lia)
                (WireFacts.encode_pos_range pos)) |].
    eapply WireFacts.reads_bind;
      [apply (WireFacts.reads_read_varint _ (WireFacts.is_i32_to_i32 state)) |].
    rewrite (WireFacts.decode_encode_pos pos Hx Hz Hy).
    rewrite (WireFacts.to_u32_to_i32 state Hstate).
    apply WireFacts.reads_ret. }
  unfold BlockChangePacket.write. cbv zeta.
  cbn [BlockChangePacket.position BlockChangePacket.block_state].
  rewrite (Hrd _ [] Hwf1 Hrem1). cbn [fst snd]. split; [reflexivity |].
  rewrite CodecFacts.readable_advance, <- BufferFacts.length_remaining by exact Hwf1.
  rewrite Hrem1, app_nil_r. lia.
Qed.

Lemma block_change_packet_roundtrip_witness :
  let p := {| BlockChangePacket.position :=
                {| pos_x := - 2 ^ 25; pos_y := -64; pos_z := 33554431 |};
              BlockChangePacket.block_state := 4294967295 |} in
  - 2 ^ 25 <= pos_x (BlockChangePacket.position p) < 2 ^ 25
  /\ - 2 ^ 25 <= pos_z (BlockChangePacket.position p) < 2 ^ 25
  /\ - 2 ^ 11 <= pos_y (BlockChangePacket.position p) < 2 ^ 11
  /\ 0 <= BlockChangePacket.block_state p < 2 ^ 32
  /\ Buffer.wf Buffer.empty
  /\ Buffer.read_pos_ Buffer.empty = Buffer.size_ Buffer.empty
  /\ (let b1 := BlockChangePacket.write Examples.zeros p Buffer.empty in
      fst (BlockChangePacket.read b1) = Ok p
      /\ Buffer.readable (snd (BlockChangePacket.read b1)) = 0%nat).
Proof.
  cbv zeta. cbn [BlockChangePacket.position BlockChangePacket.block_state
                 pos_x pos_y pos_z].
  assert (H1 : - 2 ^ 25 <= - 2 ^ 25 < 2 ^ 25) by lia.
  assert (H2 : - 2 ^ 25 <= 33554431 < 2 ^ 25) by lia.
  assert (H3 : - 2 ^ 11 <= -64 < 2 ^ 11) by lia.
  assert (H4 : 0 <= 4294967295 < 2 ^ 32) by lia.
  assert (H5 : Buffer.wf Buffer.empty) by (split; simpl; lia).
  assert (H6 : Buffer.read_pos_ Buffer.empty = Buffer.size_ Buffer.empty)
    by reflexivity.
  split; [exact H1 | split; [exact H2 | split; [exact H3 | split; [exact H4 |
    split; [exact H5 | split; [exact H6 |]]]]]].
  exact (block_change_packet_roundtrip Examples.zeros
           {| BlockChangePacket.position :=
                {| pos_x := - 2 ^ 25; pos_y := -64; pos_z := 33554431 |};
              BlockChangePacket.block_state := 4294967295 |}
           Buffer.empty H1 H2 H3 H4 H5 H6).
Defined.

(** X9.  The packet registry finds a packet class under exactly its own
    key: [create_packet(state, direction, id)] creates a packet of class
    [k] if and only if [k] is one of the sixteen registered classes and
    its state, direction and id are the ones asked for; no registration
    hides another.  In PLAY the only serverbound id that creates a packet
    is 0x14 (PlayerPosition): KeepAlive is registered clientbound only. *)
Theorem packet_registry_lookup :
  (forall state direction packet_id k,
     PacketManager.create_packet g_packet_manager state direction packet_id = Some k
     <-> PacketKindOf.get_state k = state
         /\ PacketKindOf.get_direction k = direction
         /\ PacketKindOf.get_id k = packet_id)
  /\ (forall packet_id,
        PacketManager.create_packet g_packet_manager ConnectionState.PLAY
          SERVERBOUND packet_id
        = if packet_id =? 0x14 then Some KPlayerPosition else None).
Proof.
  assert (Hreg : exists registry, registry = g_packet_manager
                                  /\ g_packet_manager = registry)
    by (eexists; split; [vm_compute; reflexivity | reflexivity]).
  destruct Hreg as (registry & Hlist & Hreg).
  vm_compute in Hlist. subst registry.
  split.
  - intros state direction packet_id k. split.
    + rewrite Hreg. cbn [PacketManager.create_packet]. intros H.
      destruct direction; cbn [direction_eqb andb] in H;
        repeat match type of H with
               | context [(?a =? ?b)] =>
                   destruct (Z.eqb_spec a b); cbn [andb] in H; try lia
               end;
        inversion H; subst; repeat split; reflexivity.
    + intros (<- & <- & <-). destruct k; reflexivity.
  - intros packet_id. rewrite Hreg. cbn [PacketManager.create_packet].
    change ConnectionState.PLAY with 3.
    repeat match goal with
           | |- context [Z.eqb ?a 3] =>
               let r := eval vm_compute in (Z.eqb a 3) in
               change (Z.eqb a 3) with r
           end.
    cbn [direction_eqb andb].
    rewrite (Z.eqb_sym 20 packet_id). reflexivity.
Qed.

(** X10.  [Connection::get_varint_size(v)] is the number of bytes
    [Buffer::write_varint(v)] writes, for every [v]; it lies between 1
    and 5. *)
Theorem get_varint_size_counts_bytes (junk : nat -> Z) (v : Z) (b : Buffer.t) :
  Buffer.wf b ->
  Buffer.size_ (Buffer.write_varint junk v b)
  = (Buffer.size_ b + PacketWrite.get_varint_size v)%nat
  /\ (1 <= PacketWrite.get_varint_size v <= 5)%nat.
Proof.
  intros Hwf. rewrite WireFacts.get_varint_size_spec.
  destruct (WireFacts.appends_write_varint junk v b Hwf) as (_ & _ & Hsize & _).
  split; [exact Hsize | apply WireFacts.length_varint_bytes_le].
Qed.

Lemma get_varint_size_counts_bytes_witness :
  Buffer.wf Buffer.empty
  /\ Buffer.size_ (Buffer.write_varint Examples.zeros 300 Buffer.empty)
     = (Buffer.size_ Buffer.empty + PacketWrite.get_varint_size 300)%nat
  /\ (1 <= PacketWrite.get_varint_size 300 <= 5)%nat.
Proof.
  assert (H : Buffer.wf Buffer.empty) by (split; simpl; lia).
  split; [exact H |].
  exact (get_varint_size_counts_bytes Examples.zeros 300 Buffer.empty H).
Defined.

(** X11.  The frame [Connection::send_packet] queues is well formed: its
    length prefix is the number of bytes that follow it, and what follows
    is the packet id and then the bytes the packet's [write] produced.
    This holds for an [i32] id and a body shorter than [2^31 - 5]. *)
Theorem send_packet_frame (junk : nat -> Z) (packet_id : Z) (temp_buffer : Buffer.t) :
  Buffer.wf temp_buffer -> Int.is_i32 packet_id ->
  Z.of_nat (Buffer.size temp_buffer) + 5 < 2 ^ 31 ->
  let final_buffer := PacketWrite.final_buffer junk packet_id temp_buffer in
  exists packet_length after_length after_id,
    Buffer.read_varint final_buffer = (Ok packet_length, after_length)
    /\ Z.of_nat (Buffer.readable after_length) = packet_length
    /\ Buffer.read_varint after_length = (Ok packet_id, after_id)
    /\ Buffer.remaining after_id = Buffer.contents temp_buffer.
Proof.
  intros Hwf Hid Hsize. cbv zeta. change (2 ^ 31) with 2147483648 in Hsize.
  unfold PacketWrite.final_buffer, Buffer.size in *. cbv zeta.
  pose proof (WireFacts.length_varint_bytes_le packet_id) as Hk.
  rewrite WireFacts.get_varint_size_spec.
  set (k := length (Buffer.varint_bytes 5 (Int.to_u32 packet_id))) in *.
  set (n := Buffer.size_ temp_buffer) in *.
  assert (Hlen : Int.to_i32 (Int.to_i32 (Z.of_nat n) + Int.to_i32 (Z.of_nat k))
                 = Z.of_nat (n + k)).
  { rewrite (IntFacts.to_i32_small (Z.of_nat n))
      by (change (2 ^ 31) with 2147483648; lia).
    rewrite (IntFacts.to_i32_small (Z.of_nat k))
      by (change (2 ^ 31) with 2147483648; lia).
    rewrite IntFacts.to_i32_small by (change (2 ^ 31) with 2147483648; lia).
    lia. }
  rewrite Hlen.
  assert (Hlen32 : Int.is_i32 (Z.of_nat (n + k)))
    by (unfold Int.is_i32; change (2 ^ 31) with 2147483648; lia).
  set (fresh := Buffer.create junk (n + 16)).
  pose proof (CodecFacts.appends_comp
                (fun b => Buffer.write_varint junk packet_id
                            (Buffer.write_varint junk (Z.of_nat (n + k)) b))
                (Buffer.write junk (Buffer.contents temp_buffer)) _ _
                (CodecFacts.appends_comp _ _ _ _
                   (WireFacts.appends_write_varint junk (Z.of_nat (n + k)))
                   (WireFacts.appends_write_varint junk packet_id))
                (CodecFacts.appends_write junk (Buffer.contents temp_buffer)))
    as Happ.
  destruct (WireFacts.remaining_appended _ _ fresh Happ
              (BufferFacts.wf_create junk _) eq_refl) as [Hwf1 Hrem1].
  rewrite app_nil_r, <- app_assoc in Hrem1.
  pose proof (WireFacts.reads_read_varint _ Hlen32 _ _ Hwf1 Hrem1) as Hrd1.
  destruct (WireFacts.advance_reads _ _ _ Hwf1 Hrem1) as [Hwf2 Hrem2].
  pose proof (WireFacts.reads_read_varint _ Hid _ _ Hwf2 Hrem2) as Hrd2.
  destruct (WireFacts.advance_reads _ _ _ Hwf2 Hrem2) as [Hwf3 Hrem3].
  eexists. eexists. eexists.
  split; [exact Hrd1 | split; [| split; [exact Hrd2 | exact Hrem3]]].
  rewrite <- BufferFacts.length_remaining by exact Hwf2.
  rewrite Hrem2, length_app, (WireFacts.length_contents _ Hwf). fold k. fold n. lia.
Qed.

Lemma send_packet_frame_witness :
  let temp_buffer := Buffer.write Examples.zeros [1; 2; 3] Buffer.empty in
  Buffer.wf temp_buffer /\ Int.is_i32 0x26
  /\ Z.of_nat (Buffer.size temp_buffer) + 5 < 2 ^ 31
  /\ (let final_buffer := PacketWrite.final_buffer Examples.zeros 0x26 temp_buffer in
      exists packet_length after_length after_id,
        Buffer.read_varint final_buffer = (Ok packet_length, after_length)
        /\ Z.of_nat (Buffer.readable after_length) = packet_length
        /\ Buffer.read_varint after_length = (Ok 0x26, after_id)
        /\ Buffer.remaining after_id = Buffer.contents temp_buffer).
Proof.
  cbv zeta.
  assert (H1 : Buffer.wf (Buffer.write Examples.zeros [1; 2; 3] Buffer.empty))
    by (split; vm_compute; try reflexivity; lia).
  assert (H2 : Int.is_i32 0x26) by (unfold Int.is_i32; lia).
  assert (H3 : Z.of_nat (Buffer.size (Buffer.write Examples.zeros [1; 2; 3]
                                         Buffer.empty)) + 5 < 2 ^ 31)
    by (vm_compute; reflexivity).
  split; [exact H1 | split; [exact H2 | split; [exact H3 |]]].
  exact (send_packet_frame Examples.zeros 0x26 _ H1 H2 H3).
Defined.

(** ** Sections and chunks *)

(** X12.  After any run of [ChunkSection::set_block] calls on a new
    section, [block_count] is the number of blocks that are not air, so
    [is_empty()] holds exactly when every block is air. *)
Theorem section_block_count_counts_blocks
    (writes : list (Z * Z * Z * world.Block)) :
  let s := SectionShape.set_blocks writes ChunkSection.create in
  ChunkSection.block_count s = SectionShape.solid_blocks s
  /\ (ChunkSection.is_empty s = true
      <-> Forall (fun b => b = world.AIR) (ChunkSection.blocks s)).
Proof.
  cbv zeta.
  assert (Hfresh : ChunkSection.block_count ChunkSection.create
                   = SectionShape.solid_blocks ChunkSection.create).
  { unfold SectionShape.solid_blocks.
    replace (length _) with 0%nat; [reflexivity |]. symmetry.
    apply SectionFacts.filter_nil_Forall, Forall_forall. intros b Hb.
    unfold ChunkSection.create in Hb. cbn [ChunkSection.blocks] in Hb.
    apply list_elem_of_In, repeat_spec in Hb. subst b. reflexivity. }
  destruct (SectionFacts.set_blocks_count writes ChunkSection.create
              ChunkFacts.wf_section_create Hfresh) as [_ Hcount].
  split; [exact Hcount |].
  unfold ChunkSection.is_empty. rewrite Hcount, Z.eqb_eq.
  unfold SectionShape.solid_blocks.
  rewrite <- Nat2Z.inj_0, Nat2Z.inj_iff, SectionFacts.filter_nil_Forall.
  split; intros H; (eapply Forall_impl; [exact H |]); intros b;
    unfold world.is_air; destruct (Z.eqb_spec b world.AIR); cbn [negb]; congruence.
Qed.

(** X13.  [ChunkSection::set_block] checks the flattened index
    [(y * 16 + z) * 16 + x] only.  When the index is within the section
    the block is stored, and [get_block] afterwards returns it at every
    coordinate triple with the same index (so also at triples that differ,
    such as [(16, 0, 0)] and [(0, 0, 1)]) and the earlier block elsewhere;
    when it is not, the section is left as it was. *)
Theorem section_set_block_get_block (x y z : Z) (block : world.Block)
    (s : ChunkSection.t) :
  ChunkShape.wf_section s ->
  if ChunkSection.in_range (ChunkSection.index_of x y z)
  then forall x' y' z',
         ChunkSection.get_block (ChunkSection.set_block x y z block s) x' y' z'
         = if ChunkSection.index_of x' y' z' =? ChunkSection.index_of x y z
           then block else ChunkSection.get_block s x' y' z'
  else ChunkSection.set_block x y z block s = s.
Proof.
  intros Hwf. unfold ChunkSection.set_block. cbv zeta.
  destruct (ChunkSection.in_range (ChunkSection.index_of x y z)) eqn:Hin;
    [| reflexivity].
  intros x' y' z'. unfold ChunkSection.get_block. cbv zeta.
  cbn [ChunkSection.blocks].
  apply SectionFacts.in_range_index in Hin.
  unfold ChunkShape.wf_section in Hwf.
  change ChunkSection.BLOCKS_PER_SECTION with 4096 in Hwf.
  destruct (Z.eqb_spec (ChunkSection.index_of x' y' z') (ChunkSection.index_of x y z))
    as [-> | Hne].
  - destruct (ChunkSection.in_range (ChunkSection.index_of x y z)) eqn:Hin';
      [| apply not_true_iff_false in Hin'; rewrite SectionFacts.in_range_index in Hin';
         lia].
    apply ChunkFacts.nth_insert_eq. lia.
  - destruct (ChunkSection.in_range (ChunkSection.index_of x' y' z')) eqn:Hin';
      [| reflexivity].
    apply SectionFacts.in_range_index in Hin'.
    apply ChunkFacts.nth_insert_ne. lia.
Qed.

Lemma section_set_block_get_block_witness :
  ChunkShape.wf_section ChunkSection.create
  /\ (if ChunkSection.in_range (ChunkSection.index_of 16 0 0)
      then forall x' y' z',
             ChunkSection.get_block
               (ChunkSection.set_block 16 0 0 world.STONE ChunkSection.create) x' y' z'
             = if ChunkSection.index_of x' y' z' =? ChunkSection.index_of 16 0 0
               then world.STONE else ChunkSection.get_block ChunkSection.create x' y' z'
      else ChunkSection.set_block 16 0 0 world.STONE ChunkSection.create
           = ChunkSection.create).
Proof.
  assert (H : ChunkShape.wf_section ChunkSection.create) by reflexivity.
  split; [exact H |].
  exact (section_set_block_get_block 16 0 0 world.STONE ChunkSection.create H).
Defined.

(** X14.  Light is packed two samples to a byte.  On a light array of
    2048 bytes, [set_block_light] followed by [get_block_light] returns
    the low four bits of the light written at the sample written to, and
    what was there before at every other sample, the one sharing the byte
    included; the same holds for [set_sky_light] and [get_sky_light]. *)
Theorem section_light_set_get (x y z light : Z) (s : ChunkSection.t)
    (x' y' z' : Z) :
  SectionShape.wf_light (ChunkSection.block_light s) ->
  SectionShape.wf_light (ChunkSection.sky_light s) ->
  ChunkSection.in_range (ChunkSection.index_of x y z) = true ->
  ChunkSection.in_range (ChunkSection.index_of x' y' z') = true ->
  let same := ChunkSection.index_of x' y' z' =? ChunkSection.index_of x y z in
  ChunkSection.get_block_light (ChunkSection.set_block_light x y z light s) x' y' z'
  = (if same then Z.land light 0xF else ChunkSection.get_block_light s x' y' z')
  /\ ChunkSection.get_sky_light (ChunkSection.set_sky_light x y z light s) x' y' z'
     = (if same then Z.land light 0xF else ChunkSection.get_sky_light s x' y' z')
  /\ SectionShape.wf_light
       (ChunkSection.block_light (ChunkSection.set_block_light x y z light s))
  /\ SectionShape.wf_light
       (ChunkSection.sky_light (ChunkSection.set_sky_light x y z light s)).
Proof.
  intros Hbl Hsl Hin Hin'. cbv zeta.
  unfold ChunkSection.get_block_light, ChunkSection.set_block_light,
    ChunkSection.get_sky_light, ChunkSection.set_sky_light. cbv zeta.
  rewrite Hin, Hin'. cbn [negb ChunkSection.block_light ChunkSection.sky_light].
  apply SectionFacts.in_range_index in Hin, Hin'.
  rewrite !SectionFacts.get_set_nibble by assumption.
  split; [reflexivity | split; [reflexivity |]].
  split; apply SectionFacts.wf_light_set_nibble; assumption.
Qed.

Lemma section_light_set_get_witness :
  let s := ChunkSection.create in
  SectionShape.wf_light (ChunkSection.block_light s)
  /\ SectionShape.wf_light (ChunkSection.sky_light s)
  /\ ChunkSection.in_range (ChunkSection.index_of 1 0 0) = true
  /\ ChunkSection.in_range (ChunkSection.index_of 0 0 0) = true
  /\ (let same := ChunkSection.index_of 0 0 0 =? ChunkSection.index_of 1 0 0 in
      ChunkSection.get_block_light (ChunkSection.set_block_light 1 0 0 7 s) 0 0 0
      = (if same then Z.land 7 0xF else ChunkSection.get_block_light s 0 0 0)
      /\ ChunkSection.get_sky_light (ChunkSection.set_sky_light 1 0 0 7 s) 0 0 0
         = (if same then Z.land 7 0xF else ChunkSection.get_sky_light s 0 0 0)
      /\ SectionShape.wf_light
           (ChunkSection.block_light (ChunkSection.set_block_light 1 0 0 7 s))
      /\ SectionShape.wf_light
           (ChunkSection.sky_light (ChunkSection.set_sky_light 1 0 0 7 s))).
Proof.
  cbv zeta.
  assert (H1 : SectionShape.wf_light (ChunkSection.block_light ChunkSection.create)).
  { split; [apply repeat_length |]. apply Forall_forall. intros b Hb.
    apply list_elem_of_In, repeat_spec in Hb. lia. }
  assert (H2 : SectionShape.wf_light (ChunkSection.sky_light ChunkSection.create)).
  { split; [apply repeat_length |]. apply Forall_forall. intros b Hb.
    apply list_elem_of_In, repeat_spec in Hb. lia. }
  assert (H3 : ChunkSection.in_range (ChunkSection.index_of 1 0 0) = true)
    by reflexivity.
  assert (H4 : ChunkSection.in_range (ChunkSection.index_of 0 0 0) = true)
    by reflexivity.
  split; [exact H1 | split; [exact H2 | split; [exact H3 | split; [exact H4 |]]]].
  exact (section_light_set_get 1 0 0 7 ChunkSection.create 0 0 0 H1 H2 H3 H4).
Defined.

(** X15.  Inside the world ([0 <= x, z < 16], [-64 <= y < 320]), on a
    chunk of 24 sections, [Chunk::set_block] followed by [Chunk::get_block]
    returns the block written at the position written to and the earlier
    block at every other position; the chunk is marked dirty and keeps
    its shape. *)
Theorem chunk_set_block_get_block (now x y z : Z) (block : world.Block)
    (c : Chunk.t) (x0 y0 z0 : Z) :
  ChunkShape.valid_xz x -> ChunkShape.valid_xz z -> ChunkShape.valid_y y ->
  ChunkShape.valid_xz x0 -> ChunkShape.valid_xz z0 -> ChunkShape.valid_y y0 ->
  ChunkShape.wf_chunk c ->
  let c' := Chunk.set_block now x y z block c in
  Chunk.get_block c' x0 y0 z0
  = (if decide ((x, y, z) = (x0, y0, z0)) then block else Chunk.get_block c x0 y0 z0)
  /\ Chunk.is_dirty c' = true
  /\ ChunkShape.wf_chunk c'.
Proof.
  intros Hx Hz Hy Hx0 Hz0 Hy0 Hwf. cbv zeta.
  split; [| split].
  - destruct (decide ((x, y, z) = (x0, y0, z0))) as [E | E].
    + inversion E; subst. apply ChunkFacts.get_set_block_same; assumption.
    + apply ChunkFacts.get_set_block_other; assumption.
  - apply ChunkBlockFacts.set_block_dirty. exact Hy.
  - apply ChunkFacts.wf_chunk_set_block; assumption.
Qed.

Lemma chunk_set_block_get_block_witness :
  let c := Chunk.create 0 Examples.origin in
  ChunkShape.valid_xz 3 /\ ChunkShape.valid_xz 5 /\ ChunkShape.valid_y 70
  /\ ChunkShape.valid_xz 3 /\ ChunkShape.valid_xz 5 /\ ChunkShape.valid_y 71
  /\ ChunkShape.wf_chunk c
  /\ (let c' := Chunk.set_block 1 3 70 5 world.STONE c in
      Chunk.get_block c' 3 71 5
      = (if decide ((3, 70, 5) = (3, 71, 5)) then world.STONE
         else Chunk.get_block c 3 71 5)
      /\ Chunk.is_dirty c' = true
      /\ ChunkShape.wf_chunk c').
Proof.
  cbv zeta.
  assert (H3 : ChunkShape.valid_xz 3) by (unfold ChunkShape.valid_xz; lia).
  assert (H5 : ChunkShape.valid_xz 5) by (unfold ChunkShape.valid_xz; lia).
  assert (H70 : ChunkShape.valid_y 70)
    by (unfold ChunkShape.valid_y, world.WORLD_MIN_Y, world.WORLD_MAX_Y; lia).
  assert (H71 : ChunkShape.valid_y 71)
    by (unfold ChunkShape.valid_y, world.WORLD_MIN_Y, world.WORLD_MAX_Y; lia).
  assert (Hwf : ChunkShape.wf_chunk (Chunk.create 0 Examples.origin))
    by apply ChunkFacts.wf_chunk_create.
  split; [exact H3 | split; [exact H5 | split; [exact H70 | split; [exact H3 |
    split; [exact H5 | split; [exact H71 | split; [exact Hwf |]]]]]]].
  exact (chunk_set_block_get_block 1 3 70 5 world.STONE
           (Chunk.create 0 Examples.origin) 3 71 5 H3 H5 H70 H3 H5 H71 Hwf).
Defined.

(** X16.  [Chunk::set_block] at a height outside [-64 <= y < 320] (with
    [0 <= x, z < 16]) changes no block of the chunk, whatever position is
    read afterwards.  For the fifteen layers [-79 <= y <= -65] this is so
    although the section index passes the range check: the write then
    falls outside the section's index range. *)
Theorem chunk_set_block_outside_world (now x y z : Z) (block : world.Block)
    (c : Chunk.t) (x0 y0 z0 : Z) :
  ChunkShape.valid_xz x -> ChunkShape.valid_xz z ->
  Int.is_i32 y -> ~ ChunkShape.valid_y y -> ChunkShape.wf_chunk c ->
  Chunk.get_block (Chunk.set_block now x y z block c) x0 y0 z0
  = Chunk.get_block c x0 y0 z0.
Proof. apply ChunkBlockFacts.set_block_outside. Qed.

Lemma chunk_set_block_outside_world_witness :
  ChunkShape.valid_xz 0 /\ ChunkShape.valid_xz 0
  /\ Int.is_i32 (-65) /\ ~ ChunkShape.valid_y (-65)
  /\ ChunkShape.wf_chunk (Chunk.create 0 Examples.origin)
  /\ Chunk.get_block
       (Chunk.set_block 1 0 (-65) 0 world.STONE (Chunk.create 0 Examples.origin))
       0 (-64) 0
     = Chunk.get_block (Chunk.create 0 Examples.origin) 0 (-64) 0.
Proof.
  assert (H0 : ChunkShape.valid_xz 0) by (unfold ChunkShape.valid_xz; lia).
  assert (Hy : Int.is_i32 (-65)) by (unfold Int.is_i32; lia).
  assert (Hn : ~ ChunkShape.valid_y (-65))
    by (unfold ChunkShape.valid_y, world.WORLD_MIN_Y; lia).
  assert (Hwf : ChunkShape.wf_chunk (Chunk.create 0 Examples.origin))
    by apply ChunkFacts.wf_chunk_create.
  split; [exact H0 | split; [exact H0 | split; [exact Hy | split; [exact Hn |
    split; [exact Hwf |]]]]].
  exact (chunk_set_block_outside_world 1 0 (-65) 0 world.STONE
           (Chunk.create 0 Examples.origin) 0 (-64) 0 H0 H0 Hy Hn Hwf).
Defined.

(** ** The chunk store *)

(** X17.  On a store that holds the chunk of [pos], and for a height
    inside the world, [ChunkManager::set_block(pos, block)] followed by
    [ChunkManager::get_block(pos')] returns [block] when [pos' = pos] and
    what [get_block(pos')] returned before at every other position, in
    the same chunk or another; no load is requested. *)
Theorem world_set_block_get_block (now now' : Z) (pos pos' : Position)
    (block : world.Block) (m : ChunkManager.t) (c : Chunk.t) :
  ChunkManager.loaded_chunks_ m
    !! mkChunkPos (Z.shiftr (pos_x pos) 4) (Z.shiftr (pos_z pos) 4) = Some c ->
  ChunkShape.wf_chunk c ->
  ChunkShape.valid_y (pos_y pos) ->
  Int.is_i32 (pos_y pos') ->
  let written := WorldBlocks.set_block now pos block m in
  (WorldBlocks.get_block now' pos' written.1).1
  = (if decide ((pos_x pos', pos_y pos', pos_z pos') = (pos_x pos, pos_y pos, pos_z pos))
     then block else (WorldBlocks.get_block now' pos' m).1)
  /\ written.2 = None.
Proof.
  intros Hc Hwf Hy Hy'. cbv zeta.
  split; [| apply (WorldBlockFacts.set_block_lookup now pos block m c
                     (mkChunkPos 0 0) Hc)].
  rewrite !WorldBlockFacts.get_block_lookup.
  destruct (WorldBlockFacts.set_block_lookup now pos block m c
              (mkChunkPos (Z.shiftr (pos_x pos') 4) (Z.shiftr (pos_z pos') 4)) Hc)
    as [-> _].
  pose proof (WorldBlockFacts.local_valid (pos_x pos)) as Hx.
  pose proof (WorldBlockFacts.local_valid (pos_z pos)) as Hz.
  pose proof (WorldBlockFacts.local_valid (pos_x pos')) as Hx'.
  pose proof (WorldBlockFacts.local_valid (pos_z pos')) as Hz'.
  assert (Hwf' : ChunkShape.wf_chunk (Chunk.touch now c)) by exact Hwf.
  destruct (decide (mkChunkPos _ _ = mkChunkPos _ _)) as [E | E].
  - injection E as Ex Ez. rewrite <- Ex, <- Ez, Hc.
    change (Chunk.get_block c ?a ?b ?d)
      with (Chunk.get_block (Chunk.touch now c) a b d).
    destruct (decide ((pos_x pos', pos_y pos', pos_z pos')
                      = (pos_x pos, pos_y pos, pos_z pos))) as [E' | E'].
    + injection E' as -> -> ->.
      apply ChunkFacts.get_set_block_same; assumption.
    + destruct (decide (world.WORLD_MIN_Y <= pos_y pos' < world.WORLD_MAX_Y))
        as [Hv | Hv].
      * apply ChunkFacts.get_set_block_other; try assumption.
        intros E2. injection E2 as E3 E4 E5. apply E'.
        rewrite <- E4.
        rewrite (WorldBlockFacts.same_coordinate (pos_x pos) (pos_x pos') Ex E3).
        rewrite (WorldBlockFacts.same_coordinate (pos_z pos) (pos_z pos') Ez E5).
        reflexivity.
      * rewrite !ChunkBlockFacts.get_block_outside by assumption. reflexivity.
  - destruct (decide ((pos_x pos', pos_y pos', pos_z pos')
                      = (pos_x pos, pos_y pos, pos_z pos))) as [E' | E'];
      [| reflexivity].
    exfalso. apply E. injection E' as -> _ ->. reflexivity.
Qed.

Lemma world_set_block_get_block_witness :
  let c := Chunk.create 0 Examples.origin in
  let m := ChunkManager.set_loaded_chunks {[Examples.origin := c]} ChunkManager.create in
  let pos := {| pos_x := 3; pos_y := 70; pos_z := 5 |} in
  ChunkManager.loaded_chunks_ m
    !! mkChunkPos (Z.shiftr (pos_x pos) 4) (Z.shiftr (pos_z pos) 4) = Some c
  /\ ChunkShape.wf_chunk c
  /\ ChunkShape.valid_y (pos_y pos)
  /\ Int.is_i32 (pos_y pos)
  /\ (let written := WorldBlocks.set_block 1 pos world.STONE m in
      (WorldBlocks.get_block 2 pos written.1).1
      = (if decide ((pos_x pos, pos_y pos, pos_z pos) = (pos_x pos, pos_y pos, pos_z pos))
         then world.STONE else (WorldBlocks.get_block 2 pos m).1)
      /\ written.2 = None).
Proof.
  cbv zeta.
  assert (H1 : ChunkManager.loaded_chunks_
                 (ChunkManager.set_loaded_chunks
                    {[Examples.origin := Chunk.create 0 Examples.origin]}
                    ChunkManager.create)
               !! mkChunkPos (Z.shiftr 3 4) (Z.shiftr 5 4)
               = Some (Chunk.create 0 Examples.origin))
    by (apply lookup_singleton_eq).
  assert (H2 : ChunkShape.wf_chunk (Chunk.create 0 Examples.origin))
    by apply ChunkFacts.wf_chunk_create.
  assert (H3 : ChunkShape.valid_y 70)
    by (unfold ChunkShape.valid_y, world.WORLD_MIN_Y, world.WORLD_MAX_Y; lia).
  assert (H4 : Int.is_i32 70) by (unfold Int.is_i32; lia).
  split; [exact H1 | split; [exact H2 | split; [exact H3 | split; [exact H4 |]]]].
  exact (world_set_block_get_block 1 2 {| pos_x := 3; pos_y := 70; pos_z := 5 |}
           {| pos_x := 3; pos_y := 70; pos_z := 5 |} world.STONE _ _ H1 H2 H3 H4).
Defined.

(** X18.  When the chunk of [pos] is not in the store,
    [ChunkManager::set_block(pos, block)] writes nothing: the loaded
    chunks are as before, [get_block(pos)] still returns air, and the only
    effect is that the chunk is pending, with one load job submitted
    unless it was pending already; a second write submits none. *)
Theorem world_set_block_unloaded_chunk (now now' : Z) (pos : Position)
    (block block' : world.Block) (m : ChunkManager.t) :
  let chunk_pos := mkChunkPos (Z.shiftr (pos_x pos) 4) (Z.shiftr (pos_z pos) 4) in
  ChunkManager.loaded_chunks_ m !! chunk_pos = None ->
  let written := WorldBlocks.set_block now pos block m in
  ChunkManager.loaded_chunks_ written.1 = ChunkManager.loaded_chunks_ m
  /\ ChunkManager.pending_chunks_ written.1
     = {[chunk_pos]} ∪ ChunkManager.pending_chunks_ m
  /\ written.2 = (if decide (chunk_pos ∈ ChunkManager.pending_chunks_ m)
                  then None else Some (GenerateChunk chunk_pos))
  /\ (WorldBlocks.get_block now' pos written.1).1 = world.AIR
  /\ (WorldBlocks.set_block now' pos block' written.1).2 = None.
Proof.
  cbv zeta. intros Hc.
  assert (Hw : forall now block, WorldBlocks.set_block now pos block m
               = (if decide (mkChunkPos (Z.shiftr (pos_x pos) 4) (Z.shiftr (pos_z pos) 4)
                             ∈ ChunkManager.pending_chunks_ m)
                  then (m, None)
                  else (ChunkManager.set_pending_chunks
                          ({[mkChunkPos (Z.shiftr (pos_x pos) 4) (Z.shiftr (pos_z pos) 4)]}
                           ∪ ChunkManager.pending_chunks_ m) m,
                        Some (GenerateChunk
                                (mkChunkPos (Z.shiftr (pos_x pos) 4)
                                   (Z.shiftr (pos_z pos) 4)))))).
  { intros now0 block0.
    unfold WorldBlocks.set_block, ChunkManager.get_chunk, ChunkManager.load_chunk.
    cbv zeta. rewrite Hc. cbv beta iota. rewrite Hc.
    destruct (decide (_ ∈ ChunkManager.pending_chunks_ m)); reflexivity. }
  rewrite Hw.
  destruct (decide (_ ∈ ChunkManager.pending_chunks_ m)) as [Hp | Hp];
    cbn [fst snd ChunkManager.set_pending_chunks ChunkManager.loaded_chunks_
         ChunkManager.pending_chunks_].
  - split; [reflexivity |].
    split; [symmetry; apply subseteq_union_1_L; apply singleton_subseteq_l; exact Hp |].
    split; [reflexivity |].
    split.
    + rewrite WorldBlockFacts.get_block_lookup, Hc. reflexivity.
    + rewrite Hw. reflexivity.
  - split; [reflexivity |]. split; [reflexivity |]. split; [reflexivity |].
    split.
    + rewrite WorldBlockFacts.get_block_lookup.
      cbn [ChunkManager.set_pending_chunks ChunkManager.loaded_chunks_].
      rewrite Hc. reflexivity.
    + unfold WorldBlocks.set_block, ChunkManager.get_chunk, ChunkManager.load_chunk.
      cbv zeta. cbn [ChunkManager.set_pending_chunks ChunkManager.loaded_chunks_
                     ChunkManager.pending_chunks_].
      rewrite Hc. cbv beta iota.
      cbn [ChunkManager.set_pending_chunks ChunkManager.loaded_chunks_
           ChunkManager.pending_chunks_].
      rewrite Hc.
      destruct (decide (_ ∈ _ ∪ _)) as [H | H]; [reflexivity |].
      exfalso. apply H, elem_of_union_l, elem_of_singleton. reflexivity.
Qed.

Lemma world_set_block_unloaded_chunk_witness :
  let pos := {| pos_x := 3; pos_y := 70; pos_z := 5 |} in
  let m := ChunkManager.create in
  let chunk_pos := mkChunkPos (Z.shiftr (pos_x pos) 4) (Z.shiftr (pos_z pos) 4) in
  ChunkManager.loaded_chunks_ m !! chunk_pos = None
  /\ (let written := WorldBlocks.set_block 1 pos world.STONE m in
      ChunkManager.loaded_chunks_ written.1 = ChunkManager.loaded_chunks_ m
      /\ ChunkManager.pending_chunks_ written.1
         = {[chunk_pos]} ∪ ChunkManager.pending_chunks_ m
      /\ written.2 = (if decide (chunk_pos ∈ ChunkManager.pending_chunks_ m)
                      then None else Some (GenerateChunk chunk_pos))
      /\ (WorldBlocks.get_block 2 pos written.1).1 = world.AIR
      /\ (WorldBlocks.set_block 2 pos world.DIRT written.1).2 = None).
Proof.
  cbv zeta.
  assert (H : ChunkManager.loaded_chunks_ ChunkManager.create
              !! mkChunkPos (Z.shiftr 3 4) (Z.shiftr 5 4) = None)
    by apply lookup_empty.
  split; [exact H |].
  exact (world_set_block_unloaded_chunk 1 2 {| pos_x := 3; pos_y := 70; pos_z := 5 |}
           world.STONE world.DIRT ChunkManager.create H).
Defined.

(** X19.  [ChunkManager::cleanup_old_chunks] unloads a chunk exactly when
    automatic unloading is on, more chunks are loaded than
    [max_loaded_chunks_], and the chunk was last accessed more than
    [chunk_timeout_ms_] ago; every other chunk stays, so the store may
    remain above its limit.  The pending set and the settings are
    untouched. *)
Theorem cleanup_old_chunks_lookup (now : Z) (m : ChunkManager.t) (pos : ChunkPos) :
  let m' := ChunkManager.cleanup_old_chunks now m in
  ChunkManager.loaded_chunks_ m' !! pos
  = match ChunkManager.loaded_chunks_ m !! pos with
    | Some c =>
        if ChunkManager.auto_unload_enabled_ m
           && (ChunkManager.max_loaded_chunks_ m <? size (ChunkManager.loaded_chunks_ m))%nat
           && (ChunkManager.chunk_timeout_ms_ m <? now - Chunk.get_last_access c)
        then None else Some c
    | None => None
    end
  /\ ChunkManager.pending_chunks_ m' = ChunkManager.pending_chunks_ m
  /\ ChunkManager.max_loaded_chunks_ m' = ChunkManager.max_loaded_chunks_ m
  /\ ChunkManager.auto_unload_enabled_ m' = ChunkManager.auto_unload_enabled_ m
  /\ ChunkManager.chunk_timeout_ms_ m' = ChunkManager.chunk_timeout_ms_ m.
Proof.
  cbv zeta. unfold ChunkManager.cleanup_old_chunks.
  destruct (ChunkManager.auto_unload_enabled_ m) eqn:Hauto; cbn [negb andb];
    [| split; [destruct (_ !! pos); reflexivity | by repeat split]].
  destruct (Nat.leb_spec (size (ChunkManager.loaded_chunks_ m))
              (ChunkManager.max_loaded_chunks_ m)) as [Hle | Hgt].
  - replace (ChunkManager.max_loaded_chunks_ m <? size (ChunkManager.loaded_chunks_ m))%nat
      with false by (symmetry; apply Nat.ltb_ge; exact Hle).
    cbn [andb]. split; [destruct (_ !! pos); reflexivity | by repeat split].
  - replace (ChunkManager.max_loaded_chunks_ m <? size (ChunkManager.loaded_chunks_ m))%nat
      with true by (symmetry; apply Nat.ltb_lt; exact Hgt).
    cbn [andb]. split.
    + rewrite WorldBlockFacts.unload_all.
      destruct (decide (pos ∈ _)) as [Hin | Hin].
      * apply WorldBlockFacts.elem_of_expired in Hin.
        destruct Hin as (c & -> & Hf). cbn [snd] in Hf.
        unfold Chunk.get_last_access in *. rewrite Hf. reflexivity.
      * destruct (ChunkManager.loaded_chunks_ m !! pos) as [c |] eqn:Hc;
          [| reflexivity].
        destruct (ChunkManager.chunk_timeout_ms_ m <? now - Chunk.get_last_access c)
          eqn:Hf; [| reflexivity].
        exfalso. apply Hin. apply WorldBlockFacts.elem_of_expired.
        exists c. split; [exact Hc | exact Hf].
    + match goal with
      | |- context [fold_left _ ?l m] =>
          pose proof (WorldBlockFacts.unload_all_others l m) as Hrest
      end.
      cbv zeta in Hrest. rewrite Hauto in Hrest. exact Hrest.
Qed.

(** ** Region files *)

(** X20.  A chunk coordinate splits into the region
    ([get_region_coords], the coordinate shifted right by 5) and the place
    in it ([get_local_chunk_coords], the low five bits):
    [x = 32 * region_x + local_x] with [0 <= local_x < 32], for negative
    coordinates too.  The slot [local_z * 32 + local_x] lies in the 1024
    entries of the header, and two chunks of one region with the same slot
    are the same chunk. *)
Theorem region_slot_of_chunk (p q : ChunkPos) :
  let slot pos :=
    (WorldPersistence.get_local_chunk_coords pos).2 * 32
    + (WorldPersistence.get_local_chunk_coords pos).1 in
  chunk_x p = 32 * (WorldPersistence.get_region_coords p).1
              + (WorldPersistence.get_local_chunk_coords p).1
  /\ chunk_z p = 32 * (WorldPersistence.get_region_coords p).2
                 + (WorldPersistence.get_local_chunk_coords p).2
  /\ 0 <= (WorldPersistence.get_local_chunk_coords p).1 < 32
  /\ 0 <= (WorldPersistence.get_local_chunk_coords p).2 < 32
  /\ 0 <= slot p < 1024
  /\ (WorldPersistence.get_region_coords p = WorldPersistence.get_region_coords q ->
      slot p = slot q -> p = q).
Proof.
  cbv zeta. unfold WorldPersistence.get_region_coords,
    WorldPersistence.get_local_chunk_coords. cbn [fst snd].
  destruct (WorldBlockFacts.split_region (chunk_x p)) as [Hx Hlx].
  destruct (WorldBlockFacts.split_region (chunk_z p)) as [Hz Hlz].
  destruct (WorldBlockFacts.split_region (chunk_x q)) as [Hx' Hlx'].
  destruct (WorldBlockFacts.split_region (chunk_z q)) as [Hz' Hlz'].
  split; [exact Hx |]. split; [exact Hz |]. split; [exact Hlx |].
  split; [exact Hlz |]. split; [lia |].
  intros E Hs. injection E as Ex Ez.
  destruct p as [px pz], q as [qx qz]. cbn [chunk_x chunk_z] in *.
  f_equal; lia.
Qed.

(** X21.  [save_chunk] of a dirty chunk into an open region file made of
    whole sectors succeeds, clears the dirty flag of the chunk and records
    a location for it.  [load_chunk] of the same coordinate then returns a
    chunk at that coordinate, marked loaded and not dirty, in which every
    block reads as air: [deserialize_chunk] decodes the sections without
    storing them. *)
Theorem save_chunk_then_load_chunk (junk : nat -> Z) (clock now : Z)
    (r : WorldPersistence.RegionFile) (chunk : Chunk.t) :
  sound_region r -> ChunkShape.wf_chunk chunk -> ChunkShape.full_light chunk ->
  Chunk.is_dirty chunk = true ->
  let saved := WorldPersistence.save_chunk junk clock r (Some chunk) in
  saved.1.1 = true
  /\ Chunk.is_dirty <$> saved.2 = Some false
  /\ WorldPersistence.stored_on_disk saved.1.2 (Chunk.get_position chunk) = true
  /\ exists loaded,
       WorldPersistence.load_chunk now saved.1.2 (Chunk.get_position chunk)
       = Some loaded
       /\ Chunk.get_position loaded = Chunk.get_position chunk
       /\ Chunk.is_loaded loaded = true
       /\ Chunk.is_dirty loaded = false
       /\ forall x y z, Chunk.get_block loaded x y z = world.AIR.
Proof.
  intros Hr Hwf Hlight Hdirty. cbv zeta.
  destruct (PersistenceFacts.save_chunk_sound junk clock r chunk Hr Hwf Hlight Hdirty now)
    as [Hok Hload].
  split; [exact Hok |].
  assert (Hopen : WorldPersistence.is_open r = true) by apply Hr.
  split.
  { unfold WorldPersistence.save_chunk. rewrite Hdirty, Hopen. cbn [negb].
    unfold WorldPersistence.get_local_chunk_coords. reflexivity. }
  split.
  { revert Hload. unfold WorldPersistence.load_chunk, WorldPersistence.stored_on_disk.
    destruct (negb (WorldPersistence.is_open _)); [discriminate |].
    destruct (WorldPersistence.get_local_chunk_coords _) as [local_x local_z].
    destruct (nth _ _ 0 =? 0); [discriminate | reflexivity]. }
  eexists. split; [exact Hload |].
  split; [reflexivity |]. split; [reflexivity |]. split; [reflexivity |].
  intros x y z. apply ChunkFacts.no_sections_all_air. reflexivity.
Qed.

Lemma save_chunk_then_load_chunk_witness :
  let chunk := Examples.stone_chunk in
  let r := Examples.empty_region in
  sound_region r /\ ChunkShape.wf_chunk chunk /\ ChunkShape.full_light chunk
  /\ Chunk.is_dirty chunk = true
  /\ (let saved := WorldPersistence.save_chunk (fun _ => 0) 0 r (Some chunk) in
      saved.1.1 = true
      /\ Chunk.is_dirty <$> saved.2 = Some false
      /\ WorldPersistence.stored_on_disk saved.1.2 (Chunk.get_position chunk) = true
      /\ exists loaded,
           WorldPersistence.load_chunk 0 saved.1.2 (Chunk.get_position chunk)
           = Some loaded
           /\ Chunk.get_position loaded = Chunk.get_position chunk
           /\ Chunk.is_loaded loaded = true
           /\ Chunk.is_dirty loaded = false
           /\ forall x y z, Chunk.get_block loaded x y z = world.AIR).
Proof.
  cbv zeta.
  assert (Hy : ChunkShape.valid_y (-64))
    by (unfold ChunkShape.valid_y, world.WORLD_MIN_Y, world.WORLD_MAX_Y; lia).
  assert (Hregion : sound_region Examples.empty_region).
  { split; [reflexivity | split; [| split; apply repeat_length]].
    exists 2. split; [lia |].
    unfold Examples.empty_region. cbn [WorldPersistence.file].
    rewrite repeat_length. lia. }
  assert (Hwf : ChunkShape.wf_chunk Examples.stone_chunk)
    by (apply ChunkFacts.wf_chunk_set_block;
        [exact Hy | apply ChunkFacts.wf_chunk_create]).
  assert (Hlight : ChunkShape.full_light Examples.stone_chunk)
    by (apply PersistenceFacts.full_light_set_block;
        [exact Hy | apply PersistenceFacts.full_light_create]).
  assert (Hdirty : Chunk.is_dirty Examples.stone_chunk = true) by reflexivity.
  split; [exact Hregion | split; [exact Hwf | split; [exact Hlight |
    split; [exact Hdirty |]]]].
  exact (save_chunk_then_load_chunk (fun _ => 0) 0 0 Examples.empty_region
           Examples.stone_chunk Hregion Hwf Hlight Hdirty).
Defined.



(** X23.  On a [u32], [be32toh] is its own inverse, and the four bytes
    that [htobe32(v)] occupies in the memory of a little-endian host, which
    are the bytes [save_region_header] writes, are those of [v] with the
    most significant first. *)
Theorem be32toh_swaps_bytes (v : Z) :
  0 <= v < 2 ^ 32 ->
  WorldPersistence.be32toh (WorldPersistence.be32toh v) = v
  /\ 0 <= WorldPersistence.be32toh v < 2 ^ 32
  /\ WorldPersistence.u32_bytes (WorldPersistence.htobe32 v) = WorldPersistence.be32 v
  /\ WorldPersistence.be32 v
     = [v / 2 ^ 24; (v / 2 ^ 16) mod 2 ^ 8; (v / 2 ^ 8) mod 2 ^ 8; v mod 2 ^ 8].
Proof.
  intros Hv.
  split; [apply RegionHeaderFacts.be32toh_involutive; exact Hv |].
  split.
  { destruct (RegionHeaderFacts.sum_of_bytes v Hv) as [B3 _].
    pose proof (Z.mod_pos_bound (v / 2 ^ 16) (2 ^ 8) ltac:(lia)) as B2.
    pose proof (Z.mod_pos_bound (v / 2 ^ 8) (2 ^ 8) ltac:(lia)) as B1.
    pose proof (Z.mod_pos_bound v (2 ^ 8) ltac:(lia)) as B0.
    rewrite (RegionHeaderFacts.be32toh_sum v Hv).
    apply (RegionHeaderFacts.bytes_of_sum _ _ _ _ B3 B2 B1 B0). }
  split; [apply RegionHeaderFacts.u32_bytes_htobe32; exact Hv |].
  destruct (RegionHeaderFacts.sum_of_bytes v Hv) as [B3 _].
  unfold WorldPersistence.be32, Int.to_u8, Int.to_unsigned.
  rewrite !Z.shiftr_div_pow2 by lia.
  rewrite (Z.mod_small (v / 2 ^ 24)) by exact B3. reflexivity.
Qed.

Lemma be32toh_swaps_bytes_witness :
  0 <= 0x01020304 < 2 ^ 32
  /\ WorldPersistence.be32toh (WorldPersistence.be32toh 0x01020304) = 0x01020304
  /\ 0 <= WorldPersistence.be32toh 0x01020304 < 2 ^ 32
  /\ WorldPersistence.u32_bytes (WorldPersistence.htobe32 0x01020304)
     = WorldPersistence.be32 0x01020304
  /\ WorldPersistence.be32 0x01020304
     = [0x01020304 / 2 ^ 24; (0x01020304 / 2 ^ 16) mod 2 ^ 8;
        (0x01020304 / 2 ^ 8) mod 2 ^ 8; 0x01020304 mod 2 ^ 8].
Proof.
  assert (H : 0 <= 0x01020304 < 2 ^ 32) by lia.
  split; [exact H |]. exact (be32toh_swaps_bytes 0x01020304 H).
Defined.

(** ** The player registry *)

(** X24.  [remove_player(uuid)] right after [create_player] with that
    UUID takes the new session out of all three indexes: it is found
    neither by UUID, nor by name, nor by entity id.  Entries under other
    UUIDs, names and entity ids are as they were before the two calls, but
    an earlier session registered under the same name (which
    [create_player] overwrote) is not restored: the name finds nobody.
    The entity id is not given out again. *)
Theorem create_then_remove_player (connection : option nat)
    (uuid username : list Z) (m : PlayerManager.t) :
  let created := PlayerManager.create_player connection uuid username m in
  let m' := PlayerManager.remove_player uuid created.2 in
  PlayerManager.get_player uuid m' = None
  /\ PlayerManager.get_player_by_name username m' = None
  /\ PlayerManager.get_player_by_entity_id (PlayerManager.next_entity_id_ m) m' = None
  /\ (forall u, u <> uuid ->
        PlayerManager.get_player u m' = PlayerManager.get_player u m)
  /\ (forall n, n <> username ->
        PlayerManager.get_player_by_name n m' = PlayerManager.get_player_by_name n m)
  /\ (forall e, e <> PlayerManager.next_entity_id_ m ->
        PlayerManager.get_player_by_entity_id e m'
        = PlayerManager.get_player_by_entity_id e m)
  /\ PlayerManager.next_entity_id_ m'
     = Int.to_u32 (PlayerManager.next_entity_id_ m + 1).
Proof.
  cbv zeta.
  pose proof (PlayerManagerFacts.create_player_registers connection uuid username m)
    as Hreg.
  unfold PlayerManager.remove_player, PlayerManager.get_player,
    PlayerManager.get_player_by_name, PlayerManager.get_player_by_entity_id.
  destruct (PlayerManager.create_player connection uuid username m)
    as [player m1] eqn:Hcreate.
  destruct Hreg as (Hu & Hn & He & Hheap & _).
  cbn [fst snd]. rewrite Hu, Hheap.
  cbn [PlayerManager.players_by_uuid_ PlayerManager.players_by_name_
       PlayerManager.players_by_entity_id_ PlayerManager.next_entity_id_
       Player.create Player.profile_username_ Player.entity_id_].
  unfold PlayerManager.create_player, PlayerManager.get_next_entity_id,
    PlayerManager.make_shared, PlayerManager.register in Hcreate.
  injection Hcreate as _ <-.
  cbn [PlayerManager.players_by_uuid_ PlayerManager.players_by_name_
       PlayerManager.players_by_entity_id_ PlayerManager.next_entity_id_].
  split; [apply lookup_delete_eq |].
  split; [apply lookup_delete_eq |].
  split; [apply lookup_delete_eq |].
  split; [intros u Hne; rewrite lookup_delete_ne, lookup_insert_ne by congruence;
          reflexivity |].
  split; [intros n Hne; rewrite lookup_delete_ne, lookup_insert_ne by congruence;
          reflexivity |].
  split; [intros e Hne; rewrite lookup_delete_ne, lookup_insert_ne by congruence;
          reflexivity |].
  reflexivity.
Qed.

(** ** Inventories *)

(** X25.  [Inventory::add_item] puts the whole stack into the first slot
    that is empty or that the whole stack merges into (same item and
    damage, sum of the counts within the stack size), and changes nothing
    else; when no slot takes the whole stack it returns [false] and leaves
    the inventory as it was, even where part of the stack would fit.  It
    returns [true] exactly when the stack is empty or such a slot
    exists. *)
Theorem add_item_whole_stack_or_nothing (item : ItemStack.t) (inv : Inventory.t) :
  0 <= ItemStack.count item < 256 -> InventoryShape.typed inv ->
  let added := Inventory.add_item item inv in
  (added.1 = true
   <-> ItemStack.is_empty item = true
       \/ Exists (fun s => InventoryShape.accepts item s = true) inv)
  /\ (added.1 = false \/ ItemStack.is_empty item = true -> added.2 = inv)
  /\ (added.1 = true -> ItemStack.is_empty item = false ->
      exists pre s post,
        inv = pre ++ s :: post
        /\ Forall (fun s => InventoryShape.accepts item s = false) pre
        /\ InventoryShape.accepts item s = true
        /\ added.2 = pre ++ InventoryShape.filled item s :: post)
  /\ length added.2 = length inv
  /\ InventoryShape.typed added.2.
Proof.
  intros Hi Ht. cbv zeta. unfold Inventory.add_item.
  destruct (ItemStack.is_empty item) eqn:He; cbn [fst snd].
  { split; [split; [intros _; by left | reflexivity] |].
    split; [reflexivity |]. split; [discriminate |]. by split. }
  destruct (InventoryFacts.add_item_loop_spec item inv Hi Ht He)
    as [[Hall Hloop] | (pre & s & post & Hinv & Hall & Hacc & Hloop)];
    rewrite Hloop; cbn [fst snd].
  - rewrite He. split; [split; [discriminate |] |].
    { intros [H | H]; [discriminate |]. exfalso.
      apply Exists_exists in H. destruct H as (s & Hin & Hacc).
      rewrite Forall_forall in Hall. rewrite (Hall s Hin) in Hacc. discriminate. }
    split; [reflexivity |]. split; [discriminate |]. by split.
  - change (ItemStack.is_empty ItemStack.empty) with true.
    split; [split; [intros _; right | reflexivity] |].
    { rewrite Hinv. apply Exists_app. right. by left. }
    split; [intros [H | H]; discriminate |].
    split; [intros _ _; by exists pre, s, post |].
    subst inv. split; [rewrite !length_app; reflexivity |].
    unfold InventoryShape.typed in *.
    apply Forall_app in Ht. destruct Ht as [Hpre Hpost].
    apply Forall_cons in Hpost. destruct Hpost as [Hs Hpost].
    apply Forall_app. split; [exact Hpre |].
    constructor; [| exact Hpost].
    apply InventoryFacts.typed_filled; assumption.
Qed.

Lemma add_item_whole_stack_or_nothing_witness :
  let item := ItemStack.mk 1 10 0 in
  let inv := [ItemStack.mk 1 60 0; ItemStack.mk 2 1 0] in
  0 <= ItemStack.count item < 256 /\ InventoryShape.typed inv
  /\ (let added := Inventory.add_item item inv in
      (added.1 = true
       <-> ItemStack.is_empty item = true
           \/ Exists (fun s => InventoryShape.accepts item s = true) inv)
      /\ (added.1 = false \/ ItemStack.is_empty item = true -> added.2 = inv)
      /\ (added.1 = true -> ItemStack.is_empty item = false ->
          exists pre s post,
            inv = pre ++ s :: post
            /\ Forall (fun s => InventoryShape.accepts item s = false) pre
            /\ InventoryShape.accepts item s = true
            /\ added.2 = pre ++ InventoryShape.filled item s :: post)
      /\ length added.2 = length inv
      /\ InventoryShape.typed added.2).
Proof.
  cbv zeta.
  assert (H1 : 0 <= ItemStack.count (ItemStack.mk 1 10 0) < 256) by (cbn; lia).
  assert (H2 : InventoryShape.typed [ItemStack.mk 1 60 0; ItemStack.mk 2 1 0])
    by (repeat constructor; cbn; lia).
  split; [exact H1 | split; [exact H2 |]].
  exact (add_item_whole_stack_or_nothing (ItemStack.mk 1 10 0)
           [ItemStack.mk 1 60 0; ItemStack.mk 2 1 0] H1 H2).
Defined.

(** X26.  [Inventory::remove_item(slot, amount)] takes
    [min(amount, count)] items out of the slot and returns them as a stack
    of the same item and damage: what is returned and what stays add up to
    what was there, a slot emptied becomes [ItemStack()], and no other
    slot changes.  On an empty slot or a slot outside the inventory it
    returns [ItemStack()] and changes nothing. *)
Theorem remove_item_conserves (slot : nat) (amount : Z) (inv : Inventory.t) :
  0 <= amount < 256 -> InventoryShape.typed inv ->
  let s := Inventory.get_item slot inv in
  let removed := Inventory.remove_item slot amount inv in
  length removed.2 = length inv
  /\ (forall j, j <> slot ->
        Inventory.get_item j removed.2 = Inventory.get_item j inv)
  /\ if ItemStack.is_empty s then removed = (ItemStack.empty, inv)
     else ItemStack.item_id removed.1 = ItemStack.item_id s
          /\ ItemStack.damage removed.1 = ItemStack.damage s
          /\ ItemStack.count removed.1 = Z.min amount (ItemStack.count s)
          /\ ItemStack.count removed.1
             + ItemStack.count (Inventory.get_item slot removed.2)
             = ItemStack.count s
          /\ Inventory.get_item slot removed.2
             = (if ItemStack.count s <=? amount then ItemStack.empty
                else ItemStack.mk (ItemStack.item_id s) (ItemStack.count s - amount)
                       (ItemStack.damage s)).
Proof.
  intros Ha Ht. cbv zeta. unfold Inventory.remove_item, Inventory.get_item.
  destruct (Nat.ltb_spec slot (length inv)) as [Hlt | Hge].
  2: { replace (length inv <=? slot)%nat with true by (symmetry; apply Nat.leb_le; lia).
       cbn [orb fst snd]. split; [reflexivity |]. split; [reflexivity |].
       reflexivity. }
  replace (length inv <=? slot)%nat with false by (symmetry; apply Nat.leb_gt; lia).
  cbn [orb].
  destruct (ItemStack.is_empty (nth slot inv ItemStack.empty)) eqn:He; cbn [fst snd].
  { split; [reflexivity |]. split; reflexivity. }
  cbv zeta. cbn [fst snd].
  assert (Hs : 0 <= ItemStack.count (nth slot inv ItemStack.empty) < 256).
  { unfold InventoryShape.typed in Ht. rewrite Forall_forall in Ht.
    apply Ht, list_elem_of_In, nth_In. exact Hlt. }
  set (s := nth slot inv ItemStack.empty) in *.
  assert (Hpos : ItemStack.count s <> 0).
  { unfold ItemStack.is_empty in He. apply orb_false_iff in He.
    destruct He as [_ He]. apply Z.eqb_neq in He. exact He. }
  unfold Inventory.t in *. rewrite length_insert.
  split; [reflexivity |].
  split.
  { intros j Hj. destruct (j <? length inv)%nat; [| reflexivity].
    apply ChunkFacts.nth_insert_ne. congruence. }
  replace (slot <? length inv)%nat with true by (symmetry; apply Nat.ltb_lt; lia).
  rewrite ChunkFacts.nth_insert_eq by exact Hlt.
  cbn [ItemStack.item_id ItemStack.damage ItemStack.count].
  split; [reflexivity |]. split; [reflexivity |]. split; [reflexivity |].
  rewrite IntFacts.to_u8_small by lia.
  destruct (Z.leb_spec (ItemStack.count s) amount) as [Hle | Hgt].
  - rewrite Z.min_r by lia. rewrite Z.sub_diag. cbn [Z.eqb ItemStack.count ItemStack.empty].
    split; [lia | reflexivity].
  - rewrite Z.min_l by lia.
    destruct (Z.eqb_spec (ItemStack.count s - amount) 0) as [E | E]; [lia |].
    cbn [ItemStack.count]. split; [lia | reflexivity].
Qed.

Lemma remove_item_conserves_witness :
  let inv := [ItemStack.mk 1 60 0; ItemStack.mk 2 1 0] in
  0 <= 255 < 256 /\ InventoryShape.typed inv
  /\ (let s := Inventory.get_item 0 inv in
      let removed := Inventory.remove_item 0 255 inv in
      length removed.2 = length inv
      /\ (forall j, j <> 0%nat ->
            Inventory.get_item j removed.2 = Inventory.get_item j inv)
      /\ if ItemStack.is_empty s then removed = (ItemStack.empty, inv)
         else ItemStack.item_id removed.1 = ItemStack.item_id s
              /\ ItemStack.damage removed.1 = ItemStack.damage s
              /\ ItemStack.count removed.1 = Z.min 255 (ItemStack.count s)
              /\ ItemStack.count removed.1
                 + ItemStack.count (Inventory.get_item 0 removed.2)
                 = ItemStack.count s
              /\ Inventory.get_item 0 removed.2
                 = (if ItemStack.count s <=? 255 then ItemStack.empty
                    else ItemStack.mk (ItemStack.item_id s) (ItemStack.count s - 255)
                           (ItemStack.damage s))).
Proof.
  cbv zeta.
  assert (H1 : 0 <= 255 < 256) by lia.
  assert (H2 : InventoryShape.typed [ItemStack.mk 1 60 0; ItemStack.mk 2 1 0])
    by (repeat constructor; cbn; lia).
  split; [exact H1 | split; [exact H2 |]].
  exact (remove_item_conserves 0 255 [ItemStack.mk 1 60 0; ItemStack.mk 2 1 0] H1 H2).
Defined.

(** X27.  While the items of an id over all slots number fewer than 256,
    so that the [u8] running count of [has_item] does not wrap,
    [has_item(item_id, count)] holds exactly when some slot carries the id
    and the slots carrying it hold at least [count] items together;
    damage values are not compared. *)
Theorem has_item_counts_the_slots (item_id count : Z) (inv : Inventory.t) :
  InventoryShape.typed inv -> InventoryShape.total item_id inv < 256 ->
  Inventory.has_item item_id count inv = true
  <-> Exists (fun s => ItemStack.item_id s = item_id) inv
      /\ count <= InventoryShape.total item_id inv.
Proof.
  intros Ht Hsum. unfold Inventory.has_item.
  rewrite (InventoryFacts.has_item_loop_spec item_id count inv 0 Ht) by lia.
  reflexivity.
Qed.

Lemma has_item_counts_the_slots_witness :
  let inv := [ItemStack.mk 1 60 0; ItemStack.mk 2 1 0; ItemStack.mk 1 30 5] in
  InventoryShape.typed inv /\ InventoryShape.total 1 inv < 256
  /\ (Inventory.has_item 1 90 inv = true
      <-> Exists (fun s => ItemStack.item_id s = 1) inv
          /\ 90 <= InventoryShape.total 1 inv).
Proof.
  cbv zeta.
  assert (H1 : InventoryShape.typed
                 [ItemStack.mk 1 60 0; ItemStack.mk 2 1 0; ItemStack.mk 1 30 5])
    by (repeat constructor; cbn; lia).
  assert (H2 : InventoryShape.total 1
                 [ItemStack.mk 1 60 0; ItemStack.mk 2 1 0; ItemStack.mk 1 30 5] < 256)
    by (cbn; lia).
  split; [exact H1 | split; [exact H2 |]].
  exact (has_item_counts_the_slots 1 90
           [ItemStack.mk 1 60 0; ItemStack.mk 2 1 0; ItemStack.mk 1 30 5] H1 H2).
Defined.

(** ** Truncated input; the phases of a connection *)

(** X28.  [read_be<T>] for a [T] of [n] bytes returns exactly when the
    buffer has [n] unread bytes, and then moves the read cursor by [n];
    otherwise it throws Buffer underflow, and by then it has consumed every
    unread byte: nothing is left to read. *)
Theorem read_be_returns_or_drains (conv : Z -> Z) (n : nat) (b : Buffer.t) :
  if (n <=? Buffer.readable b)%nat
  then exists v, Buffer.read_be conv n b = (Ok v, Buffer.advance n b)
  else Buffer.read_be conv n b
       = (Throw BufferUnderflow, Buffer.advance (Buffer.readable b) b)
       /\ Buffer.readable (Buffer.advance (Buffer.readable b) b) = 0%nat.
Proof.
  destruct (Nat.leb_spec n (Buffer.readable b)) as [Hle | Hgt].
  - apply CodecFacts.read_be_ok. exact Hle.
  - split; [| rewrite CodecFacts.readable_advance; lia].
    destruct n as [| [| n]].
    + lia.
    + assert (E : Buffer.readable b = 0%nat) by lia.
      cbn [Buffer.read_be]. unfold bind.
      rewrite (StreamFacts.read_byte_empty b E), E, CodecFacts.advance_0.
      reflexivity.
    + apply StreamFacts.read_be_loop_short. exact Hgt.
Qed.

(** X29.  Whatever bytes [handle_read] is given, a closed connection
    stays closed, and a connection that has left HANDSHAKING changes state
    in one way only, from LOGIN to PLAY: STATUS and PLAY are final, and so
    is a state that is none of the four enumerators. *)
Theorem handle_read_keeps_phase (junk : nat -> Z) (env : ServerEnv)
    (bytes : list Z) (c : Connection.t) :
  let c' := Connection.handle_read junk env bytes c in
  (Connection.closed_ c = true -> Connection.closed_ c' = true)
  /\ (Connection.state_ c <> ConnectionState.HANDSHAKING ->
      Connection.state_ c' = Connection.state_ c
      \/ (Connection.state_ c = ConnectionState.LOGIN
          /\ Connection.state_ c' = ConnectionState.PLAY)).
Proof.
  cbv zeta. unfold Connection.handle_read. split.
  - intros Hclosed.
    apply (StreamFacts.frame_loop_invariant
             (fun c' => Connection.closed_ c' = true)).
    + intros b0 c0 H. exact H.
    + reflexivity.
    + intros p c0 H. apply StreamFacts.handle_packet_closed, H.
    + exact Hclosed.
  - intros Hstate.
    apply (StreamFacts.frame_loop_invariant
             (fun c' => Connection.state_ c' = Connection.state_ c
                        \/ (Connection.state_ c = ConnectionState.LOGIN
                            /\ Connection.state_ c' = ConnectionState.PLAY))).
    + intros b0 c0 H. exact H.
    + intros c0 H. exact H.
    + intros p c0 H.
      assert (Hc0 : Connection.state_ c0 <> ConnectionState.HANDSHAKING).
      { destruct H as [-> | [_ ->]]; [exact Hstate | discriminate]. }
      destruct (ConnectionFacts.phase_after_handshake env p c0 Hc0)
        as [-> | [E ->]]; [exact H |].
      destruct H as [H | [_ H]]; [| rewrite H in E; discriminate].
      right. split; [rewrite <- H; exact E | reflexivity].
    + left. reflexivity.
Qed.

(** ** Offline UUIDs *)

(** X30.  [generate_offline_uuid] returns 16 bytes, whatever the name and
    the hash: byte 6 carries version 3 in its high nibble and byte 8 the
    variant bits [10].  Only the 64 bits of the hash enter: bytes 9 to 13
    and 15 repeat bytes 1 to 5 and 7, and bytes 14 and 0 differ from bytes
    6 and 8 in the overwritten bits at most. *)
Theorem offline_uuid_shape (hasher : list Z -> Z) (username : list Z) :
  let uuid := utils.generate_offline_uuid hasher username in
  length uuid = 16%nat
  /\ Forall Int.is_u8 uuid
  /\ nth 6 uuid 0 / 16 = 3
  /\ nth 8 uuid 0 / 64 = 2
  /\ (forall i, (1 <= i < 8)%nat -> i <> 6%nat -> nth (i + 8) uuid 0 = nth i uuid 0)
  /\ nth 14 uuid 0 mod 16 = nth 6 uuid 0 mod 16
  /\ nth 0 uuid 0 mod 64 = nth 8 uuid 0 mod 64.
Proof.
  cbv zeta. unfold utils.generate_offline_uuid. cbv zeta.
  set (hash := Int.to_u64 _).
  cbn [seq map app nth]. 
  set (b0 := Int.to_u8 (Z.shiftr hash (Z.of_nat 0 * 8))).
  set (b1 := Int.to_u8 (Z.shiftr hash (Z.of_nat 1 * 8))).
  set (b2 := Int.to_u8 (Z.shiftr hash (Z.of_nat 2 * 8))).
  set (b3 := Int.to_u8 (Z.shiftr hash (Z.of_nat 3 * 8))).
  set (b4 := Int.to_u8 (Z.shiftr hash (Z.of_nat 4 * 8))).
  set (b5 := Int.to_u8 (Z.shiftr hash (Z.of_nat 5 * 8))).
  set (b6 := Int.to_u8 (Z.shiftr hash (Z.of_nat 6 * 8))).
  set (b7 := Int.to_u8 (Z.shiftr hash (Z.of_nat 7 * 8))).
  assert (H0 : 0 <= b0 < 256) by apply IntFacts.to_u8_range.
  assert (H1 : 0 <= b1 < 256) by apply IntFacts.to_u8_range.
  assert (H2 : 0 <= b2 < 256) by apply IntFacts.to_u8_range.
  assert (H3 : 0 <= b3 < 256) by apply IntFacts.to_u8_range.
  assert (H4 : 0 <= b4 < 256) by apply IntFacts.to_u8_range.
  assert (H5 : 0 <= b5 < 256) by apply IntFacts.to_u8_range.
  assert (H6 : 0 <= b6 < 256) by apply IntFacts.to_u8_range.
  assert (H7 : 0 <= b7 < 256) by apply IntFacts.to_u8_range.
  clearbody b0 b1 b2 b3 b4 b5 b6 b7. clear hash.
  assert (E6 : Z.lor (Z.land b6 0x0F) 0x30 = b6 mod 16 + 48).
  { change 0x0F with (Z.ones 4). rewrite Z.land_ones by lia.
    change 0x30 with (3 * 2 ^ 4).
    rewrite (IntFacts.lor_disjoint_add 4) by (try apply Z.mod_pos_bound; lia).
    reflexivity. }
  assert (E8 : Z.lor (Z.land b0 0x3F) 0x80 = b0 mod 64 + 128).
  { change 0x3F with (Z.ones 6). rewrite Z.land_ones by lia.
    change 0x80 with (2 * 2 ^ 6).
    rewrite (IntFacts.lor_disjoint_add 6) by (try apply Z.mod_pos_bound; lia).
    reflexivity. }
  cbn [insert list_insert nth]. rewrite E6, E8.
  pose proof (Z.mod_pos_bound b6 16 ltac:(lia)) as M6.
  pose proof (Z.mod_pos_bound b0 64 ltac:(lia)) as M0.
  split; [reflexivity |].
  split; [unfold Int.is_u8; repeat constructor; lia |].
  split; [Z.to_euclidean_division_equations; lia |].
  split; [Z.to_euclidean_division_equations; lia |].
  split.
  { intros i Hi Hi6.
    destruct i as [| [| [| [| [| [| [| [| i]]]]]]]]; try lia; reflexivity. }
  split; Z.to_euclidean_division_equations; lia.
Qed.
